(** * Adversarial search for Isolation: alpha-beta minimax and MCTS

    A shallow embedding of [search/my_custom_player.py] (the [Node] tree of
    the Monte-Carlo tree search, [CustomPlayer.monte_carlo_tree_search],
    [CustomPlayer.traverse], [CustomPlayer.alpha_beta_search] with
    [min_value]/[max_value], [CustomPlayer.get_action]) and of the toy
    [GameState] of [multiagent environments/solution.py].

    Conventions of the embedding:
    - Python numbers that only ever hold integers or an infinity
      ([float("inf")], [float("-inf")], scores, utilities) are values of
      [EZ], the integers extended with the two infinities;
    - the game the player is run on (the [isolation] package) is not part
      of the repository: it is the interface [Game];
    - [random.choice] draws from an explicit random source, [time.time]
      from an explicit list of clock readings;
    - Python exceptions are the constructor [Raise] of [outcome]; loops
      that Python runs until a condition holds take a fuel argument and
      answer [Diverge] when it runs out. *)

From Stdlib Require Import List ZArith Lia Bool Arith PeanoNat.
From Stdlib Require Import QArith Qround.
From Stdlib Require Import Reals Lra.
From Stdlib Require Import Orders OrdersTac.
Import ListNotations.

(* ================================================================== *)
(** * Part I: definitions                                              *)
(* ================================================================== *)

(** ** Extended integers *)

Inductive EZ : Type :=
| NegInf : EZ
| Fin (z : Z) : EZ
| PosInf : EZ.

Definition EZ_eq_dec (a b : EZ) : {a = b} + {a <> b}.
Proof. decide equality. apply Z.eq_dec. Defined.

Definition EZ_eqb (a b : EZ) : bool :=
  if EZ_eq_dec a b then true else false.

(** [a < b] on Python numbers. *)
Definition EZ_ltb (a b : EZ) : bool :=
  match a, b with
  | NegInf, NegInf => false
  | NegInf, _ => true
  | Fin x, Fin y => (x <? y)%Z
  | Fin _, PosInf => true
  | Fin _, NegInf => false
  | PosInf, _ => false
  end.

(** [a <= b] on Python numbers. *)
Definition EZ_leb (a b : EZ) : bool := negb (EZ_ltb b a).

(** [max(v, x)]: Python keeps the first argument unless the second is
    strictly greater. *)
Definition emax (v x : EZ) : EZ := if EZ_ltb v x then x else v.

(** [min(v, x)]: Python keeps the first argument unless the second is
    strictly smaller. *)
Definition emin (v x : EZ) : EZ := if EZ_ltb x v then x else v.

Definition EZ_lt (a b : EZ) : Prop := EZ_ltb a b = true.
Definition EZ_le (a b : EZ) : Prop := EZ_ltb b a = false.

(** What a call with window [(alpha, beta)] that returned [r] tells
    about the plain minimax value [m] of the same position: below [beta]
    the answer is an upper bound, above [alpha] a lower bound. *)
Definition ab_ok (r m alpha beta : EZ) : Prop :=
  (EZ_lt r beta -> EZ_le m r) /\ (EZ_lt alpha r -> EZ_le r m).

(** ** Outcomes of Python calls *)

Inductive exn : Type :=
| AssertionError
| AttributeError
| IndexError
| ValueError
| ZeroDivisionError.

Inductive outcome (A : Type) : Type :=
| Return (a : A)
| Raise (e : exn)
| Diverge.

Arguments Return {A} a.
Arguments Raise {A} e.
Arguments Diverge {A}.

Definition bind {A B : Type} (m : outcome A) (k : A -> outcome B) : outcome B :=
  match m with
  | Return a => k a
  | Raise e => Raise e
  | Diverge => Diverge
  end.

Notation "x <- m ;; k" := (bind m (fun x => k))
  (at level 61, m at next level, right associativity).

(** ** The game interface

    What [my_custom_player.py] uses of an [isolation] state: [actions()],
    [result(action)], [terminal_test()], [utility(player_id)], [player()],
    the attributes [ply_count] and [locs] and [liberties(loc)].  [result]
    is only ever applied to an action drawn from [actions()]. *)

Class Game : Type := {
  State : Type;
  Action : Type;
  Loc : Type;
  Action_eq_dec : forall a b : Action, {a = b} + {a <> b};
  actions : State -> list Action;
  result : State -> Action -> State;
  terminal_test : State -> bool;
  utility : State -> Z -> EZ;
  player : State -> Z;
  ply_count : State -> Z;
  locs : State -> Z -> Loc;
  liberties : State -> Loc -> list Loc
}.

(** The contract of the game state (section 4.1 of the specification),
    for the states [valid] singles out (those a play can reach): a state
    that is not terminal has a move; a move hands the turn to the other
    player; players are 0 and 1.  [rank] bounds the length of a play:
    every move decreases it (on an Isolation board, the number of open
    cells). *)
Class GameLaws (G : Game) : Type := {
  valid : State -> Prop;
  rank : State -> nat;
  valid_result :
    forall s a, valid s -> terminal_test s = false -> In a (actions s) ->
                valid (result s a);
  nonterminal_has_actions :
    forall s, valid s -> terminal_test s = false -> actions s <> [];
  player_toggles :
    forall s a, valid s -> terminal_test s = false -> In a (actions s) ->
                player (result s a) = (1 - player s)%Z;
  rank_decreases :
    forall s a, valid s -> terminal_test s = false -> In a (actions s) ->
                (rank (result s a) < rank s)%nat
}.

(** ** Alpha-beta minimax ([CustomPlayer.alpha_beta_search]) *)

Section AlphaBeta.
Context {G : Game}.

(** [self.player_id], bound when the player object is created. *)
Variable player_id : Z.

(** [CustomPlayer.diff_liberties] *)
Definition diff_liberties (state : State) : EZ :=
  let own_loc := locs state player_id in
  let opp_loc := locs state (1 - player_id)%Z in
  let own_liberties := liberties state own_loc in
  let opp_liberties := liberties state opp_loc in
  Fin (Z.of_nat (length own_liberties) - Z.of_nat (length opp_liberties)).

(** [CustomPlayer.score]: the one heuristic that is not commented out. *)
Definition score (state : State) : EZ := diff_liberties state.

(** The [for a in game_state.actions()] loop of [min_value]; [child] is
    the recursive call [self.max_value(_, alpha, beta, depth - 1)]. *)
Fixpoint min_loop (child : State -> EZ -> EZ -> EZ) (game_state : State)
  (acts : list Action) (v alpha beta : EZ) : EZ :=
  match acts with
  | [] => v
  | a :: rest =>
      let v := emin v (child (result game_state a) alpha beta) in
      if EZ_leb v alpha then v
      else min_loop child game_state rest v alpha (emin beta v)
  end.

(** The [for a in game_state.actions()] loop of [max_value]. *)
Fixpoint max_loop (child : State -> EZ -> EZ -> EZ) (game_state : State)
  (acts : list Action) (v alpha beta : EZ) : EZ :=
  match acts with
  | [] => v
  | a :: rest =>
      let v := emax v (child (result game_state a) alpha beta) in
      if EZ_leb beta v then v
      else max_loop child game_state rest v (emax alpha v) beta
  end.

(** [min_value] and [max_value], by recursion on the number of plies
    left: [n] stands for a depth [d] with [n = Z.to_nat d], so that
    [depth <= 0] is [n = 0] and [depth - 1] is the predecessor. *)
Fixpoint min_value_n (n : nat) (game_state : State) (alpha beta : EZ) : EZ :=
  if terminal_test game_state then utility game_state player_id
  else match n with
       | O => score game_state
       | S n' =>
           min_loop (max_value_n n') game_state (actions game_state)
                    PosInf alpha beta
       end
with max_value_n (n : nat) (game_state : State) (alpha beta : EZ) : EZ :=
  if terminal_test game_state then utility game_state player_id
  else match n with
       | O => score game_state
       | S n' =>
           max_loop (min_value_n n') game_state (actions game_state)
                    NegInf alpha beta
       end.

(** [CustomPlayer.min_value(game_state, alpha, beta, depth)] *)
Definition min_value (game_state : State) (alpha beta : EZ) (depth : Z) : EZ :=
  min_value_n (Z.to_nat depth) game_state alpha beta.

(** [CustomPlayer.max_value(game_state, alpha, beta, depth)] *)
Definition max_value (game_state : State) (alpha beta : EZ) (depth : Z) : EZ :=
  max_value_n (Z.to_nat depth) game_state alpha beta.

(** Which arm of the [if v > best_score / elif best_move is None] was
    taken while an action of the root was examined. *)
Inductive branch : Type :=
| TookIf
| TookElif
| TookNeither.

(** The local variables of [alpha_beta_search], with the arms taken so
    far (oldest first). *)
Record ab_frame : Type := mk_ab_frame {
  ab_alpha : EZ;
  ab_best_score : EZ;
  ab_best_move : option Action;
  ab_trace : list branch
}.

(** One pass through the body of the [for a in game_state.actions()]
    loop of [alpha_beta_search]. *)
Definition ab_step (game_state : State) (depth : Z) (f : ab_frame)
  (a : Action) : ab_frame :=
  let v := min_value (result game_state a) (ab_alpha f) PosInf (depth - 1) in
  let alpha := emax (ab_alpha f) v in
  if EZ_ltb (ab_best_score f) v then
    mk_ab_frame alpha v (Some a) (ab_trace f ++ [TookIf])
  else
    match ab_best_move f with
    | None => mk_ab_frame alpha v (Some a) (ab_trace f ++ [TookElif])
    | Some _ =>
        mk_ab_frame alpha (ab_best_score f) (ab_best_move f)
                    (ab_trace f ++ [TookNeither])
    end.

Definition ab_init : ab_frame := mk_ab_frame NegInf NegInf None [].

(** The frame of [alpha_beta_search] when its loop has ended. *)
Definition ab_run (game_state : State) (depth : Z) : ab_frame :=
  fold_left (ab_step game_state depth) (actions game_state) ab_init.

(** [CustomPlayer.alpha_beta_search(game_state, depth)]: [None] is
    Python's [None]. *)
Definition alpha_beta_search (game_state : State) (depth : Z) : option Action :=
  ab_best_move (ab_run game_state depth).

(** ** Plain depth-limited minimax (the comparison of the specification)

    The same three functions with the window and the two early returns
    taken out. *)

Fixpoint minimax_min_loop (child : State -> EZ) (game_state : State)
  (acts : list Action) (v : EZ) : EZ :=
  match acts with
  | [] => v
  | a :: rest =>
      minimax_min_loop child game_state rest (emin v (child (result game_state a)))
  end.

Fixpoint minimax_max_loop (child : State -> EZ) (game_state : State)
  (acts : list Action) (v : EZ) : EZ :=
  match acts with
  | [] => v
  | a :: rest =>
      minimax_max_loop child game_state rest (emax v (child (result game_state a)))
  end.

Fixpoint minimax_min_n (n : nat) (game_state : State) : EZ :=
  if terminal_test game_state then utility game_state player_id
  else match n with
       | O => score game_state
       | S n' =>
           minimax_min_loop (minimax_max_n n') game_state (actions game_state) PosInf
       end
with minimax_max_n (n : nat) (game_state : State) : EZ :=
  if terminal_test game_state then utility game_state player_id
  else match n with
       | O => score game_state
       | S n' =>
           minimax_max_loop (minimax_min_n n') game_state (actions game_state) NegInf
       end.

Definition minimax_min_value (game_state : State) (depth : Z) : EZ :=
  minimax_min_n (Z.to_nat depth) game_state.

Definition minimax_max_value (game_state : State) (depth : Z) : EZ :=
  minimax_max_n (Z.to_nat depth) game_state.

(** The value of the root under plain minimax, computed the way the
    driver does: the greatest [min_value] over the root's actions. *)
Definition minimax_search_value (game_state : State) (depth : Z) : EZ :=
  minimax_max_loop (fun s => minimax_min_value s (depth - 1)) game_state
                   (actions game_state) NegInf.

End AlphaBeta.

(** ** Random choices

    The random source is the sequence of integers the generator yields;
    a computation carries the number of draws made so far. *)

Definition Rand : Type := nat -> nat.

(** [random.choice(seq)]: raises [IndexError] on an empty sequence. *)
Definition random_choice {A : Type} (rnd : Rand) (c : nat) (seq : list A)
  : outcome (A * nat) :=
  match nth_error seq (rnd c mod length seq) with
  | Some x => Return (x, S c)
  | None => Raise IndexError
  end.

(** ** The action selector ([CustomPlayer.get_action]) *)

Definition _SEARCH_DEPTH : Z := 5.

Section ActionSelector.
Context {G : Game}.
Variable player_id : Z.

(** What [get_action] does that its caller can observe: the searchers it
    invokes and the actions it puts on [self.queue]. *)
Inductive event : Type :=
| CallAlphaBeta (game_state : State) (depth : Z)
| CallMCTS (game_state : State)
| QueuePut (a : option Action).

(** [CustomPlayer.get_action(state)]: the events in order, and how the
    call ends. *)
Definition get_action (rnd : Rand) (state : State) : list event * outcome unit :=
  if (ply_count state <? 2)%Z then
    match random_choice rnd 0 (actions state) with
    | Return (a, _) => ([QueuePut (Some a)], Return tt)
    | Raise e => ([], Raise e)
    | Diverge => ([], Diverge)
    end
  else
    let best_action := alpha_beta_search player_id state _SEARCH_DEPTH in
    ([CallAlphaBeta state _SEARCH_DEPTH; QueuePut best_action], Return tt).

End ActionSelector.

(** ** Monte-Carlo tree search ([Node], [monte_carlo_tree_search]) *)

Definition _SEARCH_TIME : Z := 150.
Definition _SEARCH_TIME_WITH_SAFETY : Q := 5 # 10.
Definition _EXPLORATION_WEIGHT : R := 17 / 10.

(** [l[i] = x] on a list object, for an index in range. *)
Fixpoint update {A : Type} (l : list A) (i : nat) (x : A) : list A :=
  match l, i with
  | [], _ => []
  | _ :: rest, O => x :: rest
  | y :: rest, S i' => y :: update rest i' x
  end.

(** The UCT score of a child with cumulative value [q] and [n] visits
    under a parent with [N] visits, over the reals.  The division by
    [n] raises [ZeroDivisionError] at zero and [math.log] raises
    [ValueError] at zero, in this order. *)
Definition uct_score (q : Z) (n N : nat) : R :=
  (IZR q / INR n + _EXPLORATION_WEIGHT * sqrt (2 * ln (INR N) / INR n))%R.

Definition uct (q : Z) (n N : nat) : outcome R :=
  match n with
  | O => Raise ZeroDivisionError
  | S _ =>
      match N with
      | O => Raise ValueError
      | S _ => Return (uct_score q n N)
      end
  end.

(** [uct > max_uct], where [None] is [float("-inf")]. *)
Definition uct_gt (u : R) (max_uct : option R) : bool :=
  match max_uct with
  | None => true
  | Some m => if Rlt_dec m u then true else false
  end.

Section MCTS.
Context {G : Game}.

(** A [Node] object.  [qValue] and [numberOfVisits] are floats that
    only ever hold integers; [parentNode] and [childNodes] hold object
    references, which are positions in the [Tree]. *)
Record Node : Type := mkNode {
  action : option Action;
  parentNode : option nat;
  gameState : State;
  childNodes : list nat;
  qValue : Z;
  numberOfVisits : nat;
  openActions : list Action
}.

(** The [Node] objects created so far, in order of creation: a
    reference to a node is its position, the root is at 0. *)
Definition Tree : Type := list Node.

(** [Node.__init__] *)
Definition Node_init (gameState : State) (action : option Action)
  (parent : option nat) : Node :=
  mkNode action parent gameState [] 0 0 (actions gameState).

(** Dereferencing; a reference taken from the tree is never dangling,
    the error case is there to keep the functions total. *)
Definition deref (t : Tree) (i : nat) : outcome Node :=
  match nth_error t i with
  | Some nd => Return nd
  | None => Raise AttributeError
  end.

(** [Node.is_fully_expanded] *)
Definition is_fully_expanded (nd : Node) : bool :=
  (length (openActions nd) =? 0)%nat.

(** [list.remove(x)]: drops the first occurrence, [ValueError] if there
    is none. *)
Fixpoint list_remove (x : Action) (l : list Action) : outcome (list Action) :=
  match l with
  | [] => Raise ValueError
  | y :: rest =>
      if Action_eq_dec x y then Return rest
      else rest' <- list_remove x rest ;; Return (y :: rest')
  end.

(** [Node.expand]: the new tree, the reference of the new child and the
    number of random draws made. *)
Definition expand (rnd : Rand) (c : nat) (t : Tree) (self : nat)
  : outcome (Tree * nat * nat) :=
  nd <- deref t self ;;
  mc <- random_choice rnd c (openActions nd) ;;
  let '(move, c') := mc in
  open' <- list_remove move (openActions nd) ;;
  let next_state := result (gameState nd) move in
  let child_node := length t in
  let nd' := mkNode (action nd) (parentNode nd) (gameState nd)
                    (childNodes nd ++ [child_node]) (qValue nd)
                    (numberOfVisits nd) open' in
  Return (update t self nd' ++ [Node_init next_state (Some move) (Some self)],
          child_node, c').

(** The [for childNode in self.childNodes] loop of [Node.best_child];
    [N] is [self.numberOfVisits]. *)
Fixpoint best_child_loop (t : Tree) (N : nat) (children : list nat)
  (max_uct : option R) (best_child : option nat) : outcome (option nat) :=
  match children with
  | [] => Return best_child
  | ch :: rest =>
      childNode <- deref t ch ;;
      u <- uct (qValue childNode) (numberOfVisits childNode) N ;;
      if uct_gt u max_uct
      then best_child_loop t N rest (Some u) (Some ch)
      else best_child_loop t N rest max_uct best_child
  end.

(** [Node.best_child]: [Return None] is Python's [None]. *)
Definition best_child (t : Tree) (self : nat) : outcome (option nat) :=
  nd <- deref t self ;;
  best_child_loop t (numberOfVisits nd) (childNodes nd) None None.

(** [Node.non_terminal] *)
Definition non_terminal (game_state : State) : bool :=
  negb (terminal_test game_state).

(** [Node.is_a_win] *)
Definition is_a_win (game_state : State) : bool :=
  EZ_eqb (utility game_state (1 - player game_state)) PosInf.

(** [Node.is_a_loss] *)
Definition is_a_loss (game_state : State) : bool :=
  EZ_eqb (utility game_state (1 - player game_state)) NegInf.

(** [Node.result] *)
Definition Node_result (game_state : State) : Z :=
  if is_a_win game_state then 1
  else if is_a_loss game_state then (-1)
  else 0.

(** The [while] loop of [Node.rollout]: the state it ends in and the
    number of random draws made. *)
Fixpoint rollout_loop (fuel : nat) (rnd : Rand) (c : nat)
  (current_game_state : State) : outcome (State * nat) :=
  if non_terminal current_game_state then
    match fuel with
    | O => Diverge
    | S fuel' =>
        ac <- random_choice rnd c (actions current_game_state) ;;
        let '(next_action, c') := ac in
        rollout_loop fuel' rnd c' (result current_game_state next_action)
    end
  else Return (current_game_state, c).

(** [Node.rollout] *)
Definition rollout (fuel : nat) (rnd : Rand) (c : nat) (t : Tree) (self : nat)
  : outcome (Z * nat) :=
  nd <- deref t self ;;
  sc <- rollout_loop fuel rnd c (gameState nd) ;;
  let '(current_game_state, c') := sc in
  Return (Node_result current_game_state, c').

(** [Node.backpropagate]; [fuel] bounds the chain of parents. *)
Fixpoint backpropagate (fuel : nat) (t : Tree) (self : nat) (result : Z)
  : outcome Tree :=
  match fuel with
  | O => Diverge
  | S fuel' =>
      nd <- deref t self ;;
      let nd' := mkNode (action nd) (parentNode nd) (gameState nd)
                        (childNodes nd) (qValue nd + result)
                        (numberOfVisits nd + 1) (openActions nd) in
      let t' := update t self nd' in
      let result := (- result)%Z in
      match parentNode nd with
      | Some parent => backpropagate fuel' t' parent result
      | None => Return t'
      end
  end.

(** [CustomPlayer.traverse]: the tree, the node returned and the draws
    made, together with the nodes on which [best_child] was invoked, in
    order. *)
Fixpoint traverse (fuel : nat) (rnd : Rand) (c : nat) (t : Tree)
  (node_to_process : nat) : list nat * outcome (Tree * nat * nat) :=
  match nth_error t node_to_process with
  | None => ([], Raise AttributeError)
  | Some nd =>
      if non_terminal (gameState nd) then
        if negb (is_fully_expanded nd) then ([], expand rnd c t node_to_process)
        else
          match best_child t node_to_process with
          | Return (Some ch) =>
              match fuel with
              | O => ([node_to_process], Diverge)
              | S fuel' =>
                  let '(calls, r) := traverse fuel' rnd c t ch in
                  (node_to_process :: calls, r)
              end
          | Return None => ([node_to_process], Raise AttributeError)
          | Raise e => ([node_to_process], Raise e)
          | Diverge => ([node_to_process], Diverge)
          end
      else ([], Return (t, node_to_process, c))
  end.

(** The body of the [while] loop of [monte_carlo_tree_search]. *)
Definition mcts_iteration (fuel : nat) (rnd : Rand) (tc : Tree * nat)
  : outcome (Tree * nat) :=
  let '(t, c) := tc in
  lf <- snd (traverse (length t) rnd c t 0) ;;
  let '(t1, leaf_node, c1) := lf in
  sr <- rollout fuel rnd c1 t1 leaf_node ;;
  let '(simulation_result, c2) := sr in
  t2 <- backpropagate (length t1) t1 leaf_node simulation_result ;;
  Return (t2, c2).

(** [n] passes through the loop body. *)
Fixpoint mcts_iterations (fuel : nat) (rnd : Rand) (n : nat) (tc : Tree * nat)
  : outcome (Tree * nat) :=
  match n with
  | O => Return tc
  | S n' =>
      tc' <- mcts_iteration fuel rnd tc ;;
      mcts_iterations fuel rnd n' tc'
  end.

(** The [while (time.time() - start_time) * 1000 <= search_time] loop:
    [ticks] holds the successive values of the left-hand side, one for
    each evaluation of the test.  Returns the tree, the draws made and
    the number of passes. *)
Fixpoint mcts_loop (fuel : nat) (rnd : Rand) (ticks : list Q) (search_time : Z)
  (tc : Tree * nat) (passes : nat) : outcome (Tree * nat * nat) :=
  match ticks with
  | [] => Diverge
  | elapsed :: ticks' =>
      if Qle_bool elapsed (inject_Z search_time) then
        tc' <- mcts_iteration fuel rnd tc ;;
        mcts_loop fuel rnd ticks' search_time tc' (S passes)
      else Return (tc, passes)
  end.

(** [math.ceil(search_time * _SEARCH_TIME_WITH_SAFETY)], computed
    exactly: this is what the floats give for a [search_time] of at most
    2^53 in absolute value. *)
Definition with_safety (search_time : Z) : Z :=
  Qceiling (inject_Z search_time * _SEARCH_TIME_WITH_SAFETY).

(** The root of a new search. *)
Definition root_tree (game_state : State) : Tree :=
  [Node_init game_state None None].

(** The last two lines of [monte_carlo_tree_search]:
    [root_node.best_child().action]. *)
Definition final_action (t : Tree) : outcome (option Action) :=
  bc <- best_child t 0 ;;
  match bc with
  | None => Raise AttributeError
  | Some ch => nd <- deref t ch ;; Return (action nd)
  end.

(** [CustomPlayer.monte_carlo_tree_search(game_state, search_time)] *)
Definition monte_carlo_tree_search (fuel : nat) (rnd : Rand) (ticks : list Q)
  (game_state : State) (search_time : Z) : outcome (option Action) :=
  let search_time := with_safety search_time in
  r <- mcts_loop fuel rnd ticks search_time (root_tree game_state, O) O ;;
  let '(t, _, _) := r in
  final_action t.

(** *** Invariants of the tree *)

(** Two versions of a node that differ in [qValue] and
    [numberOfVisits] at most. *)
Definition same_static (nd nd' : Node) : Prop :=
  action nd' = action nd /\ parentNode nd' = parentNode nd /\
  gameState nd' = gameState nd /\ childNodes nd' = childNodes nd /\
  openActions nd' = openActions nd.

(** [t'] is [t] after some visits have been recorded. *)
Definition tree_le (t t' : Tree) : Prop :=
  length t' = length t /\
  forall j nd, nth_error t j = Some nd ->
    exists nd', nth_error t' j = Some nd' /\ same_static nd nd' /\
                (numberOfVisits nd <= numberOfVisits nd')%nat.

(** The node [backpropagate] writes back. *)
Definition visit (nd : Node) (result : Z) : Node :=
  mkNode (action nd) (parentNode nd) (gameState nd) (childNodes nd)
         (qValue nd + result) (numberOfVisits nd + 1) (openActions nd).

(** A parent was created before its children; only the root has none. *)
Definition parents_ok (t : Tree) : Prop :=
  forall i nd, nth_error t i = Some nd ->
    match parentNode nd with
    | None => i = O
    | Some p => (p < i)%nat /\ exists pn, nth_error t p = Some pn
    end.

(** Every entry of [childNodes] is a node of the tree that holds the
    state one of the parent's actions leads to. *)
Definition children_ok (t : Tree) : Prop :=
  forall i nd ch, nth_error t i = Some nd -> In ch (childNodes nd) ->
    exists cn a, nth_error t ch = Some cn /\ parentNode cn = Some i /\
                 action cn = Some a /\ In a (actions (gameState nd)) /\
                 gameState cn = result (gameState nd) a.

(** Children and open actions together account for the actions of the
    node's state. *)
Definition open_ok (t : Tree) : Prop :=
  forall i nd, nth_error t i = Some nd ->
    (length (childNodes nd) + length (openActions nd) =
     length (actions (gameState nd)))%nat /\
    incl (openActions nd) (actions (gameState nd)) /\
    (childNodes nd <> [] -> terminal_test (gameState nd) = false).

Definition tree_shape (t : Tree) : Prop :=
  (exists r, nth_error t 0 = Some r) /\ parents_ok t /\ children_ok t /\ open_ok t.

(** The visit-count invariant: no node has more visits than its parent. *)
Definition visits_ok (t : Tree) : Prop :=
  forall i nd p pn, nth_error t i = Some nd -> parentNode nd = Some p ->
    nth_error t p = Some pn ->
    (numberOfVisits nd <= numberOfVisits pn)%nat.

(** The same while [backpropagate] is at node [k]: the children of [k]
    may be one visit ahead of it. *)
Definition visits_ok_but (t : Tree) (k : nat) : Prop :=
  forall i nd p pn, nth_error t i = Some nd -> parentNode nd = Some p ->
    nth_error t p = Some pn ->
    (numberOfVisits nd <= numberOfVisits pn + (if (p =? k)%nat then 1 else 0))%nat.

(** Every node other than the root and [leaf] has been visited. *)
Definition visited_but (t : Tree) (leaf : nat) : Prop :=
  forall i nd, nth_error t i = Some nd -> i <> O -> i <> leaf ->
    (1 <= numberOfVisits nd)%nat.

Definition root_visits (t : Tree) (n : nat) : Prop :=
  exists r, nth_error t 0 = Some r /\ numberOfVisits r = n.

(** The invariant between two passes of the loop, after [n] passes. *)
Definition tree_ok (t : Tree) (n : nat) : Prop :=
  tree_shape t /\ visits_ok t /\ visited_but t 0 /\ root_visits t n.

(** The invariant inside a pass, between [traverse] and
    [backpropagate], [leaf] being the node [traverse] returned. *)
Definition tree_mid (t : Tree) (leaf n : nat) : Prop :=
  tree_shape t /\ visits_ok t /\ visited_but t leaf /\ root_visits t n /\
  (leaf < length t)%nat.

(** The root holds the state [s0] and the states of the tree are
    states of a play from [s0]. *)
Definition states_ok {L : GameLaws G} (s0 : State) (t : Tree) : Prop :=
  (exists r, nth_error t 0 = Some r /\ gameState r = s0) /\
  forall i nd, nth_error t i = Some nd ->
    valid (gameState nd) /\ (rank (gameState nd) <= rank s0)%nat.

(** The UCT score [best_child] computes for the child [ch] of [self]. *)
Definition child_score (t : Tree) (self ch : nat) : option R :=
  match nth_error t self, nth_error t ch with
  | Some nd, Some cn =>
      Some (uct_score (qValue cn) (numberOfVisits cn) (numberOfVisits nd))
  | _, _ => None
  end.

(** [ch] is the child of [self] that maximizes the UCT score, the first
    one among equals. *)
Definition uct_best (t : Tree) (self ch : nat) : Prop :=
  exists nd pre post u,
    nth_error t self = Some nd /\ childNodes nd = pre ++ ch :: post /\
    child_score t self ch = Some u /\
    (forall c' u', In c' pre -> child_score t self c' = Some u' -> (u' < u)%R) /\
    (forall c' u', In c' post -> child_score t self c' = Some u' -> (u' <= u)%R).


End MCTS.

(** ** The toy Isolation board ([multiagent environments/solution.py]) *)

Module Toy.

Definition X_DIM : Z := 3.
Definition Y_DIM : Z := 2.

(** The eight movement directions possible *)
Definition DIRECTIONS : list (Z * Z) :=
  [(1, 0); (1, -1); (0, -1); (-1, -1); (-1, 0); (-1, 1); (0, 1); (1, 1)]%Z.

(** The attributes of a [GameState] object, as values. *)
Record GameState : Type := mkGameState {
  board : list (list Z);
  active_players_index : Z;
  player_locations : list (option (Z * Z))
}.

(** [GameState.__init__] *)
Definition init : GameState :=
  mkGameState [[0; 0]; [0; 0]; [0; 1]]%Z 0 [None; None].

(** [board[x][y]] for indices in range (every index the code uses is
    checked against [X_DIM] and [Y_DIM] first). *)
Definition cell (board : list (list Z)) (x y : Z) : Z :=
  nth (Z.to_nat y) (nth (Z.to_nat x) board []) 0%Z.

(** [range(n)] *)
Definition range (n : Z) : list Z := map Z.of_nat (seq 0 (Z.to_nat n)).

Definition in_bounds (x y : Z) : bool :=
  ((0 <=? x) && (x <? X_DIM) && (0 <=? y) && (y <? Y_DIM))%Z.

(** The [while] loop of [liberties] along one direction; the board is
    left after at most [fuel] steps. *)
Fixpoint ray (fuel : nat) (board : list (list Z)) (current_x current_y dx dy : Z)
  : list (Z * Z) :=
  match fuel with
  | O => []
  | S fuel' =>
      if in_bounds (current_x + dx) (current_y + dy) then
        let current_x := (current_x + dx)%Z in
        let current_y := (current_y + dy)%Z in
        if negb (cell board current_x current_y =? 0)%Z then []
        else (current_x, current_y) :: ray fuel' board current_x current_y dx dy
      else []
  end.

(** [GameState.liberties(loc)] *)
Definition liberties (self : GameState) (loc : option (Z * Z)) : list (Z * Z) :=
  match loc with
  | None =>
      flat_map (fun x =>
        flat_map (fun y =>
          if (cell (board self) x y =? 0)%Z then [(x, y)] else [])
          (range Y_DIM))
        (range X_DIM)
  | Some (x, y) =>
      flat_map (fun d => ray (Z.to_nat (X_DIM + Y_DIM)) (board self) x y (fst d) (snd d))
               DIRECTIONS
  end.

(** [self.player_locations[i]] *)
Definition location (self : GameState) (i : Z) : option (Z * Z) :=
  nth (Z.to_nat i) (player_locations self) None.

(** [GameState.actions()] *)
Definition actions (self : GameState) : list (Z * Z) :=
  liberties self (location self (active_players_index self)).

(** [GameState.player()] *)
Definition player (self : GameState) : Z := active_players_index self.

Definition is_empty {A : Type} (l : list A) : bool :=
  match l with [] => true | _ => false end.

(** [GameState.terminal_test()] *)
Definition terminal_test (self : GameState) : bool :=
  is_empty (liberties self (location self 0)) ||
  is_empty (liberties self (location self 1)).

Definition cell_eq_dec (a b : Z * Z) : {a = b} + {a <> b}.
Proof. decide equality; apply Z.eq_dec. Defined.

(** [action in self.actions()] *)
Definition legal (self : GameState) (action : Z * Z) : bool :=
  if in_dec cell_eq_dec action (actions self) then true else false.

(** [board[x][y] = v] *)
Definition set_cell (board : list (list Z)) (x y v : Z) : list (list Z) :=
  update board (Z.to_nat x) (update (nth (Z.to_nat x) board []) (Z.to_nat y) v).

(** The attributes of the object [GameState.result(action)] returns. *)
Definition result_value (self : GameState) (action : Z * Z) : GameState :=
  mkGameState
    (set_cell (board self) (fst action) (snd action) 1)
    (if (active_players_index self =? 0)%Z then 1 else 0)%Z
    (update (player_locations self) (Z.to_nat (active_players_index self))
            (Some action)).

(** [GameState.result(action)] on values: the assertion, then the
    attributes of the new object. *)
Definition result (self : GameState) (action : Z * Z) : outcome GameState :=
  if legal self action then Return (result_value self action)
  else Raise AssertionError.

(** States as [__init__] and [result] build them: a board of [X_DIM]
    rows of [Y_DIM] cells, two locations, player 0 or 1 to move. *)
Definition well_formed (self : GameState) : Prop :=
  length (board self) = 3%nat /\
  Forall (fun row => length row = 2%nat) (board self) /\
  length (player_locations self) = 2%nat /\
  (active_players_index self = 0%Z \/ active_players_index self = 1%Z).

End Toy.

(** ** [GameState] objects on the heap

    [result] works on a [deepcopy] of the receiver.  To say that the
    receiver is left alone, the objects are placed in a heap: a
    [GameState] object refers to its board, a list object of row
    objects, and to its list of locations.  Cells, player indices and
    locations (tuples) are immutable values. *)

Module ToyHeap.

Inductive pyobj : Type :=
| ORow (cells : list Z)
| OBoard (rows : list nat)
| OLocs (locations : list (option (Z * Z)))
| OState (board : nat) (active_players_index : Z) (player_locations : nat).

(** The heap: an address is a position. *)
Definition heap : Type := list pyobj.

Definition alloc (h : heap) (o : pyobj) : heap * nat := (h ++ [o], length h).

Definition read_row (h : heap) (a : nat) : option (list Z) :=
  match nth_error h a with
  | Some (ORow cells) => Some cells
  | _ => None
  end.

Fixpoint read_rows (h : heap) (rows : list nat) : option (list (list Z)) :=
  match rows with
  | [] => Some []
  | r :: rest =>
      match read_row h r, read_rows h rest with
      | Some cells, Some others => Some (cells :: others)
      | _, _ => None
      end
  end.

(** The attributes of the [GameState] object at [self], as values. *)
Definition snapshot (h : heap) (self : nat) : option Toy.GameState :=
  match nth_error h self with
  | Some (OState b act l) =>
      match nth_error h b, nth_error h l with
      | Some (OBoard rows), Some (OLocs locations) =>
          match read_rows h rows with
          | Some board => Some (Toy.mkGameState board act locations)
          | None => None
          end
      | _, _ => None
      end
  | _ => None
  end.


(** The copies [deepcopy] makes of the rows of a board. *)
Fixpoint copy_rows (h : heap) (rows : list nat) : option (heap * list nat) :=
  match rows with
  | [] => Some (h, [])
  | r :: rest =>
      match read_row h r with
      | Some cells =>
          let '(h1, r') := alloc h (ORow cells) in
          match copy_rows h1 rest with
          | Some (h2, rest') => Some (h2, r' :: rest')
          | None => None
          end
      | None => None
      end
  end.

(** [deepcopy(self)] for a [GameState] whose rows are distinct objects
    (as [__init__] and [deepcopy] itself make them): every list object
    reachable from [self] is copied, then the [GameState] object. *)
Definition deepcopy (h : heap) (self : nat) : option (heap * nat) :=
  match nth_error h self with
  | Some (OState b act l) =>
      match nth_error h b, nth_error h l with
      | Some (OBoard rows), Some (OLocs locations) =>
          match copy_rows h rows with
          | Some (h1, rows') =>
              let '(h2, b') := alloc h1 (OBoard rows') in
              let '(h3, l') := alloc h2 (OLocs locations) in
              Some (alloc h3 (OState b' act l'))
          | None => None
          end
      | _, _ => None
      end
  | _ => None
  end.

(** A Python index into a sequence of length [len]: negative indices
    count from the end, anything else out of range is an [IndexError]. *)
Definition py_index (len : nat) (i : Z) : option nat :=
  if ((0 <=? i) && (i <? Z.of_nat len))%Z then Some (Z.to_nat i)
  else if ((- Z.of_nat len <=? i) && (i <? 0))%Z then Some (Z.to_nat (Z.of_nat len + i))
  else None.

(** [nextGameState.board[x][y] = 1] *)
Definition store_cell (h : heap) (obj : nat) (x y : Z) : outcome heap :=
  match nth_error h obj with
  | Some (OState b _ _) =>
      match nth_error h b with
      | Some (OBoard rows) =>
          match py_index (length rows) x with
          | Some i =>
              match nth_error rows i with
              | Some r =>
                  match nth_error h r with
                  | Some (ORow cells) =>
                      match py_index (length cells) y with
                      | Some j => Return (update h r (ORow (update cells j 1%Z)))
                      | None => Raise IndexError
                      end
                  | _ => Raise AttributeError
                  end
              | None => Raise IndexError
              end
          | None => Raise IndexError
          end
      | _ => Raise AttributeError
      end
  | _ => Raise AttributeError
  end.

(** [nextGameState.player_locations[i] = action] *)
Definition store_location (h : heap) (obj : nat) (i : Z) (action : Z * Z)
  : outcome heap :=
  match nth_error h obj with
  | Some (OState _ _ l) =>
      match nth_error h l with
      | Some (OLocs locations) =>
          match py_index (length locations) i with
          | Some k => Return (update h l (OLocs (update locations k (Some action))))
          | None => Raise IndexError
          end
      | _ => Raise AttributeError
      end
  | _ => Raise AttributeError
  end.

(** [nextGameState.active_players_index = v] *)
Definition store_active (h : heap) (obj : nat) (v : Z) : outcome heap :=
  match nth_error h obj with
  | Some (OState b _ l) => Return (update h obj (OState b v l))
  | _ => Raise AttributeError
  end.

(** [GameState.result(action)]: the heap when the call ends, and the
    address of the object returned. *)
Definition result (h : heap) (self : nat) (action : Z * Z) : heap * outcome nat :=
  match snapshot h self with
  | None => (h, Raise AttributeError)
  | Some s =>
      if negb (Toy.legal s action) then (h, Raise AssertionError)
      else
        match deepcopy h self with
        | None => (h, Raise AttributeError)
        | Some (h1, nextGameState) =>
            match store_cell h1 nextGameState (fst action) (snd action) with
            | Return h2 =>
                match store_location h2 nextGameState
                                     (Toy.active_players_index s) action with
                | Return h3 =>
                    match store_active h3 nextGameState
                            (if (Toy.active_players_index s =? 0)%Z then 1 else 0)%Z with
                    | Return h4 => (h4, Return nextGameState)
                    | Raise e => (h3, Raise e)
                    | Diverge => (h3, Diverge)
                    end
                | Raise e => (h2, Raise e)
                | Diverge => (h2, Diverge)
                end
            | Raise e => (h1, Raise e)
            | Diverge => (h1, Diverge)
            end
        end
  end.

End ToyHeap.

(** ** The toy board as a game for the search player

    The player is written against the [isolation] package, which is not
    in the repository.  [IsoState] gives the toy board the rest of that
    interface: a ply counter and [utility]. *)

Record IsoState : Type := mkIsoState {
  gs : Toy.GameState;
  plies : Z
}.

(** Modelled from the spec: [utility(playerId)] of the game state
    capability (section 4.1), which the toy [GameState] lacks: in a
    terminal state plus infinity for the winner and minus infinity for
    the other player, the loser being the player to move if that player
    has no move, and the opponent otherwise.  Outside terminal states,
    where the spec leaves it undefined, it is 0. *)
Definition toy_utility (s : IsoState) (player_id : Z) : EZ :=
  if Toy.terminal_test (gs s) then
    let active_has_liberties := negb (Toy.is_empty (Toy.actions (gs s))) in
    let player_id_is_active := (player_id =? Toy.player (gs s))%Z in
    if Bool.eqb active_has_liberties player_id_is_active then PosInf else NegInf
  else Fin 0.

Definition toy_result (s : IsoState) (a : Z * Z) : IsoState :=
  match Toy.result (gs s) a with
  | Return g => mkIsoState g (plies s + 1)
  | _ => s
  end.

#[export] Instance ToyGame : Game := {|
  State := IsoState;
  Action := Z * Z;
  Loc := option (Z * Z);
  Action_eq_dec := Toy.cell_eq_dec;
  actions := fun s => Toy.actions (gs s);
  result := toy_result;
  terminal_test := fun s => Toy.terminal_test (gs s);
  utility := toy_utility;
  player := fun s => Toy.player (gs s);
  ply_count := plies;
  locs := fun s i => Toy.location (gs s) i;
  liberties := fun s loc => map Some (Toy.liberties (gs s) loc)
|}.

(** The number of open cells, which bounds the length of a play. *)
Definition toy_rank (s : IsoState) : nat :=
  length (Toy.liberties (gs s) None).

(** The state the toy game starts in. *)
Definition toy_start : IsoState := mkIsoState Toy.init 0.

(** The state after the given moves, oldest first. *)
Definition toy_play (moves : list (Z * Z)) : IsoState :=
  fold_left toy_result moves toy_start.

(** Three positions of the toy game.  [toy_two_plies]: both players
    placed, at (0,0) and (1,0), player 0 to move to (0,1) or (1,1).
    [toy_three_plies]: player 0 has moved to (0,1), player 1 to move to
    (2,0) or (1,1).  [toy_lost]: player 1 has moved to (1,1) and player
    0, to move, has no move left. *)
Definition toy_two_plies : IsoState := toy_play [(0, 0); (1, 0)]%Z.
Definition toy_three_plies : IsoState := toy_play [(0, 0); (1, 0); (0, 1)]%Z.
Definition toy_lost : IsoState := toy_play [(0, 0); (1, 0); (0, 1); (1, 1)]%Z.

Section AlphaBetaInvariant.
Context {G : Game}.

(** The frame keeps [alpha] equal to [best_score], and [best_score] is
    minus infinity as long as no move has been adopted. *)
Definition ab_inv (f : ab_frame) (mv : EZ) : Prop :=
  ab_alpha f = ab_best_score f /\ ab_best_score f = mv /\
  (ab_best_move f = None -> ab_best_score f = NegInf).

End AlphaBetaInvariant.

Section MCTSAuxiliary.
Context {G : Game}.

(** The node [expand] writes back and the node it creates. *)
Definition expanded (nd : Node) (open' : list Action) (child : nat) : Node :=
  mkNode (action nd) (parentNode nd) (gameState nd) (childNodes nd ++ [child])
         (qValue nd) (numberOfVisits nd) open'.

(** What the loop of [best_child] has established after the children
    [seen]: nothing yet, or the best of them with its score. *)
Definition best_so_far (t : Tree) (N : nat) (seen : list nat)
  (max_uct : option R) (best : option nat) : Prop :=
  (seen = [] /\ max_uct = None /\ best = None) \/
  (exists pre b bn post u,
     seen = pre ++ b :: post /\ best = Some b /\ max_uct = Some u /\
     nth_error t b = Some bn /\
     u = uct_score (qValue bn) (numberOfVisits bn) N /\
     (forall c' cn', In c' pre -> nth_error t c' = Some cn' ->
        (uct_score (qValue cn') (numberOfVisits cn') N < u)%R) /\
     (forall c' cn', In c' post -> nth_error t c' = Some cn' ->
        (uct_score (qValue cn') (numberOfVisits cn') N <= u)%R)).

End MCTSAuxiliary.

(** Fixtures for the Monte-Carlo tree search on the toy board: a random
    source that always yields 0, the tree after two passes of the loop
    from [toy_three_plies] (both actions of the root expanded and rolled
    out), and the tree after the third pass, which descends to node 1 and
    expands it. *)
Definition rnd0 : Rand := fun _ => O.

Definition toy_tree2 : @Tree ToyGame :=
  [ mkNode None None toy_three_plies [1; 2]%nat (-2) 2 [];
    mkNode (Some (2, 0)%Z) (Some O)
           (toy_play [(0, 0); (1, 0); (0, 1); (2, 0)]%Z) [] 1 1 [(1, 1)%Z];
    mkNode (Some (1, 1)%Z) (Some O) toy_lost [] 1 1 [] ].



(** ** The evaluation heuristics of [CustomPlayer]

    The helpers below read two things of the [isolation] package that
    the game interface above does not have: the attribute [board] of a
    state, an integer used as a bit board, and
    [DebugState.from_state(state).ind2xy(loc)], the coordinates of a
    board index.  Board indices are integers. *)

Definition _WIDTH : Z := 11.
Definition _HEIGHT : Z := 9.
Definition _CENTER : Z * Z := (5, 4)%Z.

(** [range(a, b)] *)
Definition py_range (a b : Z) : list Z :=
  map (fun k => (a + Z.of_nat k)%Z) (seq 0 (Z.to_nat (b - a))).

(** [CustomPlayer.xy_distance] *)
Definition xy_distance (position_1 position_2 : Z * Z) : Z :=
  (Z.abs (fst position_1 - fst position_2) +
   Z.abs (snd position_1 - snd position_2))%Z.

(** [CustomPlayer.check_if_field_is_empty] on the bit board [board]:
    [1 << position] raises [ValueError] for a negative [position], which
    the [except IndexError] does not catch. *)
Definition check_if_field_is_empty (position : Z) (board : Z) : outcome Z :=
  if (position <? 0)%Z then Raise ValueError
  else if (Z.land board (Z.shiftl 1 position) =? 0)%Z then Return 0%Z
  else Return 1%Z.

(** The inner [for y_modifier in ...] loop shared by the two counting
    heuristics; [guard] is the test [field_pos >= 0] of
    [empty_surrounding_fields_heuristic]. *)
Fixpoint count_column (guard : bool) (position board x_modifier : Z)
  (y_modifiers : list Z) (empty_fields : Z) : outcome Z :=
  match y_modifiers with
  | [] => Return empty_fields
  | y_modifier :: rest =>
      let modifier := (x_modifier + (_WIDTH + 2) * y_modifier)%Z in
      let field_pos := (position + modifier)%Z in
      if guard && negb (0 <=? field_pos)%Z
      then count_column guard position board x_modifier rest empty_fields
      else
        e <- check_if_field_is_empty field_pos board ;;
        count_column guard position board x_modifier rest (empty_fields + e)
  end.

(** The outer [for x_modifier in ...] loop. *)
Fixpoint count_fields (guard : bool) (position board : Z)
  (x_modifiers y_modifiers : list Z) (empty_fields : Z) : outcome Z :=
  match x_modifiers with
  | [] => Return empty_fields
  | x_modifier :: rest =>
      e <- count_column guard position board x_modifier y_modifiers empty_fields ;;
      count_fields guard position board rest y_modifiers e
  end.

(** [CustomPlayer.empty_surrounding_fields_heuristic]: the line it
    prints (the count and the position) and the count. *)
Definition empty_surrounding_fields_heuristic (position board : Z)
  : outcome ((Z * Z) * Z) :=
  empty_fields <- count_fields true position board
                    (py_range (-2) 3) (py_range (-2) 3) 0 ;;
  Return ((empty_fields, position), empty_fields).

(** [CustomPlayer.count_empty_fields] *)
Definition count_empty_fields (position board : Z) (xy_modifiers : Z * Z)
  : outcome Z :=
  count_fields false position board
               (py_range 0 (fst xy_modifiers)) (py_range 0 (snd xy_modifiers)) 0.

(** [CustomPlayer.count_modifiers_for_q1] to [_q4] *)
Definition count_modifiers_for_q1 (xy_position : Z * Z) : Z * Z :=
  (_WIDTH - fst xy_position, _HEIGHT - snd xy_position)%Z.

Definition count_modifiers_for_q2 (xy_position : Z * Z) : Z * Z :=
  (fst xy_position + 1, _HEIGHT - snd xy_position)%Z.

Definition count_modifiers_for_q3 (xy_position : Z * Z) : Z * Z :=
  (fst xy_position + 1, snd xy_position + 1)%Z.

Definition count_modifiers_for_q4 (xy_position : Z * Z) : Z * Z :=
  (_WIDTH - fst xy_position + 1, snd xy_position + 1)%Z.

(** Coordinates of a field of the board. *)
Definition on_board (xy : Z * Z) : Prop :=
  (0 <= fst xy < _WIDTH /\ 0 <= snd xy < _HEIGHT)%Z.

(** The fields a counting loop looks at, in order: whether the bit of
    [position + x + 13 y] is set, for a field index that is not
    negative. *)
Definition field_set (position board x y : Z) : bool :=
  ((0 <=? position + (x + (_WIDTH + 2) * y)) &&
   Z.testbit board (position + (x + (_WIDTH + 2) * y)))%Z.

Definition count_true (l : list bool) : Z :=
  Z.of_nat (length (filter (fun b => b) l)).

Section Heuristics.
Context {G : Game}.

(** [self.player_id] *)
Variable player_id : Z.

(** A location as a board index, and
    [DebugState.from_state(game_state).ind2xy(position)]. *)
Variable index_of : Loc -> Z.
Variable ind2xy : State -> Z -> Z * Z.

(** [game_state.board] *)
Variable board_of : State -> Z.

(** [CustomPlayer.center_field_heuristic] *)
Definition center_field_heuristic (position : Z) (game_state : State) : Z :=
  let xy_position := ind2xy game_state position in
  xy_distance xy_position _CENTER.

(** The distance both distance heuristics compute first. *)
Definition opponent_distance (game_state : State) : Z :=
  let own_loc := index_of (locs game_state player_id) in
  let opp_loc := index_of (locs game_state (1 - player_id)%Z) in
  let own_xy_position := ind2xy game_state own_loc in
  let opp_xy_position := ind2xy game_state opp_loc in
  xy_distance own_xy_position opp_xy_position.

(** [CustomPlayer.minimize_distance_to_opponent_heuristic] *)
Definition minimize_distance_to_opponent_heuristic (game_state : State) : Z :=
  (9 - opponent_distance game_state)%Z.

(** [CustomPlayer.maximize_distance_to_opponent_heuristic] *)
Definition maximize_distance_to_opponent_heuristic (game_state : State) : Z :=
  (opponent_distance game_state - 9)%Z.

(** [CustomPlayer.biggest_quadrant_heuristic] *)
Definition biggest_quadrant_heuristic (position : Z) (game_state : State)
  : outcome Z :=
  let xy_position := ind2xy game_state position in
  let board := board_of game_state in
  q1 <- count_empty_fields position board (count_modifiers_for_q1 xy_position) ;;
  q2 <- count_empty_fields position board (count_modifiers_for_q2 xy_position) ;;
  q3 <- count_empty_fields position board (count_modifiers_for_q3 xy_position) ;;
  q4 <- count_empty_fields position board (count_modifiers_for_q4 xy_position) ;;
  Return (Z.max (Z.max (Z.max q1 q2) q3) q4 - 40)%Z.

End Heuristics.

(** ** Notions used to state further properties *)

Section SearchNotions.
Context {G : Game}.

(** The value plain minimax gives the action [a] of the root. *)
Definition root_value (player_id : Z) (s : State) (depth : Z) (a : Action) : EZ :=
  minimax_min_value player_id (result s a) (depth - 1).

(** [a] is the first element of [acts] with the greatest value. *)
Definition first_maximal {A : Type} (m : A -> EZ) (acts : list A) (a : A) : Prop :=
  exists pre post, acts = pre ++ a :: post /\
    (forall b, In b pre -> EZ_lt (m b) (m a)) /\
    (forall b, In b post -> EZ_le (m b) (m a)).

(** The items put on [self.queue], in order. *)
Fixpoint queue_puts (events : list (@event G)) : list (option Action) :=
  match events with
  | [] => []
  | QueuePut a :: rest => a :: queue_puts rest
  | _ :: rest => queue_puts rest
  end.

End SearchNotions.

Section TreeNotions.
Context {G : Game}.

(** The nodes [backpropagate] walks through from [self] up to the
    root, [self] first. *)
Fixpoint chain (fuel : nat) (t : Tree) (self : nat) : list nat :=
  match fuel with
  | O => []
  | S fuel' =>
      match nth_error t self with
      | None => []
      | Some nd =>
          self :: match parentNode nd with
                  | Some parent => chain fuel' t parent
                  | None => []
                  end
      end
  end.

(** The position of [i] in a list of nodes. *)
Fixpoint position_of (i : nat) (l : list nat) : option nat :=
  match l with
  | [] => None
  | j :: rest =>
      if (i =? j)%nat then Some O else option_map S (position_of i rest)
  end.

(** [result] after its sign has been flipped [k] times. *)
Fixpoint flipped (k : nat) (result : Z) : Z :=
  match k with
  | O => result
  | S k' => flipped k' (- result)
  end.

(** No cumulative value exceeds the visits of its node in absolute
    value. *)
Definition q_bounded (t : Tree) : Prop :=
  forall i nd, nth_error t i = Some nd ->
    (Z.abs (qValue nd) <= Z.of_nat (numberOfVisits nd))%Z.

End TreeNotions.

(** A move of a queen from [(x0, y0)] to [(x, y)] on [board]: some
    number of steps in one of the eight directions, every cell passed
    and the cell reached being on the board and open. *)
Definition queen_move (board : list (list Z)) (x0 y0 x y : Z) : Prop :=
  exists d k, In d Toy.DIRECTIONS /\ (1 <= k)%nat /\
    x = (x0 + Z.of_nat k * fst d)%Z /\ y = (y0 + Z.of_nat k * snd d)%Z /\
    forall j, (1 <= j <= k)%nat ->
      Toy.in_bounds (x0 + Z.of_nat j * fst d) (y0 + Z.of_nat j * snd d) = true /\
      Toy.cell board (x0 + Z.of_nat j * fst d) (y0 + Z.of_nat j * snd d) = 0%Z.

(** [g.result(a1).result(a2)...] for the given moves. *)
Fixpoint results (g : Toy.GameState) (moves : list (Z * Z)) : outcome Toy.GameState :=
  match moves with
  | [] => Return g
  | a :: rest => g' <- Toy.result g a ;; results g' rest
  end.

(** The tree [traverse] leaves when it is first called on the root of
    a search from [toy_three_plies]: the root's first action expanded,
    nothing visited yet. *)
Definition toy_tree_expanded : @Tree ToyGame :=
  [ mkNode None None toy_three_plies [1%nat] 0 0 [(1, 1)%Z];
    Node_init (result toy_three_plies (2, 0)%Z) (Some (2, 0)%Z) (Some O) ].

(** [DebugState.ind2xy] of the [isolation] package, whose rows are
    [_WIDTH + 2] indices apart. *)
Definition iso_ind2xy (ind : Z) : Z * Z :=
  (ind mod (_WIDTH + 2), ind / (_WIDTH + 2))%Z.

(* ================================================================== *)
(** * Part II: theorems                                                *)
(* ================================================================== *)

(** ** The order on extended integers *)

Lemma EZ_ltb_irrefl a : EZ_ltb a a = false.
Proof. destruct a; simpl; auto. apply Z.ltb_irrefl. Qed.

Lemma EZ_lt_trans a b c : EZ_lt a b -> EZ_lt b c -> EZ_lt a c.
Proof.
  unfold EZ_lt. destruct a, b, c; simpl; try congruence.
  rewrite !Z.ltb_lt. lia.
Qed.

Lemma EZ_lt_total a b : EZ_lt a b \/ a = b \/ EZ_lt b a.
Proof.
  unfold EZ_lt. destruct a as [|x|], b as [|y|]; simpl; auto.
  rewrite !Z.ltb_lt.
  destruct (Z.lt_trichotomy x y) as [H|[H|H]]; auto.
  right; left; congruence.
Qed.

Lemma EZ_le_lteq a b : EZ_le a b <-> EZ_lt a b \/ a = b.
Proof.
  unfold EZ_le, EZ_lt. split.
  - intros H. destruct (EZ_lt_total a b) as [H1|[H1|H1]]; auto.
    unfold EZ_lt in H1. congruence.
  - intros [H| ->]; [|apply EZ_ltb_irrefl].
    destruct (EZ_ltb b a) eqn:E; auto.
    pose proof (EZ_lt_trans _ _ _ H E) as C. unfold EZ_lt in C.
    rewrite EZ_ltb_irrefl in C. discriminate.
Qed.

Module EZ_order <: TotalOrder.
Definition t := EZ.
Definition eq := @Logic.eq EZ.
Definition lt := EZ_lt.
Definition le := EZ_le.
Definition eq_equiv : Equivalence eq := eq_equivalence.
Lemma lt_strorder : StrictOrder lt.
Proof.
  split.
  - intros a H. unfold lt, EZ_lt in H. rewrite EZ_ltb_irrefl in H. discriminate.
  - intros a b c. apply EZ_lt_trans.
Qed.
Lemma lt_compat : Proper (eq ==> eq ==> iff) lt.
Proof. intros a b -> c d ->. reflexivity. Qed.
Lemma le_lteq : forall x y, le x y <-> lt x y \/ eq x y.
Proof. apply EZ_le_lteq. Qed.
Lemma lt_total : forall x y, lt x y \/ eq x y \/ lt y x.
Proof. apply EZ_lt_total. Qed.
End EZ_order.

Module EZ_tac := MakeOrderTac EZ_order EZ_order.

Lemma EZ_le_PosInf a : EZ_le a PosInf.
Proof. unfold EZ_le. reflexivity. Qed.

Lemma EZ_not_lt_PosInf a : EZ_ltb a PosInf = false -> a = PosInf.
Proof. destruct a; simpl; congruence. Qed.

Lemma EZ_NegInf_le a : EZ_le NegInf a.
Proof. unfold EZ_le. destruct a; reflexivity. Qed.

Lemma EZ_ltb_true a b : EZ_ltb a b = true -> EZ_order.lt a b.
Proof. auto. Qed.

Lemma EZ_ltb_false a b : EZ_ltb a b = false -> EZ_order.le b a.
Proof. auto. Qed.

Lemma emax_spec v x :
  (EZ_ltb v x = true /\ emax v x = x) \/ (EZ_ltb v x = false /\ emax v x = v).
Proof. unfold emax. destruct (EZ_ltb v x); auto. Qed.

Lemma emin_spec v x :
  (EZ_ltb x v = true /\ emin v x = x) \/ (EZ_ltb x v = false /\ emin v x = v).
Proof. unfold emin. destruct (EZ_ltb x v); auto. Qed.

(** Case analysis on every [max] and [min] in sight, then the decision
    procedure for total orders. *)
Ltac ez_split_one :=
  match goal with
  | |- context [emax ?a ?b] =>
      let E := fresh "E" in
      destruct (emax_spec a b) as [[? E]|[? E]]; rewrite ?E in *; clear E
  | |- context [emin ?a ?b] =>
      let E := fresh "E" in
      destruct (emin_spec a b) as [[? E]|[? E]]; rewrite ?E in *; clear E
  | H : context [emax ?a ?b] |- _ =>
      let E := fresh "E" in
      destruct (emax_spec a b) as [[? E]|[? E]]; rewrite ?E in *; clear E
  | H : context [emin ?a ?b] |- _ =>
      let E := fresh "E" in
      destruct (emin_spec a b) as [[? E]|[? E]]; rewrite ?E in *; clear E
  end.

Ltac ez_order :=
  unfold EZ_lt, EZ_le in *;
  repeat match goal with
         | H : EZ_ltb _ _ = true |- _ => apply EZ_ltb_true in H
         | H : EZ_ltb _ _ = false |- _ => apply EZ_ltb_false in H
         end;
  match goal with
  | |- EZ_ltb ?a ?b = true => change (EZ_order.lt a b)
  | |- EZ_ltb ?a ?b = false => change (EZ_order.le b a)
  | |- _ => idtac
  end;
  EZ_tac.order.

Ltac ez :=
  unfold EZ_leb in *;
  rewrite ?negb_true_iff, ?negb_false_iff in *;
  repeat ez_split_one;
  ez_order.

Lemma emax_comm_value a b : EZ_le a (emax a b) /\ EZ_le b (emax a b).
Proof. split; ez. Qed.

(** ** Alpha-beta pruning does not change the value *)

Section AlphaBetaFacts.
Context {G : Game}.
Variable player_id : Z.

Lemma ab_ok_refl r alpha beta : ab_ok r r alpha beta.
Proof. split; intros _; ez. Qed.

Lemma max_loop_ge child s acts : forall v alpha beta,
  EZ_le v (max_loop child s acts v alpha beta).
Proof.
  induction acts as [|a rest IH]; intros v alpha beta; simpl.
  - ez.
  - destruct (EZ_leb beta (emax v (child (result s a) alpha beta))).
    + ez.
    + specialize (IH (emax v (child (result s a) alpha beta))
                     (emax alpha (emax v (child (result s a) alpha beta))) beta).
      pose proof (emax_comm_value v (child (result s a) alpha beta)) as [H1 _].
      ez.
Qed.

Lemma minimax_max_loop_ge child s acts : forall v,
  EZ_le v (minimax_max_loop child s acts v).
Proof.
  induction acts as [|a rest IH]; intros v; simpl.
  - ez.
  - specialize (IH (emax v (child (result s a)))).
    pose proof (emax_comm_value v (child (result s a))) as [H1 _].
    ez.
Qed.

Lemma min_loop_le child s acts : forall v alpha beta,
  EZ_le (min_loop child s acts v alpha beta) v.
Proof.
  induction acts as [|a rest IH]; intros v alpha beta; simpl.
  - ez.
  - destruct (EZ_leb (emin v (child (result s a) alpha beta)) alpha).
    + ez.
    + specialize (IH (emin v (child (result s a) alpha beta)) alpha
                     (emin beta (emin v (child (result s a) alpha beta)))).
      assert (EZ_le (emin v (child (result s a) alpha beta)) v) by ez.
      ez.
Qed.

Lemma minimax_min_loop_le child s acts : forall v,
  EZ_le (minimax_min_loop child s acts v) v.
Proof.
  induction acts as [|a rest IH]; intros v; simpl.
  - ez.
  - specialize (IH (emin v (child (result s a)))).
    assert (EZ_le (emin v (child (result s a))) v) by ez.
    ez.
Qed.

Lemma max_loop_ok child mchild s :
  (forall s' alpha beta, ab_ok (child s' alpha beta) (mchild s') alpha beta) ->
  forall acts v mv alpha beta,
    EZ_le mv v -> EZ_le v alpha ->
    ab_ok (max_loop child s acts v alpha beta)
          (minimax_max_loop mchild s acts mv) alpha beta.
Proof.
  intros Hchild. induction acts as [|a rest IH]; intros v mv alpha beta Hmv Hva.
  - simpl. split; intros; ez.
  - simpl.
    destruct (Hchild (result s a) alpha beta) as [HU HL].
    set (ra := child (result s a) alpha beta) in *.
    set (ma := mchild (result s a)) in *.
    pose proof (minimax_max_loop_ge mchild s rest (emax mv ma)) as Hm.
    destruct (EZ_leb beta (emax v ra)) eqn:Hcut.
    + split; intros H.
      * ez.
      * assert (EZ_le ra ma) by (apply HL; ez).
        ez.
    + assert (Hra : EZ_lt ra beta) by ez.
      specialize (HU Hra).
      assert (Hpre1 : EZ_le (emax mv ma) (emax v ra)) by ez.
      assert (Hpre2 : EZ_le (emax v ra) (emax alpha (emax v ra))) by ez.
      destruct (IH (emax v ra) (emax mv ma) (emax alpha (emax v ra)) beta
                   Hpre1 Hpre2) as [IHU IHL].
      pose proof (max_loop_ge child s rest (emax v ra)
                              (emax alpha (emax v ra)) beta) as Hr.
      set (r := max_loop child s rest (emax v ra) (emax alpha (emax v ra)) beta) in *.
      set (m := minimax_max_loop mchild s rest (emax mv ma)) in *.
      split; intros H.
      * apply IHU. exact H.
      * destruct (EZ_ltb (emax alpha (emax v ra)) r) eqn:E.
        -- apply IHL. exact E.
        -- assert (EZ_lt alpha ra) by ez.
           specialize (HL H0). ez.
Qed.

Lemma min_loop_ok child mchild s :
  (forall s' alpha beta, ab_ok (child s' alpha beta) (mchild s') alpha beta) ->
  forall acts v mv alpha beta,
    EZ_le v mv -> EZ_le beta v ->
    ab_ok (min_loop child s acts v alpha beta)
          (minimax_min_loop mchild s acts mv) alpha beta.
Proof.
  intros Hchild. induction acts as [|a rest IH]; intros v mv alpha beta Hmv Hvb.
  - simpl. split; intros; ez.
  - simpl.
    destruct (Hchild (result s a) alpha beta) as [HU HL].
    set (ra := child (result s a) alpha beta) in *.
    set (ma := mchild (result s a)) in *.
    pose proof (minimax_min_loop_le mchild s rest (emin mv ma)) as Hm.
    destruct (EZ_leb (emin v ra) alpha) eqn:Hcut.
    + split; intros H.
      * assert (EZ_le ma ra) by (apply HU; ez).
        ez.
      * ez.
    + assert (Hra : EZ_lt alpha ra) by ez.
      specialize (HL Hra).
      assert (Hpre1 : EZ_le (emin v ra) (emin mv ma)) by ez.
      assert (Hpre2 : EZ_le (emin beta (emin v ra)) (emin v ra)) by ez.
      destruct (IH (emin v ra) (emin mv ma) alpha (emin beta (emin v ra))
                   Hpre1 Hpre2) as [IHU IHL].
      pose proof (min_loop_le child s rest (emin v ra) alpha
                              (emin beta (emin v ra))) as Hr.
      set (r := min_loop child s rest (emin v ra) alpha (emin beta (emin v ra))) in *.
      set (m := minimax_min_loop mchild s rest (emin mv ma)) in *.
      split; intros H.
      * destruct (EZ_ltb r (emin beta (emin v ra))) eqn:E.
        -- apply IHU. exact E.
        -- assert (EZ_lt ra beta) by ez.
           specialize (HU H0). ez.
      * apply IHL. exact H.
Qed.

Lemma alpha_beta_window_sound : forall n s alpha beta,
  ab_ok (min_value_n player_id n s alpha beta) (minimax_min_n player_id n s) alpha beta /\
  ab_ok (max_value_n player_id n s alpha beta) (minimax_max_n player_id n s) alpha beta.
Proof.
  induction n as [|n IH]; intros s alpha beta; simpl;
    destruct (terminal_test s); try (split; apply ab_ok_refl).
  split.
  - apply min_loop_ok.
    + intros s' a b. apply (IH s' a b).
    + ez.
    + apply EZ_le_PosInf.
  - apply max_loop_ok.
    + intros s' a b. apply (IH s' a b).
    + ez.
    + apply EZ_NegInf_le.
Qed.

End AlphaBetaFacts.

(** ** The driver [alpha_beta_search] *)

Section AlphaBetaDriver.
Context {G : Game}.
Variable player_id : Z.

Lemma min_value_unfold s alpha beta depth :
  min_value player_id s alpha beta depth =
  if terminal_test s then utility s player_id
  else if (depth <=? 0)%Z then score player_id s
  else min_loop (fun s' a b => max_value player_id s' a b (depth - 1))
                s (actions s) PosInf alpha beta.
Proof.
  unfold min_value, max_value.
  destruct (Z.leb_spec depth 0) as [H|H].
  - replace (Z.to_nat depth) with O by lia. simpl. reflexivity.
  - replace (Z.to_nat depth) with (S (Z.to_nat (depth - 1))) by lia.
    simpl. reflexivity.
Qed.

Lemma max_value_unfold s alpha beta depth :
  max_value player_id s alpha beta depth =
  if terminal_test s then utility s player_id
  else if (depth <=? 0)%Z then score player_id s
  else max_loop (fun s' a b => min_value player_id s' a b (depth - 1))
                s (actions s) NegInf alpha beta.
Proof.
  unfold min_value, max_value.
  destruct (Z.leb_spec depth 0) as [H|H].
  - replace (Z.to_nat depth) with O by lia. simpl. reflexivity.
  - replace (Z.to_nat depth) with (S (Z.to_nat (depth - 1))) by lia.
    simpl. reflexivity.
Qed.

Lemma ab_step_best_move s depth f a :
  ab_best_move (ab_step player_id s depth f a) = Some a \/
  (ab_best_move (ab_step player_id s depth f a) = ab_best_move f /\
   ab_best_move f <> None).
Proof.
  unfold ab_step.
  destruct (EZ_ltb _ _); simpl; auto.
  destruct (ab_best_move f) eqn:E; simpl; auto.
  right. split; [reflexivity | congruence].
Qed.

Lemma ab_fold_best_move s depth acts : forall f,
  (exists a, ab_best_move (fold_left (ab_step player_id s depth) acts f) = Some a /\ In a acts) \/
  (ab_best_move (fold_left (ab_step player_id s depth) acts f) = ab_best_move f /\
   (acts = [] \/ ab_best_move f <> None)).
Proof.
  induction acts as [|a rest IH]; intros f; simpl.
  - right. auto.
  - destruct (IH (ab_step player_id s depth f a)) as [[b [Hb Hin]]|[Heq Hor]].
    + left. exists b. auto.
    + destruct (ab_step_best_move s depth f a) as [Hs|[Hs Hne]].
      * left. exists a. split; [congruence | auto].
      * right. split; [congruence | auto].
Qed.

Lemma ab_step_inv s depth f mv a :
  ab_inv f mv ->
  ab_inv (ab_step player_id s depth f a)
         (emax mv (minimax_min_value player_id (result s a) (depth - 1))).
Proof.
  intros (Ha & Hb & Hn).
  unfold ab_step, min_value, minimax_min_value.
  destruct (alpha_beta_window_sound player_id (Z.to_nat (depth - 1))
              (result s a) (ab_alpha f) PosInf) as [[HU HL] _].
  set (v := min_value_n player_id (Z.to_nat (depth - 1)) (result s a)
                        (ab_alpha f) PosInf) in *.
  set (m := minimax_min_n player_id (Z.to_nat (depth - 1)) (result s a)) in *.
  pose proof (EZ_le_PosInf m) as Hm. pose proof (EZ_le_PosInf v) as Hv.
  pose proof (EZ_NegInf_le v) as Hv'.
  rewrite Ha in *. rewrite Hb in *.
  destruct (EZ_ltb mv v) eqn:E1.
  - assert (EZ_le v m) by (apply HL; exact E1).
    assert (v = m).
    { destruct (EZ_ltb v PosInf) eqn:E2.
      - specialize (HU E2). ez.
      - apply EZ_not_lt_PosInf in E2. ez. }
    subst m. unfold ab_inv; simpl. repeat split; try congruence.
    + ez.
    + ez.
  - assert (Hmv : EZ_le m mv).
    { destruct (EZ_ltb v PosInf) eqn:E2.
      - specialize (HU E2). ez.
      - apply EZ_not_lt_PosInf in E2. ez. }
    destruct (ab_best_move f) eqn:E3; unfold ab_inv; simpl.
    + repeat split; try congruence; ez.
    + specialize (Hn eq_refl). subst mv.
      repeat split; try congruence; ez.
Qed.

Lemma ab_fold_inv s depth acts : forall f mv,
  ab_inv f mv ->
  ab_inv (fold_left (ab_step player_id s depth) acts f)
         (minimax_max_loop (fun s' => minimax_min_value player_id s' (depth - 1))
                           s acts mv).
Proof.
  induction acts as [|a rest IH]; intros f mv H; simpl.
  - exact H.
  - apply IH. apply ab_step_inv. exact H.
Qed.

Lemma ab_trace_step s depth f a :
  exists b, ab_trace (ab_step player_id s depth f a) = ab_trace f ++ [b] /\
            (b = TookElif <->
             ab_best_move f = None /\
             EZ_ltb (ab_best_score f)
                    (min_value player_id (result s a) (ab_alpha f) PosInf (depth - 1))
             = false).
Proof.
  unfold ab_step.
  destruct (EZ_ltb _ _) eqn:E; simpl.
  - exists TookIf. split; auto. split; [discriminate | intros [_ H]; discriminate].
  - destruct (ab_best_move f) eqn:E2; simpl.
    + exists TookNeither. split; auto.
      split; [discriminate | intros [H _]; discriminate].
    + exists TookElif. split; auto. split; auto.
Qed.

Lemma ab_trace_fold s depth acts : forall f,
  ab_best_move f <> None ->
  exists tr, ab_trace (fold_left (ab_step player_id s depth) acts f) = ab_trace f ++ tr /\
             ~ In TookElif tr.
Proof.
  induction acts as [|a rest IH]; intros f Hf; simpl.
  - exists []. rewrite app_nil_r. auto.
  - destruct (ab_trace_step s depth f a) as [b [Hb Hiff]].
    assert (Hne : ab_best_move (ab_step player_id s depth f a) <> None).
    { destruct (ab_step_best_move s depth f a) as [H|[H H']]; congruence. }
    destruct (IH _ Hne) as [tr [Htr Hnot]].
    exists (b :: tr). split.
    + rewrite Htr, Hb, <- app_assoc. reflexivity.
    + intros [H|H]; [|contradiction].
      subst b. destruct Hiff as [Hiff _]. destruct (Hiff eq_refl). contradiction.
Qed.

End AlphaBetaDriver.

Section AlphaBetaClaims.
Context {G : Game}.
Variable player_id : Z.

Lemma ab_init_inv : ab_inv (@ab_init G) NegInf.
Proof. unfold ab_inv, ab_init; simpl. auto. Qed.

Lemma ab_trace_length s depth acts : forall f,
  length (ab_trace (fold_left (ab_step player_id s depth) acts f)) =
  (length (ab_trace f) + length acts)%nat.
Proof.
  induction acts as [|a rest IH]; intros f; simpl.
  - lia.
  - rewrite IH. destruct (ab_trace_step player_id s depth f a) as [b [Hb _]].
    rewrite Hb, length_app. simpl. lia.
Qed.

Lemma ab_root_value (s : State) (depth : Z) :
  ab_best_score (ab_run player_id s depth) = minimax_search_value player_id s depth.
Proof.
  destruct (ab_fold_inv player_id s depth (actions s) _ _ ab_init_inv) as (_ & H & _).
  exact H.
Qed.

(** C3, as amended. For a state that is not terminal and every depth
    from 1 on, the best score [alpha_beta_search] ends with is the value
    of plain depth-limited minimax (no window, no early return) on the
    same state at the same depth.  At a depth of 0 or less the searcher
    still looks one ply ahead: its best score is the greatest, over the
    state's actions, of the utility of the child if it is terminal and of
    its heuristic score otherwise, where plain minimax at that depth is
    the heuristic score of the state itself. *)
Theorem alpha_beta_root_value_is_minimax (s : State) (depth : Z) :
  terminal_test s = false ->
  ((0 < depth)%Z ->
   ab_best_score (ab_run player_id s depth) = minimax_max_value player_id s depth) /\
  ((depth <= 0)%Z ->
   ab_best_score (ab_run player_id s depth) =
   minimax_max_loop
     (fun s' => if terminal_test s' then utility s' player_id else score player_id s')
     s (actions s) NegInf /\
   minimax_max_value player_id s depth = score player_id s).
Proof.
  intros Hnt. split; intros Hd; rewrite ab_root_value.
  - unfold minimax_search_value, minimax_max_value, minimax_min_value.
    replace (Z.to_nat depth) with (S (Z.to_nat (depth - 1))) by lia.
    simpl. rewrite Hnt. reflexivity.
  - unfold minimax_search_value, minimax_max_value, minimax_min_value.
    replace (Z.to_nat (depth - 1)) with O by lia.
    replace (Z.to_nat depth) with O by lia.
    split; [reflexivity|]. simpl. rewrite Hnt. reflexivity.
Qed.

(** C10. On a state with at least one action [alpha_beta_search]
    returns one of the state's actions, never [None]; the first action
    examined is adopted whatever its value. *)
Theorem alpha_beta_search_returns_legal_move (s : State) (depth : Z) :
  actions s <> [] ->
  (exists a, alpha_beta_search player_id s depth = Some a /\ In a (actions s)) /\
  (forall a, ab_best_move (ab_step player_id s depth ab_init a) = Some a).
Proof.
  intros Hne. split.
  - unfold alpha_beta_search, ab_run.
    destruct (ab_fold_best_move player_id s depth (actions s) ab_init)
      as [H|[_ [H|H]]].
    + exact H.
    + contradiction.
    + simpl in H. congruence.
  - intros a. destruct (ab_step_best_move player_id s depth ab_init a) as [H|[_ H]].
    + exact H.
    + simpl in H. congruence.
Qed.

(** C4, as amended. The [elif best_move is None] arm is taken on the
    first pass of the loop exactly when the first action's value is minus
    infinity, and on no later pass. *)
Theorem elif_branch_only_on_first_pass (s : State) (depth : Z) :
  length (ab_trace (ab_run player_id s depth)) = length (actions s) /\
  (forall i, nth_error (ab_trace (ab_run player_id s depth)) (S i) <> Some TookElif) /\
  (nth_error (ab_trace (ab_run player_id s depth)) 0 = Some TookElif <->
   exists a rest, actions s = a :: rest /\
     min_value player_id (result s a) NegInf PosInf (depth - 1) = NegInf).
Proof.
  split; [|split].
  - unfold ab_run. rewrite ab_trace_length. reflexivity.
  - intros i. unfold ab_run. destruct (actions s) as [|a rest]; simpl.
    + discriminate.
    + destruct (ab_trace_step player_id s depth ab_init a) as [b [Hb _]].
      assert (Hne : ab_best_move (ab_step player_id s depth ab_init a) <> None).
      { destruct (ab_step_best_move player_id s depth ab_init a) as [H|[_ H]];
          [congruence | simpl in H; congruence]. }
      destruct (ab_trace_fold player_id s depth rest _ Hne) as [tr [Htr Hnot]].
      rewrite Htr, Hb. simpl. intros H. apply Hnot.
      apply nth_error_In with i. exact H.
  - unfold ab_run. destruct (actions s) as [|a rest]; simpl.
    + split; [discriminate | intros (a & rest & H & _); discriminate].
    + destruct (ab_trace_step player_id s depth ab_init a) as [b [Hb Hiff]].
      assert (Hne : ab_best_move (ab_step player_id s depth ab_init a) <> None).
      { destruct (ab_step_best_move player_id s depth ab_init a) as [H|[_ H]];
          [congruence | simpl in H; congruence]. }
      destruct (ab_trace_fold player_id s depth rest _ Hne) as [tr [Htr _]].
      rewrite Htr, Hb. simpl. simpl in Hiff.
      split.
      * intros H. injection H as H. apply Hiff in H. destruct H as [_ H].
        exists a, rest. split; [reflexivity|].
        destruct (min_value player_id (result s a) NegInf PosInf (depth - 1));
          simpl in H; congruence.
      * intros (a' & rest' & Heq & Hv). injection Heq as <- <-.
        f_equal. apply Hiff. split; [reflexivity|]. rewrite Hv. reflexivity.
Qed.

(** C9, as amended. [get_action] never consults [terminal_test]: it
    branches on [ply_count] alone.  When two plies or more have been
    played it hands the state, terminal or not, to [alpha_beta_search]
    at depth 5, puts what the search returns on the queue and returns;
    nothing else happens.  Before that it invokes no searcher: it puts
    the action a random draw selects among the state's actions on the
    queue and returns, or, when the state has no action, raises
    [IndexError] with nothing put.  It never invokes the Monte-Carlo
    tree search. *)
Theorem get_action_delegates_on_ply_count (rnd : Rand) (state s' : State) (d : Z) :
  (In (CallAlphaBeta s' d) (fst (get_action player_id rnd state)) <->
   (2 <= ply_count state)%Z /\ s' = state /\ d = _SEARCH_DEPTH) /\
  ~ In (CallMCTS s') (fst (get_action player_id rnd state)) /\
  ((2 <= ply_count state)%Z ->
   get_action player_id rnd state =
   ([CallAlphaBeta state _SEARCH_DEPTH;
     QueuePut (alpha_beta_search player_id state _SEARCH_DEPTH)], Return tt)) /\
  ((ply_count state < 2)%Z ->
   (actions state = [] -> get_action player_id rnd state = ([], Raise IndexError)) /\
   (actions state <> [] ->
    exists a,
      nth_error (actions state) (rnd O mod length (actions state)) = Some a /\
      get_action player_id rnd state = ([QueuePut (Some a)], Return tt))).
Proof.
  unfold get_action.
  destruct (Z.ltb_spec (ply_count state) 2) as [H|H].
  - split; [|split; [|split]].
    + destruct (random_choice rnd 0 (actions state)) as [[a c]|e|]; simpl;
        (split; [intros Hin | intros (H' & _); lia]);
        repeat (destruct Hin as [Hin|Hin]; [discriminate|]); destruct Hin.
    + destruct (random_choice rnd 0 (actions state)) as [[a c]|e|]; simpl;
        intros Hin;
        repeat (destruct Hin as [Hin|Hin]; [discriminate|]); destruct Hin.
    + intros H'. lia.
    + intros _. unfold random_choice. split.
      * intros ->. cbn [length]. destruct (rnd O mod 0)%nat; reflexivity.
      * intros Hne.
        destruct (nth_error (actions state) (rnd O mod length (actions state)))
          as [a|] eqn:E.
        -- exists a. split; reflexivity.
        -- exfalso. apply nth_error_None in E.
           assert (length (actions state) <> 0)%nat
             by (destruct (actions state); simpl; congruence).
           pose proof (Nat.mod_upper_bound (rnd O) (length (actions state)) H0). lia.
  - split; [|split; [|split]].
    + simpl. split.
      * intros [E|[E|[]]]; [|discriminate]. injection E as <- <-. auto.
      * intros (_ & -> & ->). left. reflexivity.
    + simpl. intros [E|[E|[]]]; discriminate.
    + intros _. reflexivity.
    + intros H'. lia.
Qed.

End AlphaBetaClaims.

(** ** The claims on the toy board *)

Lemma alpha_beta_root_value_is_minimax_witness :
  ((0 < 5)%Z ->
   ab_best_score (ab_run 0 toy_two_plies 5) = minimax_max_value 0 toy_two_plies 5) /\
  ((5 <= 0)%Z ->
   ab_best_score (ab_run 0 toy_two_plies 5) =
   minimax_max_loop
     (fun s' => if terminal_test s' then utility s' 0%Z else score 0 s')
     toy_two_plies (actions toy_two_plies) NegInf /\
   minimax_max_value 0 toy_two_plies 5 = score 0 toy_two_plies).
Proof.
  apply (@alpha_beta_root_value_is_minimax ToyGame 0 toy_two_plies 5).
  reflexivity.
Defined.

(** C3, as stated, fails at depth 0: [toy_two_plies] is not terminal;
    plain minimax at depth 0 is the score of the state itself, 2 - 3 = -1
    for player 0, while [alpha_beta_search] evaluates the two children,
    which score -1 and 0, and ends with the best score 0. *)
Lemma alpha_beta_root_value_differs_at_depth_zero :
  terminal_test toy_two_plies = false /\
  ab_best_score (ab_run 0 toy_two_plies 0) = Fin 0 /\
  minimax_max_value 0 toy_two_plies 0 = Fin (-1).
Proof. repeat split; reflexivity. Qed.

Lemma alpha_beta_search_returns_legal_move_witness :
  (exists a, alpha_beta_search 0 toy_two_plies 5 = Some a /\
             In a (actions toy_two_plies)) /\
  (forall a, ab_best_move (ab_step 0 toy_two_plies 5 ab_init a) = Some a).
Proof.
  apply (@alpha_beta_search_returns_legal_move ToyGame 0 toy_two_plies 5).
  discriminate.
Defined.

(** C4, as stated, fails: with player 0 searching [toy_two_plies] the
    first action, (0,1), loses against best play; its value is minus
    infinity, [v > best_score] is false and the [elif] arm is taken. *)
Lemma elif_branch_taken :
  actions toy_two_plies = [(0, 1); (1, 1)]%Z /\
  min_value 0 (result toy_two_plies (0, 1)%Z) NegInf PosInf (5 - 1) = NegInf /\
  ab_trace (ab_run 0 toy_two_plies 5) = [TookElif; TookIf] /\
  alpha_beta_search 0 toy_two_plies 5 = Some (1, 1)%Z.
Proof. repeat split; reflexivity. Qed.

(** C9, as stated, fails: [toy_lost] is terminal, four plies have been
    played, and [get_action] invokes [alpha_beta_search] on it. *)
Lemma get_action_searches_terminal_state :
  terminal_test toy_lost = true /\
  get_action 0 (fun _ => O) toy_lost =
  ([CallAlphaBeta toy_lost 5; QueuePut None], Return tt).
Proof. split; reflexivity. Qed.

(** ** Lists as arrays *)

Lemma length_update {A : Type} (l : list A) : forall i x,
  length (update l i x) = length l.
Proof.
  induction l as [|y l IH]; intros [|i] x; simpl; auto.
Qed.

Lemma nth_error_update_eq {A : Type} (l : list A) : forall i x,
  (i < length l)%nat -> nth_error (update l i x) i = Some x.
Proof.
  induction l as [|y l IH]; intros [|i] x H; simpl in *; try lia; auto.
  apply IH. lia.
Qed.

Lemma nth_error_update_ne {A : Type} (l : list A) : forall i j x,
  i <> j -> nth_error (update l i x) j = nth_error l j.
Proof.
  induction l as [|y l IH]; intros [|i] [|j] x H; simpl; auto;
    congruence.
Qed.

Lemma nth_error_lt {A : Type} (l : list A) i x :
  nth_error l i = Some x -> (i < length l)%nat.
Proof. intros H. apply nth_error_Some. congruence. Qed.

Lemma nth_error_snoc {A : Type} (l : list A) (y : A) i :
  nth_error (l ++ [y]) i =
  if (i =? length l)%nat then Some y else nth_error l i.
Proof.
  destruct (Nat.eqb_spec i (length l)) as [->|Hne].
  - rewrite nth_error_app2 by lia. rewrite Nat.sub_diag. reflexivity.
  - destruct (Nat.lt_ge_cases i (length l)) as [Hlt|Hge].
    + apply nth_error_app1. exact Hlt.
    + rewrite nth_error_app2 by lia.
      destruct (i - length l)%nat as [|k] eqn:E; [lia|].
      simpl. destruct k; simpl.
      * symmetry. apply nth_error_None. lia.
      * symmetry. apply nth_error_None. lia.
Qed.

Lemma random_choice_spec {A : Type} (rnd : Rand) (c : nat) (seq : list A) x c' :
  random_choice rnd c seq = Return (x, c') -> In x seq /\ c' = S c.
Proof.
  unfold random_choice.
  destruct (nth_error seq (rnd c mod length seq)) eqn:E; [|discriminate].
  intros H. injection H as <- <-. split; [|reflexivity].
  apply nth_error_In with (rnd c mod length seq)%nat. exact E.
Qed.

Lemma random_choice_total {A : Type} (rnd : Rand) (c : nat) (seq : list A) :
  seq <> [] -> exists x, random_choice rnd c seq = Return (x, S c).
Proof.
  intros Hne. unfold random_choice.
  destruct (nth_error seq (rnd c mod length seq)) eqn:E.
  - eauto.
  - exfalso. apply nth_error_None in E.
    assert (length seq <> 0)%nat by (destruct seq; simpl; congruence).
    pose proof (Nat.mod_upper_bound (rnd c) (length seq) H). lia.
Qed.

(** ** The rollout *)

Section RolloutFacts.
Context {G : Game} {L : GameLaws G}.

Lemma rollout_loop_spec (rnd : Rand) : forall fuel c s final c',
  valid s ->
  rollout_loop fuel rnd c s = Return (final, c') ->
  terminal_test final = true /\ (c <= c')%nat /\
  (1 - player final)%Z =
  (if Nat.even (c' - c) then (1 - player s)%Z else player s).
Proof.
  induction fuel as [|fuel IH]; intros c s final c' Hv H; simpl in H;
    unfold non_terminal in H; destruct (terminal_test s) eqn:Ht; simpl in H;
    try discriminate.
  - injection H as <- <-. rewrite Nat.sub_diag. simpl. auto.
  - injection H as <- <-. rewrite Nat.sub_diag. simpl. auto.
  - destruct (random_choice rnd c (actions s)) as [[a c1]|e|] eqn:Hc;
      simpl in H; try discriminate.
    apply random_choice_spec in Hc. destruct Hc as [Hin ->].
    apply IH in H; [|apply valid_result; assumption].
    destruct H as (Hterm & Hle & Hpl).
    split; [exact Hterm|]. split; [lia|].
    rewrite Hpl. rewrite (player_toggles s a Hv Ht Hin).
    replace (c' - c)%nat with (S (c' - S c)) by lia.
    rewrite Nat.even_succ, <- Nat.negb_even.
    destruct (Nat.even (c' - S c)); cbn [negb]; lia.
Qed.

Lemma rollout_loop_total (rnd : Rand) : forall fuel c s,
  valid s -> (rank s <= fuel)%nat ->
  exists final c', rollout_loop fuel rnd c s = Return (final, c').
Proof.
  induction fuel as [|fuel IH]; intros c s Hv Hr; simpl;
    unfold non_terminal; destruct (terminal_test s) eqn:Ht; simpl; eauto.
  - exfalso.
    destruct (actions s) as [|a rest] eqn:Ha.
    + exact (nonterminal_has_actions s Hv Ht Ha).
    + assert (Hin : In a (actions s)) by (rewrite Ha; left; reflexivity).
      pose proof (rank_decreases s a Hv Ht Hin). lia.
  - destruct (random_choice_total rnd c _ (nonterminal_has_actions s Hv Ht))
      as [a Ha].
    rewrite Ha. simpl.
    pose proof (random_choice_spec _ _ _ _ _ Ha) as [Hin _].
    apply IH.
    + apply valid_result; assumption.
    + pose proof (rank_decreases s a Hv Ht Hin). lia.
Qed.

Lemma Node_result_cases (s : State) :
  (Node_result s = 1%Z <-> utility s (1 - player s) = PosInf) /\
  (Node_result s = (-1)%Z <-> utility s (1 - player s) = NegInf) /\
  (Node_result s = 0%Z <->
   utility s (1 - player s) <> PosInf /\ utility s (1 - player s) <> NegInf).
Proof.
  unfold Node_result, is_a_win, is_a_loss, EZ_eqb.
  destruct (EZ_eq_dec (utility s (1 - player s)) PosInf) as [E|E].
  - rewrite E. repeat split; try congruence; try discriminate.
    intros [H _]. congruence.
  - destruct (EZ_eq_dec (utility s (1 - player s)) NegInf) as [E'|E'].
    + rewrite E'. repeat split; try congruence; try discriminate.
      intros [_ H]. congruence.
    + repeat split; try congruence; try discriminate; auto.
Qed.

(** C1, as amended. When the simulation from a leaf reaches a terminal
    state, the outcome is +1 exactly when the player who is not to move
    in that terminal state has utility plus infinity there, -1 exactly
    when that player has utility minus infinity, and 0 otherwise.  That
    player is the leaf's mover when the simulation played an odd number
    of moves, and the leaf mover's opponent when it played an even
    number (none, for a terminal leaf). *)
Theorem rollout_outcome_is_relative_to_terminal_state
  (fuel : nat) (rnd : Rand) (c : nat) (t : Tree) (self : nat) (nd : Node)
  (r : Z) (c' : nat) :
  nth_error t self = Some nd ->
  valid (gameState nd) ->
  rollout fuel rnd c t self = Return (r, c') ->
  exists final,
    rollout_loop fuel rnd c (gameState nd) = Return (final, c') /\
    terminal_test final = true /\
    (r = 1%Z <-> utility final (1 - player final) = PosInf) /\
    (r = (-1)%Z <-> utility final (1 - player final) = NegInf) /\
    (r = 0%Z <-> utility final (1 - player final) <> PosInf /\
                 utility final (1 - player final) <> NegInf) /\
    (1 - player final)%Z =
    (if Nat.even (c' - c) then (1 - player (gameState nd))%Z
     else player (gameState nd)).
Proof.
  intros Hnd Hv H. unfold rollout, deref in H. rewrite Hnd in H. simpl in H.
  destruct (rollout_loop fuel rnd c (gameState nd)) as [[final c1]|e|] eqn:Hl;
    simpl in H; try discriminate.
  injection H as <- <-.
  exists final. split; [reflexivity|].
  destruct (rollout_loop_spec _ _ _ _ _ _ Hv Hl) as (Ht & _ & Hp).
  destruct (Node_result_cases final) as (H1 & H2 & H3).
  auto 10.
Qed.

End RolloutFacts.

(** ** Backpropagation *)

Section BackpropFacts.
Context {G : Game}.

Lemma same_static_refl (nd : Node) : same_static nd nd.
Proof. unfold same_static. auto. Qed.

Lemma same_static_trans (a b c : Node) :
  same_static a b -> same_static b c -> same_static a c.
Proof.
  unfold same_static. intros (A1 & A2 & A3 & A4 & A5) (B1 & B2 & B3 & B4 & B5).
  repeat split; congruence.
Qed.

Lemma same_static_visit (nd : Node) r : same_static nd (visit nd r).
Proof. unfold same_static, visit. simpl. auto. Qed.

Lemma tree_le_refl (t : Tree) : tree_le t t.
Proof.
  split; [reflexivity|]. intros j nd H. exists nd.
  split; [exact H|]. split; [apply same_static_refl | lia].
Qed.

Lemma tree_le_trans (t1 t2 t3 : Tree) :
  tree_le t1 t2 -> tree_le t2 t3 -> tree_le t1 t3.
Proof.
  intros [L1 H1] [L2 H2]. split; [congruence|].
  intros j nd Hj. destruct (H1 j nd Hj) as (nd2 & Hj2 & S2 & V2).
  destruct (H2 j nd2 Hj2) as (nd3 & Hj3 & S3 & V3).
  exists nd3. split; [exact Hj3|]. split; [|lia].
  eapply same_static_trans; eassumption.
Qed.

Lemma tree_le_update (t : Tree) i nd r :
  nth_error t i = Some nd -> tree_le t (update t i (visit nd r)).
Proof.
  intros Hi. split; [apply length_update|].
  intros j ndj Hj. destruct (Nat.eq_dec i j) as [<-|Hne].
  - rewrite nth_error_update_eq by (eapply nth_error_lt; eassumption).
    exists (visit nd r). split; [reflexivity|].
    assert (ndj = nd) by congruence. subst ndj.
    split; [apply same_static_visit | simpl; lia].
  - rewrite nth_error_update_ne by assumption.
    exists ndj. split; [exact Hj|]. split; [apply same_static_refl | lia].
Qed.

Lemma tree_le_inv (t t' : Tree) j nd' :
  tree_le t t' -> nth_error t' j = Some nd' ->
  exists nd, nth_error t j = Some nd /\ same_static nd nd' /\
             (numberOfVisits nd <= numberOfVisits nd')%nat.
Proof.
  intros [Hl H] Hj.
  destruct (nth_error t j) as [nd|] eqn:E.
  - destruct (H j nd E) as (nd2 & Hj2 & S2 & V2).
    assert (nd2 = nd') by congruence. subst nd2. eauto.
  - apply nth_error_None in E. apply nth_error_lt in Hj. lia.
Qed.

Lemma backpropagate_le : forall fuel (t : Tree) i r t',
  backpropagate fuel t i r = Return t' -> tree_le t t'.
Proof.
  induction fuel as [|fuel IH]; intros t i r t' H; simpl in H; [discriminate|].
  unfold deref in H. destruct (nth_error t i) as [nd|] eqn:Hi; simpl in H;
    [|discriminate].
  fold (visit nd r) in H.
  pose proof (tree_le_update t i nd r Hi) as Hu.
  destruct (parentNode nd) as [p|].
  - apply IH in H. eapply tree_le_trans; eassumption.
  - injection H as <-. exact Hu.
Qed.

Lemma backpropagate_leaf : forall fuel (t : Tree) i r t',
  backpropagate fuel t i r = Return t' ->
  exists nd', nth_error t' i = Some nd' /\ (1 <= numberOfVisits nd')%nat.
Proof.
  intros [|fuel] t i r t' H; simpl in H; [discriminate|].
  unfold deref in H. destruct (nth_error t i) as [nd|] eqn:Hi; simpl in H;
    [|discriminate].
  fold (visit nd r) in H.
  assert (Hv : nth_error (update t i (visit nd r)) i = Some (visit nd r)).
  { apply nth_error_update_eq. eapply nth_error_lt; eassumption. }
  destruct (parentNode nd) as [p|].
  - apply backpropagate_le in H. destruct H as [_ H].
    destruct (H i _ Hv) as (nd' & Hn & _ & Hle).
    exists nd'. split; [exact Hn|]. simpl in Hle. lia.
  - injection H as <-. exists (visit nd r). split; [exact Hv | simpl; lia].
Qed.

Lemma parents_ok_le (t t' : Tree) :
  tree_le t t' -> parents_ok t -> parents_ok t'.
Proof.
  intros Hle Hp j nd' Hj.
  destruct (tree_le_inv _ _ _ _ Hle Hj) as (nd & Hn & (_ & Hpar & _) & _).
  specialize (Hp j nd Hn). rewrite Hpar.
  destruct (parentNode nd) as [p|]; [|exact Hp].
  destruct Hp as [Hlt [pn Hpn]]. split; [exact Hlt|].
  destruct Hle as [_ Hle]. destruct (Hle p pn Hpn) as (pn' & Hpn' & _).
  eauto.
Qed.

Lemma children_ok_le (t t' : Tree) :
  tree_le t t' -> children_ok t -> children_ok t'.
Proof.
  intros Hle Hc i nd' ch Hi Hin.
  destruct (tree_le_inv _ _ _ _ Hle Hi) as (nd & Hn & (_ & _ & Hgs & Hch & _) & _).
  rewrite Hch in Hin.
  destruct (Hc i nd ch Hn Hin) as (cn & a & Hcn & Hpar & Hact & Hina & Hres).
  destruct Hle as [_ Hle].
  destruct (Hle ch cn Hcn) as (cn' & Hcn' & (Sa & Sp & Sg & _) & _).
  exists cn', a. rewrite Hgs. repeat split; congruence.
Qed.

Lemma open_ok_le (t t' : Tree) :
  tree_le t t' -> open_ok t -> open_ok t'.
Proof.
  intros Hle Ho i nd' Hi.
  destruct (tree_le_inv _ _ _ _ Hle Hi) as (nd & Hn & (_ & _ & Hgs & Hch & Hop) & _).
  rewrite Hgs, Hch, Hop. apply (Ho i nd Hn).
Qed.

Lemma tree_shape_le (t t' : Tree) :
  tree_le t t' -> tree_shape t -> tree_shape t'.
Proof.
  intros Hle ([r Hr] & Hp & Hc & Ho).
  split; [|split; [|split]].
  - destruct Hle as [_ Hle]. destruct (Hle 0%nat r Hr) as (r' & Hr' & _). eauto.
  - eapply parents_ok_le; eassumption.
  - eapply children_ok_le; eassumption.
  - eapply open_ok_le; eassumption.
Qed.

Lemma backpropagate_visits : forall fuel (t : Tree) i r t',
  parents_ok t -> visits_ok_but t i ->
  backpropagate fuel t i r = Return t' -> visits_ok t'.
Proof.
  induction fuel as [|fuel IH]; intros t i r t' Hp Hv H; simpl in H;
    [discriminate|].
  unfold deref in H. destruct (nth_error t i) as [nd|] eqn:Hi; simpl in H;
    [|discriminate].
  fold (visit nd r) in H.
  assert (Hilt : (i < length t)%nat) by (eapply nth_error_lt; eassumption).
  pose proof (Hp i nd Hi) as Hpi.
  destruct (parentNode nd) as [p|] eqn:Hpar.
  - destruct Hpi as [Hlt _].
    apply IH in H; [exact H | |].
    + eapply parents_ok_le; [apply tree_le_update; eassumption | exact Hp].
    + intros x ndx px pnx Hx Hparx Hpx.
      destruct (Nat.eq_dec i x) as [<-|Hxi].
      * rewrite nth_error_update_eq in Hx by assumption.
        injection Hx as <-. simpl in Hparx.
        assert (px = p) by congruence. subst px.
        rewrite nth_error_update_ne in Hpx by lia.
        rewrite Nat.eqb_refl. simpl.
        pose proof (Hv i nd p pnx Hi Hpar Hpx) as Hle.
        destruct (Nat.eqb_spec p i); lia.
      * rewrite nth_error_update_ne in Hx by assumption.
        destruct (Nat.eq_dec i px) as [<-|Hpxi].
        -- rewrite nth_error_update_eq in Hpx by assumption.
           injection Hpx as <-. simpl.
           pose proof (Hv x ndx i nd Hx Hparx Hi) as Hle.
           rewrite Nat.eqb_refl in Hle. lia.
        -- rewrite nth_error_update_ne in Hpx by assumption.
           pose proof (Hv x ndx px pnx Hx Hparx Hpx) as Hle.
           destruct (Nat.eqb_spec px i); [congruence|]. lia.
  - injection H as <-.
    intros x ndx px pnx Hx Hparx Hpx.
    destruct (Nat.eq_dec i x) as [<-|Hxi].
    + rewrite nth_error_update_eq in Hx by assumption.
      injection Hx as <-. simpl in Hparx. congruence.
    + rewrite nth_error_update_ne in Hx by assumption.
      destruct (Nat.eq_dec i px) as [<-|Hpxi].
      * rewrite nth_error_update_eq in Hpx by assumption.
        injection Hpx as <-. simpl.
        pose proof (Hv x ndx i nd Hx Hparx Hi) as Hle.
        rewrite Nat.eqb_refl in Hle. lia.
      * rewrite nth_error_update_ne in Hpx by assumption.
        pose proof (Hv x ndx px pnx Hx Hparx Hpx) as Hle.
        destruct (Nat.eqb_spec px i); [congruence|]. lia.
Qed.

Lemma backpropagate_root : forall fuel (t : Tree) i r t' n,
  parents_ok t -> root_visits t n ->
  backpropagate fuel t i r = Return t' -> root_visits t' (S n).
Proof.
  induction fuel as [|fuel IH]; intros t i r t' n Hp Hr H; simpl in H;
    [discriminate|].
  unfold deref in H. destruct (nth_error t i) as [nd|] eqn:Hi; simpl in H;
    [|discriminate].
  fold (visit nd r) in H.
  assert (Hilt : (i < length t)%nat) by (eapply nth_error_lt; eassumption).
  pose proof (Hp i nd Hi) as Hpi.
  destruct (parentNode nd) as [p|] eqn:Hpar.
  - destruct Hpi as [Hlt _].
    apply IH with (n := n) in H; [exact H | |].
    + eapply parents_ok_le; [apply tree_le_update; eassumption | exact Hp].
    + destruct Hr as (rt & Hrt & Hn). exists rt.
      rewrite nth_error_update_ne by lia. auto.
  - subst i. injection H as <-.
    destruct Hr as (rt & Hrt & Hn).
    assert (rt = nd) by congruence. subst rt.
    exists (visit nd r). rewrite nth_error_update_eq by assumption.
    split; [reflexivity | simpl; lia].
Qed.

Lemma backpropagate_total : forall fuel (t : Tree) i r,
  parents_ok t -> (i < length t)%nat -> (i < fuel)%nat ->
  exists t', backpropagate fuel t i r = Return t'.
Proof.
  induction fuel as [|fuel IH]; intros t i r Hp Hi Hf; [lia|].
  simpl. unfold deref.
  destruct (nth_error t i) as [nd|] eqn:Hn.
  - simpl. fold (visit nd r).
    pose proof (Hp i nd Hn) as Hpi.
    destruct (parentNode nd) as [p|]; [|eauto].
    destruct Hpi as [Hlt _].
    apply IH.
    + eapply parents_ok_le; [apply tree_le_update; eassumption | exact Hp].
    + rewrite length_update. lia.
    + lia.
  - apply nth_error_None in Hn. lia.
Qed.

(** The last step of a pass of the loop. *)
Lemma backpropagate_ok (t : Tree) leaf r t' n :
  tree_mid t leaf n ->
  backpropagate (length t) t leaf r = Return t' ->
  tree_ok t' (S n) /\ tree_le t t'.
Proof.
  intros (Hs & Hv & Hvis & Hr & Hlt) H.
  pose proof (backpropagate_le _ _ _ _ _ H) as Hle.
  destruct Hs as (Hroot & Hp & Hc & Ho).
  split; [|exact Hle].
  split; [|split; [|split]].
  - eapply tree_shape_le; [exact Hle|]. unfold tree_shape. auto.
  - eapply backpropagate_visits; [exact Hp | | exact H].
    intros x ndx px pnx Hx Hparx Hpx.
    pose proof (Hv x ndx px pnx Hx Hparx Hpx). lia.
  - intros j nd' Hj Hj0 _.
    destruct (Nat.eq_dec j leaf) as [->|Hne].
    + destruct (backpropagate_leaf _ _ _ _ _ H) as (nd2 & Hn2 & Hge).
      assert (nd2 = nd') by congruence. subst. exact Hge.
    + destruct (tree_le_inv _ _ _ _ Hle Hj) as (nd & Hn & _ & Hle').
      pose proof (Hvis j nd Hn Hj0 Hne). lia.
  - eapply backpropagate_root; eassumption.
Qed.

End BackpropFacts.

(** ** Expansion *)

Section ExpandFacts.
Context {G : Game}.

Lemma list_remove_spec (x : Action) : forall l l',
  list_remove x l = Return l' ->
  length l = S (length l') /\ incl l' l.
Proof.
  induction l as [|y l IH]; intros l' H; simpl in H; [discriminate|].
  destruct (Action_eq_dec x y) as [_|_].
  - injection H as <-. split; [reflexivity|]. apply incl_tl, incl_refl.
  - destruct (list_remove x l) as [r| |] eqn:E; simpl in H; try discriminate.
    injection H as <-. destruct (IH r eq_refl) as [Hl Hi].
    split; [simpl; lia|].
    intros z [<-|Hz]; [left; reflexivity | right; apply Hi; exact Hz].
Qed.

Lemma list_remove_total (x : Action) : forall l,
  In x l -> exists l', list_remove x l = Return l'.
Proof.
  induction l as [|y l IH]; intros H; simpl in *; [contradiction|].
  destruct (Action_eq_dec x y) as [_|Hne]; [eauto|].
  destruct H as [H|H]; [congruence|].
  destruct (IH H) as [l' Hl']. rewrite Hl'. simpl. eauto.
Qed.

Lemma expand_spec (rnd : Rand) c (t : Tree) self t1 leaf c1 :
  expand rnd c t self = Return (t1, leaf, c1) ->
  exists nd move open',
    nth_error t self = Some nd /\ In move (openActions nd) /\
    length (openActions nd) = S (length open') /\
    incl open' (openActions nd) /\ leaf = length t /\ c1 = S c /\
    t1 = update t self (expanded nd open' (length t)) ++
         [Node_init (result (gameState nd) move) (Some move) (Some self)].
Proof.
  unfold expand, deref. intros H.
  destruct (nth_error t self) as [nd|] eqn:Hn; simpl in H; [|discriminate].
  destruct (random_choice rnd c (openActions nd)) as [[move c']| |] eqn:Hc;
    simpl in H; try discriminate.
  destruct (list_remove move (openActions nd)) as [open'| |] eqn:Hr;
    simpl in H; try discriminate.
  injection H as <- <- <-.
  apply random_choice_spec in Hc. destruct Hc as [Hin ->].
  apply list_remove_spec in Hr. destruct Hr as [Hl Hi].
  exists nd, move, open'. unfold expanded. auto 10.
Qed.

Lemma expand_total (rnd : Rand) c (t : Tree) self nd :
  nth_error t self = Some nd -> openActions nd <> [] ->
  exists t1 leaf, expand rnd c t self = Return (t1, leaf, S c).
Proof.
  intros Hn Ho. unfold expand, deref. rewrite Hn. simpl.
  destruct (random_choice_total rnd c _ Ho) as [move Hm].
  rewrite Hm. simpl.
  apply random_choice_spec in Hm. destruct Hm as [Hin _].
  destruct (list_remove_total move _ Hin) as [open' Hr].
  rewrite Hr. simpl. eauto.
Qed.

Lemma nth_error_expand (t : Tree) self x y j :
  (self < length t)%nat ->
  nth_error (update t self x ++ [y]) j =
  if (j =? length t)%nat then Some y
  else if (j =? self)%nat then Some x else nth_error t j.
Proof.
  intros Hs. rewrite nth_error_snoc, length_update.
  destruct (Nat.eqb_spec j (length t)); [reflexivity|].
  destruct (Nat.eqb_spec j self) as [->|Hne].
  - apply nth_error_update_eq. exact Hs.
  - apply nth_error_update_ne. congruence.
Qed.

(** Case analysis on a node of the tree after an expansion. *)
Lemma expand_lookup (t : Tree) self x y j ndj :
  (self < length t)%nat ->
  nth_error (update t self x ++ [y]) j = Some ndj ->
  (j = length t /\ ndj = y) \/
  (j = self /\ ndj = x /\ j <> length t) \/
  (j <> self /\ j <> length t /\ nth_error t j = Some ndj).
Proof.
  intros Hs. rewrite nth_error_expand by exact Hs.
  destruct (Nat.eqb_spec j (length t)) as [->|Hl].
  - intros H. injection H as <-. auto.
  - destruct (Nat.eqb_spec j self) as [->|Hne].
    + intros H. injection H as <-. auto.
    + intros H. auto.
Qed.

End ExpandFacts.

Section ExpandInvariant.
Context {G : Game}.

Ltac lookup H Hs :=
  apply (expand_lookup _ _ _ _ _ _ Hs) in H;
  destruct H as [[? ?]|[(? & ? & ?)|(? & ? & H)]]; subst.

Lemma expand_mid (rnd : Rand) c (t : Tree) self nd t1 leaf c1 n :
  tree_ok t n ->
  nth_error t self = Some nd ->
  terminal_test (gameState nd) = false ->
  expand rnd c t self = Return (t1, leaf, c1) ->
  tree_mid t1 leaf n.
Proof.
  intros (((r & Hr) & Hp & Hc & Ho) & Hv & Hvis & (r' & Hr' & Hn)) Hnd Hterm H.
  apply expand_spec in H.
  destruct H as (nd0 & move & open' & Hnd0 & Hin & Hlen & Hincl & -> & -> & ->).
  assert (nd0 = nd) by congruence. subst nd0.
  assert (Hs : (self < length t)%nat) by (eapply nth_error_lt; eassumption).
  assert (r' = r) by congruence. subst r'.
  set (x := expanded nd open' (length t)).
  set (y := Node_init (result (gameState nd) move) (Some move) (Some self)).
  assert (Hold : forall p pn, nth_error t p = Some pn ->
            exists pn', nth_error (update t self x ++ [y]) p = Some pn' /\
                        action pn' = action pn /\ parentNode pn' = parentNode pn /\
                        gameState pn' = gameState pn /\
                        numberOfVisits pn' = numberOfVisits pn).
  { intros p pn Hpn. rewrite nth_error_expand by exact Hs.
    pose proof (nth_error_lt _ _ _ Hpn) as Hplt.
    destruct (Nat.eqb_spec p (length t)); [lia|].
    destruct (Nat.eqb_spec p self) as [->|Hne].
    - assert (pn = nd) by congruence. subst pn.
      exists x. unfold x, expanded. simpl. auto.
    - exists pn. auto. }
  unfold tree_mid, tree_shape.
  split; [split; [|split; [|split]] | split; [|split; [|split]]].
  - destruct (Hold _ _ Hr) as (pn' & Hpn' & _). eauto.
  - (* parents_ok *)
    intros j ndj Hj. lookup Hj Hs.
    + simpl. split; [exact Hs|].
      destruct (Hold _ _ Hnd) as (pn' & Hpn' & _). eauto.
    + change (parentNode x) with (parentNode nd).
      pose proof (Hp _ _ Hnd) as Hpp.
      destruct (parentNode nd) as [p|]; [|exact Hpp].
      destruct Hpp as [Hlt [pn Hpn]]. split; [exact Hlt|].
      destruct (Hold _ _ Hpn) as (pn' & Hpn' & _). eauto.
    + pose proof (Hp _ _ Hj) as Hpp.
      destruct (parentNode ndj) as [p|]; [|exact Hpp].
      destruct Hpp as [Hlt [pn Hpn]]. split; [exact Hlt|].
      destruct (Hold _ _ Hpn) as (pn' & Hpn' & _). eauto.
  - (* children_ok *)
    intros i ndi ch Hi Hch. lookup Hi Hs.
    + simpl in Hch. contradiction.
    + change (gameState x) with (gameState nd).
      change (childNodes x) with (childNodes nd ++ [length t]) in Hch.
      apply in_app_or in Hch. destruct Hch as [Hch|[<-|[]]].
      * destruct (Hc _ _ _ Hnd Hch) as (cn & a & Hcn & Hpar & Hact & Hina & Hres).
        destruct (Hold _ _ Hcn) as (cn' & Hcn' & Ha' & Hp' & Hg' & _).
        exists cn', a. repeat split; congruence.
      * exists y, move. rewrite nth_error_expand by exact Hs.
        rewrite Nat.eqb_refl. unfold y. simpl.
        repeat split; try reflexivity.
        destruct (Ho _ _ Hnd) as (_ & Hi' & _). apply Hi'. exact Hin.
    + destruct (Hc _ _ _ Hi Hch) as (cn & a & Hcn & Hpar & Hact & Hina & Hres).
      destruct (Hold _ _ Hcn) as (cn' & Hcn' & Ha' & Hp' & Hg' & _).
      exists cn', a. repeat split; congruence.
  - (* open_ok *)
    intros i ndi Hi. lookup Hi Hs.
    + unfold y. simpl. split; [reflexivity|]. split; [apply incl_refl|].
      intros Hne. congruence.
    + destruct (Ho _ _ Hnd) as (Hcount & Hi' & _).
      unfold x, expanded. simpl. rewrite length_app. simpl.
      split; [lia|]. split; [|intros _; exact Hterm].
      intros z Hz. apply Hi', Hincl. exact Hz.
    + apply (Ho _ _ Hi).
  - (* visits_ok *)
    intros i ndi p pn Hi Hpar Hpn. lookup Hi Hs.
    + simpl. lia.
    + change (parentNode x) with (parentNode nd) in Hpar.
      change (numberOfVisits x) with (numberOfVisits nd).
      pose proof (Hp _ _ Hnd) as Hpp. rewrite Hpar in Hpp.
      destruct Hpp as [Hlt _].
      lookup Hpn Hs; try lia.
      eapply Hv; eassumption.
    + pose proof (Hp _ _ Hi) as Hpp. rewrite Hpar in Hpp.
      destruct Hpp as [Hlt _].
      pose proof (nth_error_lt _ _ _ Hi) as Hilt.
      lookup Hpn Hs; try lia.
      * change (numberOfVisits x) with (numberOfVisits nd).
        eapply Hv; eassumption.
      * eapply Hv; eassumption.
  - (* visited_but *)
    intros j ndj Hj Hj0 Hjl. lookup Hj Hs.
    + congruence.
    + change (numberOfVisits x) with (numberOfVisits nd).
      apply (Hvis _ _ Hnd); assumption.
    + apply (Hvis _ _ Hj); assumption.
  - (* root_visits *)
    destruct (Hold _ _ Hr) as (pn' & Hpn' & _ & _ & _ & Hvv).
    exists pn'. split; [exact Hpn' | congruence].
  - rewrite length_app, length_update. simpl. lia.
Qed.

Lemma expand_states {L : GameLaws G} (rnd : Rand) c (t : Tree) self nd t1 leaf c1 s0 :
  tree_shape t -> states_ok s0 t ->
  nth_error t self = Some nd ->
  terminal_test (gameState nd) = false ->
  expand rnd c t self = Return (t1, leaf, c1) ->
  states_ok s0 t1.
Proof.
  intros (_ & Hp & Hc & Ho) ((r & Hr & Hr0) & Hst) Hnd Hterm H.
  apply expand_spec in H.
  destruct H as (nd0 & move & open' & Hnd0 & Hin & Hlen & Hincl & -> & -> & ->).
  assert (nd0 = nd) by congruence. subst nd0.
  assert (Hs : (self < length t)%nat) by (eapply nth_error_lt; eassumption).
  split.
  - rewrite nth_error_expand by exact Hs.
    destruct (Nat.eqb_spec 0 (length t)); [lia|].
    destruct (Nat.eqb_spec 0 self) as [<-|Hne].
    + eexists. split; [reflexivity|]. simpl. congruence.
    + eauto.
  - intros j ndj Hj.
    destruct (Hst _ _ Hnd) as [Hvnd Hrnd].
    destruct (Ho _ _ Hnd) as (_ & Hi' & _).
    apply (expand_lookup _ _ _ _ _ _ Hs) in Hj.
    destruct Hj as [[-> ->]|[(-> & -> & _)|(_ & _ & Hj)]].
    + simpl. split.
      * apply valid_result; auto.
      * pose proof (rank_decreases _ move Hvnd Hterm (Hi' _ Hin)). lia.
    + simpl. auto.
    + apply (Hst _ _ Hj).
Qed.

End ExpandInvariant.

(** ** Selection by UCT *)

Section BestChildFacts.
Context {G : Game}.

Lemma uct_return q n N u :
  uct q n N = Return u ->
  u = uct_score q n N /\ (1 <= n)%nat /\ (1 <= N)%nat.
Proof.
  unfold uct. destruct n; [discriminate|]. destruct N; [discriminate|].
  intros H. injection H as <-. repeat split; lia.
Qed.

Lemma uct_total q n N :
  (1 <= n)%nat -> (1 <= N)%nat -> uct q n N = Return (uct_score q n N).
Proof.
  intros Hn HN. unfold uct. destruct n; [lia|]. destruct N; [lia|]. reflexivity.
Qed.

Lemma uct_gt_spec u m :
  (uct_gt u (Some m) = true <-> (m < u)%R) /\
  (uct_gt u (Some m) = false <-> (u <= m)%R).
Proof.
  unfold uct_gt. destruct (Rlt_dec m u) as [H|H].
  - repeat split; auto; try discriminate. intros; lra.
  - repeat split; auto; try discriminate; intros; lra.
Qed.

Lemma best_child_loop_spec (t : Tree) (N : nat) : forall children seen max_uct best res,
  best_so_far t N seen max_uct best ->
  best_child_loop t N children max_uct best = Return res ->
  exists max_uct', best_so_far t N (seen ++ children) max_uct' res.
Proof.
  induction children as [|ch rest IH]; intros seen max_uct best res Hinv H;
    simpl in H.
  - injection H as <-. rewrite app_nil_r. eauto.
  - unfold deref in H.
    destruct (nth_error t ch) as [cn|] eqn:Hcn; simpl in H; [|discriminate].
    destruct (uct (qValue cn) (numberOfVisits cn) N) as [u| |] eqn:Hu;
      simpl in H; try discriminate.
    apply uct_return in Hu. destruct Hu as (-> & _ & _).
    replace (seen ++ ch :: rest) with ((seen ++ [ch]) ++ rest)
      by (rewrite <- app_assoc; reflexivity).
    set (u := uct_score (qValue cn) (numberOfVisits cn) N) in *.
    destruct (uct_gt u max_uct) eqn:Hgt.
    + eapply IH; [|exact H].
      right. destruct Hinv as [(-> & -> & ->)|
        (pre & b & bn & post & m & -> & -> & -> & Hbn & Hm & Hpre & Hpost)].
      * exists [], ch, cn, [], u. simpl.
        repeat split; auto; intros c' cn' [].
      * apply (proj1 (proj1 (uct_gt_spec u m))) in Hgt.
        exists (pre ++ b :: post), ch, cn, [], u.
        repeat split; auto.
        -- intros c' cn' Hin Hc'.
           apply in_app_or in Hin. destruct Hin as [Hin|[<-|Hin]].
           ++ pose proof (Hpre _ _ Hin Hc'). lra.
           ++ assert (cn' = bn) by congruence. subst cn'. lra.
           ++ pose proof (Hpost _ _ Hin Hc'). lra.
        -- intros c' cn' [].
    + eapply IH; [|exact H].
      destruct Hinv as [(-> & -> & ->)|
        (pre & b & bn & post & m & -> & -> & -> & Hbn & Hm & Hpre & Hpost)].
      * simpl in Hgt. discriminate.
      * apply (proj1 (proj2 (uct_gt_spec u m))) in Hgt.
        right. exists pre, b, bn, (post ++ [ch]), m.
        repeat split; auto.
        -- rewrite <- app_assoc. reflexivity.
        -- intros c' cn' Hin Hc'.
           apply in_app_or in Hin. destruct Hin as [Hin|[<-|[]]].
           ++ apply (Hpost _ _ Hin Hc').
           ++ assert (cn' = cn) by congruence. subst cn'. exact Hgt.
Qed.

(** [best_child] answers the child with the greatest UCT score, the
    first one among equals, and [None] only for a node without children. *)
Lemma best_child_spec (t : Tree) self res :
  best_child t self = Return res ->
  match res with
  | Some ch => uct_best t self ch
  | None => exists nd, nth_error t self = Some nd /\ childNodes nd = []
  end.
Proof.
  unfold best_child, deref. intros H.
  destruct (nth_error t self) as [nd|] eqn:Hnd; simpl in H; [|discriminate].
  apply (best_child_loop_spec t _ _ []) in H; [|left; auto].
  destruct H as [m [(Hnil & _ & ->)|
    (pre & b & bn & post & u & Hch & -> & _ & Hbn & Hu & Hpre & Hpost)]].
  - simpl in Hnil. eauto.
  - simpl in Hch. unfold uct_best, child_score.
    exists nd, pre, post, u. rewrite Hnd, Hbn.
    repeat split; auto; try congruence.
    + intros c' u' Hin Hs.
      destruct (nth_error t c') as [cn'|] eqn:E; [|discriminate].
      injection Hs as <-. eapply Hpre; eassumption.
    + intros c' u' Hin Hs.
      destruct (nth_error t c') as [cn'|] eqn:E; [|discriminate].
      injection Hs as <-. eapply Hpost; eassumption.
Qed.

Lemma best_child_loop_total (t : Tree) (N : nat) : forall children max_uct best,
  (1 <= N)%nat ->
  (forall ch, In ch children ->
     exists cn, nth_error t ch = Some cn /\ (1 <= numberOfVisits cn)%nat) ->
  exists res, best_child_loop t N children max_uct best = Return res.
Proof.
  induction children as [|ch rest IH]; intros max_uct best HN Hch; simpl.
  - eauto.
  - destruct (Hch ch (or_introl eq_refl)) as (cn & Hcn & Hv).
    unfold deref. rewrite Hcn. simpl. rewrite uct_total by assumption. simpl.
    destruct (uct_gt _ max_uct); apply IH; auto; intros c' Hc'; apply Hch;
      right; exact Hc'.
Qed.

Lemma uct_best_in (t : Tree) self ch :
  uct_best t self ch ->
  exists nd, nth_error t self = Some nd /\ In ch (childNodes nd).
Proof.
  intros (nd & pre & post & u & Hnd & Hch & _).
  exists nd. split; [exact Hnd|]. rewrite Hch. apply in_elt.
Qed.

End BestChildFacts.

(** ** The tree policy and one pass of the loop *)

Section TraverseFacts.
Context {G : Game}.

Lemma tree_ok_mid (t : Tree) n node :
  tree_ok t n -> (node < length t)%nat -> tree_mid t node n.
Proof.
  intros (Hs & Hv & Hvis & Hr) Hlt.
  unfold tree_mid. split; [exact Hs|]. split; [exact Hv|].
  split; [|split; [exact Hr | exact Hlt]].
  intros j nd Hj Hj0 _. apply (Hvis j nd Hj Hj0 Hj0).
Qed.

Lemma traverse_mid (rnd : Rand) (t : Tree) n : forall fuel c node t1 leaf c1,
  tree_ok t n ->
  snd (traverse fuel rnd c t node) = Return (t1, leaf, c1) ->
  tree_mid t1 leaf n.
Proof.
  induction fuel as [|fuel IH]; intros c node t1 leaf c1 Hok H; simpl in H;
    (destruct (nth_error t node) as [nd|] eqn:Hnd; [|discriminate]);
    unfold non_terminal in H;
    (destruct (terminal_test (gameState nd)) eqn:Ht; simpl in H;
     [injection H as <- <- <-; apply tree_ok_mid;
      [exact Hok | eapply nth_error_lt; eassumption] |]);
    (destruct (is_fully_expanded nd); simpl in H;
     [|eapply expand_mid; eassumption]);
    destruct (best_child t node) as [[ch|]|e|]; simpl in H; try discriminate.
  destruct (traverse fuel rnd c t ch) as [calls r] eqn:E. simpl in H.
  eapply IH; [exact Hok|]. rewrite E. exact H.
Qed.

Lemma traverse_states {L : GameLaws G} (rnd : Rand) (t : Tree) s0 :
  forall fuel c node t1 leaf c1,
  tree_shape t -> states_ok s0 t ->
  snd (traverse fuel rnd c t node) = Return (t1, leaf, c1) ->
  states_ok s0 t1.
Proof.
  induction fuel as [|fuel IH]; intros c node t1 leaf c1 Hsh Hst H; simpl in H;
    (destruct (nth_error t node) as [nd|] eqn:Hnd; [|discriminate]);
    unfold non_terminal in H;
    (destruct (terminal_test (gameState nd)) eqn:Ht; simpl in H;
     [injection H as <- <- <-; exact Hst |]);
    (destruct (is_fully_expanded nd); simpl in H;
     [|eapply expand_states; eassumption]);
    destruct (best_child t node) as [[ch|]|e|]; simpl in H; try discriminate.
  destruct (traverse fuel rnd c t ch) as [calls r] eqn:E. simpl in H.
  eapply IH; [exact Hsh | exact Hst |]. rewrite E. exact H.
Qed.

(** [traverse] invokes [best_child] only on nodes that are not terminal
    and have no open action left. *)
Lemma traverse_calls (rnd : Rand) (t : Tree) : forall fuel c start node,
  In node (fst (traverse fuel rnd c t start)) ->
  exists nd, nth_error t node = Some nd /\
             terminal_test (gameState nd) = false /\
             is_fully_expanded nd = true.
Proof.
  induction fuel as [|fuel IH]; intros c start node H; simpl in H;
    (destruct (nth_error t start) as [nd|] eqn:Hnd; [|contradiction]);
    unfold non_terminal in H;
    (destruct (terminal_test (gameState nd)) eqn:Ht; simpl in H;
     [contradiction|]);
    (destruct (is_fully_expanded nd) eqn:Hf; simpl in H; [|contradiction]);
    destruct (best_child t start) as [[ch|]|e|]; simpl in H;
    try (destruct H as [<-|[]]; eauto).
  destruct (traverse fuel rnd c t ch) as [calls r] eqn:E. simpl in H.
  destruct H as [<-|H]; [eauto|].
  apply (IH c ch node). rewrite E. exact H.
Qed.

Lemma states_ok_le {L : GameLaws G} (t t' : Tree) s0 :
  tree_le t t' -> states_ok s0 t -> states_ok s0 t'.
Proof.
  intros Hle ((r & Hr & Hr0) & Hst). split.
  - destruct Hle as [_ Hle]. destruct (Hle _ _ Hr) as (r' & Hr' & (_ & _ & Hg & _) & _).
    exists r'. split; [exact Hr' | congruence].
  - intros j nd' Hj.
    destruct (tree_le_inv _ _ _ _ Hle Hj) as (nd & Hn & (_ & _ & Hg & _) & _).
    rewrite Hg. apply (Hst _ _ Hn).
Qed.

Lemma mcts_iteration_ok (fuel : nat) (rnd : Rand) (t : Tree) c t' c' n :
  tree_ok t n ->
  mcts_iteration fuel rnd (t, c) = Return (t', c') ->
  tree_ok t' (S n).
Proof.
  intros Hok H. unfold mcts_iteration in H.
  destruct (snd (traverse (length t) rnd c t 0)) as [[[t1 leaf] c1]| |] eqn:Htr;
    simpl in H; try discriminate.
  destruct (rollout fuel rnd c1 t1 leaf) as [[r c2]| |]; simpl in H;
    try discriminate.
  destruct (backpropagate (length t1) t1 leaf r) as [t2| |] eqn:Hb; simpl in H;
    try discriminate.
  injection H as <- <-.
  apply traverse_mid with (n := n) in Htr; [|exact Hok].
  apply (backpropagate_ok _ _ _ _ _ Htr Hb).
Qed.

Lemma mcts_iteration_states {L : GameLaws G} (fuel : nat) (rnd : Rand)
  (t : Tree) c t' c' n s0 :
  tree_ok t n -> states_ok s0 t ->
  mcts_iteration fuel rnd (t, c) = Return (t', c') ->
  states_ok s0 t'.
Proof.
  intros Hok Hst H. unfold mcts_iteration in H.
  destruct (snd (traverse (length t) rnd c t 0)) as [[[t1 leaf] c1]| |] eqn:Htr;
    simpl in H; try discriminate.
  destruct (rollout fuel rnd c1 t1 leaf) as [[r c2]| |]; simpl in H;
    try discriminate.
  destruct (backpropagate (length t1) t1 leaf r) as [t2| |] eqn:Hb; simpl in H;
    try discriminate.
  injection H as <- <-.
  pose proof (traverse_mid _ _ _ _ _ _ _ _ _ Hok Htr) as Hmid.
  apply traverse_states with (s0 := s0) in Htr; [|apply Hok|exact Hst].
  eapply states_ok_le; [|exact Htr].
  apply (backpropagate_ok _ _ _ _ _ Hmid Hb).
Qed.

Lemma root_tree_ok (s : State) : tree_ok (root_tree s) 0.
Proof.
  unfold tree_ok, tree_shape, root_tree.
  split; [split; [|split; [|split]] | split; [|split]].
  - simpl. eauto.
  - intros [|i] nd H; simpl in H.
    + injection H as <-. reflexivity.
    + destruct i; discriminate.
  - intros [|i] nd ch H Hin; simpl in H.
    + injection H as <-. contradiction.
    + destruct i; discriminate.
  - intros [|i] nd H; simpl in H.
    + injection H as <-. simpl. split; [reflexivity|].
      split; [apply incl_refl | congruence].
    + destruct i; discriminate.
  - intros [|i] nd p pn H Hp; simpl in H.
    + injection H as <-. discriminate.
    + destruct i; discriminate.
  - intros [|i] nd H Hi _; [congruence|]. destruct i; discriminate.
  - eexists. simpl. eauto.
Qed.

Lemma root_tree_states {L : GameLaws G} (s : State) :
  valid s -> states_ok s (root_tree s).
Proof.
  intros Hv. split.
  - eexists. simpl. eauto.
  - intros [|i] nd H; simpl in H.
    + injection H as <-. simpl. auto.
    + destruct i; discriminate.
Qed.

Lemma mcts_iterations_ok (fuel : nat) (rnd : Rand) : forall n (t : Tree) c t' c' k,
  tree_ok t k ->
  mcts_iterations fuel rnd n (t, c) = Return (t', c') ->
  tree_ok t' (k + n).
Proof.
  induction n as [|n IH]; intros t c t' c' k Hok H; cbn [mcts_iterations] in H.
  - injection H as <- <-. rewrite Nat.add_0_r. exact Hok.
  - destruct (mcts_iteration fuel rnd (t, c)) as [[t1 c1]| |] eqn:E;
      simpl in H; try discriminate.
    apply mcts_iteration_ok with (n := k) in E; [|exact Hok].
    apply IH with (k := S k) in H; [|exact E].
    replace (k + S n)%nat with (S k + n)%nat by lia. exact H.
Qed.

Lemma mcts_iterations_states {L : GameLaws G} (fuel : nat) (rnd : Rand) s0 :
  forall n (t : Tree) c t' c' k,
  tree_ok t k -> states_ok s0 t ->
  mcts_iterations fuel rnd n (t, c) = Return (t', c') ->
  states_ok s0 t'.
Proof.
  induction n as [|n IH]; intros t c t' c' k Hok Hst H;
    cbn [mcts_iterations] in H.
  - injection H as <- <-. exact Hst.
  - destruct (mcts_iteration fuel rnd (t, c)) as [[t1 c1]| |] eqn:E;
      simpl in H; try discriminate.
    pose proof (mcts_iteration_ok _ _ _ _ _ _ _ Hok E) as Hok1.
    pose proof (mcts_iteration_states _ _ _ _ _ _ _ _ Hok Hst E) as Hst1.
    eapply IH; eassumption.
Qed.

(** C5. After every completed pass of the loop of
    [monte_carlo_tree_search] every node other than the root has a parent
    in the tree with at least as many visits, and the root's visit count
    is the number of passes completed. *)
Theorem visit_count_invariant (fuel : nat) (rnd : Rand) (game_state : State)
  (n : nat) (t : Tree) (c : nat) :
  mcts_iterations fuel rnd n (root_tree game_state, O) = Return (t, c) ->
  (forall i nd, nth_error t i = Some nd -> i <> O ->
     exists p pn, parentNode nd = Some p /\ nth_error t p = Some pn /\
                  (numberOfVisits nd <= numberOfVisits pn)%nat) /\
  (exists root, nth_error t 0 = Some root /\ parentNode root = None /\
                numberOfVisits root = n).
Proof.
  intros H.
  apply mcts_iterations_ok with (k := O) in H; [|apply root_tree_ok].
  simpl in H. destruct H as ((_ & Hp & _) & Hv & _ & (r & Hr & Hn)).
  split.
  - intros i nd Hi Hi0. pose proof (Hp i nd Hi) as Hpi.
    destruct (parentNode nd) as [p|] eqn:Hpar; [|contradiction].
    destruct Hpi as [_ [pn Hpn]].
    exists p, pn. repeat split; auto. eapply Hv; eassumption.
  - exists r. repeat split; auto.
    pose proof (Hp 0%nat r Hr) as Hp0.
    destruct (parentNode r) as [p|]; [lia | reflexivity].
Qed.

End TraverseFacts.

(** ** Selection is never asked to divide by zero *)

Section SelectionSafety.
Context {G : Game} {L : GameLaws G}.

Lemma fully_expanded_visited (t : Tree) n s0 i nd :
  tree_ok t n -> states_ok s0 t ->
  nth_error t i = Some nd ->
  terminal_test (gameState nd) = false ->
  is_fully_expanded nd = true ->
  (1 <= numberOfVisits nd)%nat /\
  (forall ch, In ch (childNodes nd) ->
     exists cn, nth_error t ch = Some cn /\ (i < ch)%nat /\
                (1 <= numberOfVisits cn)%nat) /\
  childNodes nd <> [].
Proof.
  intros ((_ & Hp & Hc & Ho) & Hv & Hvis & _) (_ & Hst) Hnd Ht Hf.
  assert (Hch : forall ch, In ch (childNodes nd) ->
            exists cn, nth_error t ch = Some cn /\ (i < ch)%nat /\
                       (1 <= numberOfVisits cn)%nat /\
                       (numberOfVisits cn <= numberOfVisits nd)%nat).
  { intros ch Hin.
    destruct (Hc _ _ _ Hnd Hin) as (cn & a & Hcn & Hpar & _).
    pose proof (Hp _ _ Hcn) as Hpc. rewrite Hpar in Hpc. destruct Hpc as [Hlt _].
    exists cn. split; [exact Hcn|]. split; [exact Hlt|]. split.
    - apply (Hvis _ _ Hcn); lia.
    - eapply Hv; eassumption. }
  assert (Hne : childNodes nd <> []).
  { destruct (Ho _ _ Hnd) as (Hcount & _).
    unfold is_fully_expanded in Hf. apply Nat.eqb_eq in Hf.
    destruct (Hst _ _ Hnd) as [Hval _].
    pose proof (nonterminal_has_actions _ Hval Ht) as Hact.
    intros E. rewrite E, Hf in Hcount. simpl in Hcount.
    destruct (actions (gameState nd)); [congruence | discriminate]. }
  split; [|split].
  - destruct (childNodes nd) as [|ch rest] eqn:E; [congruence|].
    destruct (Hch ch (or_introl eq_refl)) as (cn & _ & _ & H1 & H2). lia.
  - intros ch Hin. destruct (Hch ch Hin) as (cn & H1 & H2 & H3 & _). eauto.
  - exact Hne.
Qed.

Lemma best_child_total (t : Tree) n s0 i nd :
  tree_ok t n -> states_ok s0 t ->
  nth_error t i = Some nd ->
  terminal_test (gameState nd) = false ->
  is_fully_expanded nd = true ->
  exists ch cn, best_child t i = Return (Some ch) /\ uct_best t i ch /\
                In ch (childNodes nd) /\ nth_error t ch = Some cn /\
                (i < ch)%nat.
Proof.
  intros Hok Hst Hnd Ht Hf.
  destruct (fully_expanded_visited _ _ _ _ _ Hok Hst Hnd Ht Hf) as (HN & Hch & Hne).
  assert (Hret : exists res, best_child t i = Return res).
  { unfold best_child, deref. rewrite Hnd. simpl.
    apply best_child_loop_total; [exact HN|].
    intros ch Hin. destruct (Hch ch Hin) as (cn & H1 & _ & H2). eauto. }
  destruct Hret as [res Hres].
  pose proof (best_child_spec _ _ _ Hres) as Hspec.
  destruct res as [ch|].
  - destruct (uct_best_in _ _ _ Hspec) as (nd' & Hnd' & Hin).
    assert (nd' = nd) by congruence. subst nd'.
    destruct (Hch ch Hin) as (cn & Hcn & Hlt & _).
    exists ch, cn. auto.
  - destruct Hspec as (nd' & Hnd' & Hnil). congruence.
Qed.

(** C6. Between two passes of the loop, every node on which
    [traverse] invokes [best_child] has been visited at least once, and
    so has each of its children: the division by the child's visit count
    and the logarithm of the node's visit count are never taken at zero,
    and [best_child] answers a child. *)
Theorem best_child_sees_visited_nodes (fuel : nat) (rnd : Rand)
  (game_state : State) (n : nat) (t : Tree) (c : nat)
  (fuel' : nat) (rnd' : Rand) (c' : nat) (node : nat) :
  valid game_state ->
  mcts_iterations fuel rnd n (root_tree game_state, O) = Return (t, c) ->
  In node (fst (traverse fuel' rnd' c' t 0)) ->
  exists nd,
    nth_error t node = Some nd /\
    (1 <= numberOfVisits nd)%nat /\
    (forall ch, In ch (childNodes nd) ->
       exists cn, nth_error t ch = Some cn /\ (1 <= numberOfVisits cn)%nat) /\
    (exists ch, best_child t node = Return (Some ch) /\ In ch (childNodes nd)).
Proof.
  intros Hv H Hin.
  pose proof (mcts_iterations_ok _ _ _ _ _ _ _ O (root_tree_ok game_state) H) as Hok.
  pose proof (mcts_iterations_states _ _ _ _ _ _ _ _ O (root_tree_ok game_state)
                (root_tree_states _ Hv) H) as Hst.
  simpl in Hok.
  destruct (traverse_calls _ _ _ _ _ _ Hin) as (nd & Hnd & Ht & Hf).
  destruct (fully_expanded_visited _ _ _ _ _ Hok Hst Hnd Ht Hf) as (HN & Hch & _).
  destruct (best_child_total _ _ _ _ _ Hok Hst Hnd Ht Hf) as (ch & cn & Hb & _ & Hi & _).
  exists nd. split; [exact Hnd|]. split; [exact HN|]. split.
  - intros ch' Hin'. destruct (Hch ch' Hin') as (cn' & H1 & _ & H2). eauto.
  - eauto.
Qed.

(** *** Every pass completes *)

Lemma traverse_total (rnd : Rand) (t : Tree) n s0 :
  tree_ok t n -> states_ok s0 t ->
  forall fuel c node,
    (node < length t)%nat -> (length t - node <= fuel)%nat ->
    exists t1 leaf c1, snd (traverse fuel rnd c t node) = Return (t1, leaf, c1).
Proof.
  intros Hok Hst.
  induction fuel as [|fuel IH]; intros c node Hlt Hfuel; [lia|].
  simpl.
  destruct (nth_error t node) as [nd|] eqn:Hnd;
    [|apply nth_error_None in Hnd; lia].
  unfold non_terminal.
  destruct (terminal_test (gameState nd)) eqn:Ht; simpl; [eauto|].
  destruct (is_fully_expanded nd) eqn:Hf; simpl.
  - destruct (best_child_total _ _ _ _ _ Hok Hst Hnd Ht Hf)
      as (ch & cn & Hb & _ & _ & Hcn & Hlt').
    rewrite Hb.
    destruct (traverse fuel rnd c t ch) as [calls r] eqn:E. simpl.
    destruct (IH c ch) as (t1 & leaf & c1 & Hr).
    + eapply nth_error_lt; eassumption.
    + lia.
    + rewrite E in Hr. simpl in Hr. eauto.
  - assert (Ho : openActions nd <> []).
    { unfold is_fully_expanded in Hf. apply Nat.eqb_neq in Hf.
      destruct (openActions nd); simpl in Hf; congruence. }
    destruct (expand_total rnd c t node nd Hnd Ho) as (t1 & leaf & H).
    eauto.
Qed.

Lemma mcts_iteration_total (fuel : nat) (rnd : Rand) (t : Tree) c n s0 :
  tree_ok t n -> states_ok s0 t -> (rank s0 <= fuel)%nat ->
  exists t' c', mcts_iteration fuel rnd (t, c) = Return (t', c').
Proof.
  intros Hok Hst Hfuel. unfold mcts_iteration.
  assert (Hlen : (0 < length t)%nat).
  { destruct Hok as (((r & Hr) & _) & _). eapply nth_error_lt; eassumption. }
  destruct (traverse_total rnd t n s0 Hok Hst (length t) c O Hlen)
    as (t1 & leaf & c1 & Htr); [lia|].
  rewrite Htr. simpl.
  pose proof (traverse_mid _ _ _ _ _ _ _ _ _ Hok Htr) as Hmid.
  pose proof (traverse_states _ _ _ _ _ _ _ _ _ (proj1 Hok) Hst Htr) as Hst1.
  destruct Hmid as (Hsh & _ & _ & _ & Hleaf).
  unfold rollout, deref.
  destruct (nth_error t1 leaf) as [nd|] eqn:Hnd;
    [|apply nth_error_None in Hnd; lia].
  simpl.
  destruct Hst1 as (_ & Hall). destruct (Hall _ _ Hnd) as [Hval Hrank].
  destruct (rollout_loop_total rnd fuel c1 (gameState nd) Hval)
    as (final & c2 & Hroll); [lia|].
  rewrite Hroll. simpl.
  destruct (backpropagate_total (length t1) t1 leaf (Node_result final))
    as (t2 & Hb); [apply Hsh | exact Hleaf | exact Hleaf |].
  rewrite Hb. simpl. eauto.
Qed.

Lemma mcts_iterations_total (fuel : nat) (rnd : Rand) s0 :
  (rank s0 <= fuel)%nat ->
  forall n (t : Tree) c k,
    tree_ok t k -> states_ok s0 t ->
    exists t' c', mcts_iterations fuel rnd n (t, c) = Return (t', c').
Proof.
  intros Hfuel. induction n as [|n IH]; intros t c k Hok Hst;
    cbn [mcts_iterations].
  - eauto.
  - destruct (mcts_iteration_total fuel rnd t c k s0 Hok Hst Hfuel)
      as (t1 & c1 & H1).
    rewrite H1. simpl.
    apply (IH t1 c1 (S k)).
    + eapply mcts_iteration_ok; eassumption.
    + eapply mcts_iteration_states; eassumption.
Qed.

End SelectionSafety.

(** ** The timed loop and the final choice *)

Section FinalChoice.
Context {G : Game} {L : GameLaws G}.

Lemma mcts_loop_run (fuel : nat) (rnd : Rand) (T : Z) late rest :
  Qle_bool late (inject_Z T) = false ->
  forall pre tc k,
    Forall (fun e => Qle_bool e (inject_Z T) = true) pre ->
    mcts_loop fuel rnd (pre ++ late :: rest) T tc k =
    (r <- mcts_iterations fuel rnd (length pre) tc ;;
     Return (fst r, snd r, (k + length pre)%nat)).
Proof.
  intros Hlate. induction pre as [|e pre IH]; intros tc k Hpre; simpl.
  - rewrite Hlate. destruct tc as [t c]. simpl. rewrite Nat.add_0_r. reflexivity.
  - inversion Hpre as [|? ? He Hpre']; subst. rewrite He.
    destruct (mcts_iteration fuel rnd tc) as [tc'| |]; simpl; try reflexivity.
    rewrite (IH tc' (S k) Hpre').
    replace (S k + length pre)%nat with (k + S (length pre))%nat by lia.
    reflexivity.
Qed.

Lemma mcts_iterations_last (fuel : nat) (rnd : Rand) : forall n tc r,
  mcts_iterations fuel rnd (S n) tc = Return r ->
  exists tc', mcts_iterations fuel rnd n tc = Return tc' /\
              mcts_iteration fuel rnd tc' = Return r.
Proof.
  induction n as [|n IH]; intros tc r H.
  - cbn [mcts_iterations] in *.
    destruct (mcts_iteration fuel rnd tc) as [tc1| |] eqn:E; simpl in H;
      try discriminate.
    injection H as <-. eauto.
  - cbn [mcts_iterations] in H.
    destruct (mcts_iteration fuel rnd tc) as [tc1| |] eqn:E; simpl in H;
      try discriminate.
    change (mcts_iterations fuel rnd (S n) tc1 = Return r) in H.
    destruct (IH tc1 r H) as (tc' & H1 & H2).
    exists tc'. split; [|exact H2].
    cbn [mcts_iterations]. rewrite E. simpl. exact H1.
Qed.

Lemma traverse_keeps (rnd : Rand) (t : Tree) : forall fuel c node t1 leaf c1,
  snd (traverse fuel rnd c t node) = Return (t1, leaf, c1) ->
  forall i nd, nth_error t i = Some nd ->
    exists nd1 extra, nth_error t1 i = Some nd1 /\
                      childNodes nd1 = childNodes nd ++ extra /\
                      (i = node -> is_fully_expanded nd = false ->
                       terminal_test (gameState nd) = false -> extra <> []).
Proof.
  induction fuel as [|fuel IH]; intros c node t1 leaf c1 H i ndi Hi; simpl in H;
    (destruct (nth_error t node) as [nd|] eqn:Hnd; [|discriminate]);
    unfold non_terminal in H;
    (destruct (terminal_test (gameState nd)) eqn:Ht; simpl in H;
     [injection H as <- <- <-; exists ndi, []; rewrite app_nil_r;
      split; [exact Hi|]; split; [reflexivity|];
      intros -> _ Ht'; congruence |]);
    (destruct (is_fully_expanded nd) eqn:Hf; simpl in H;
     [| apply expand_spec in H;
        destruct H as (nd0 & move & open' & Hnd0 & _ & _ & _ & -> & -> & ->);
        assert (nd0 = nd) by congruence; subst nd0;
        pose proof (nth_error_lt _ _ _ Hnd) as Hs;
        pose proof (nth_error_lt _ _ _ Hi) as Hilt;
        rewrite nth_error_expand by exact Hs;
        (destruct (Nat.eqb_spec i (length t)); [lia|]);
        destruct (Nat.eqb_spec i node) as [->|Hne];
        [ assert (ndi = nd) by congruence; subst ndi;
          eexists; exists [length t]; split; [reflexivity|];
          split; [reflexivity | intros; discriminate]
        | exists ndi, []; rewrite app_nil_r; split; [exact Hi|];
          split; [reflexivity | intros; congruence] ] ]);
    destruct (best_child t node) as [[ch|]|e|]; simpl in H; try discriminate.
  destruct (traverse fuel rnd c t ch) as [calls r] eqn:E. simpl in H.
  destruct (IH c ch t1 leaf c1) with (i := i) (nd := ndi)
    as (nd1 & extra & H1 & H2 & _); [rewrite E; exact H | exact Hi |].
  exists nd1, extra. split; [exact H1|]. split; [exact H2|].
  intros -> Hf'. assert (ndi = nd) by congruence. subst ndi. congruence.
Qed.

Lemma iteration_root_children (fuel : nat) (rnd : Rand) (t : Tree) c t' c' n s0 :
  tree_ok t n -> states_ok s0 t -> terminal_test s0 = false ->
  mcts_iteration fuel rnd (t, c) = Return (t', c') ->
  exists r', nth_error t' 0 = Some r' /\ childNodes r' <> [].
Proof.
  intros Hok Hst Hterm H. unfold mcts_iteration in H.
  destruct (snd (traverse (length t) rnd c t 0)) as [[[t1 leaf] c1]| |] eqn:Htr;
    simpl in H; try discriminate.
  destruct (rollout fuel rnd c1 t1 leaf) as [[r c2]| |]; simpl in H;
    try discriminate.
  destruct (backpropagate (length t1) t1 leaf r) as [t2| |] eqn:Hb; simpl in H;
    try discriminate.
  injection H as <- <-.
  destruct Hst as ((rt & Hrt & Hgs) & Hall).
  destruct (traverse_keeps _ _ _ _ _ _ _ _ Htr _ _ Hrt)
    as (r1 & extra & Hr1 & Hch & Hextra).
  assert (Hne : childNodes r1 <> []).
  { rewrite Hch. destruct (is_fully_expanded rt) eqn:Hf.
    - destruct (fully_expanded_visited t n s0 O rt Hok
                  (conj (ex_intro _ rt (conj Hrt Hgs)) Hall) Hrt) as (_ & _ & Hne);
        [congruence | exact Hf |].
      destruct (childNodes rt); [congruence | discriminate].
    - assert (extra <> []) by (apply Hextra; congruence).
      destruct (childNodes rt); simpl; [assumption | discriminate]. }
  apply backpropagate_le in Hb. destruct Hb as [_ Hb].
  destruct (Hb _ _ Hr1) as (r2 & Hr2 & (_ & _ & _ & Hc2 & _) & _).
  exists r2. split; [exact Hr2 | congruence].
Qed.

Lemma final_action_ok (t : Tree) n s0 :
  tree_ok t n -> states_ok s0 t -> (1 <= n)%nat ->
  (exists r, nth_error t 0 = Some r /\ childNodes r <> []) ->
  exists ch cn a,
    final_action t = Return (Some a) /\ uct_best t 0 ch /\
    nth_error t ch = Some cn /\ action cn = Some a /\ In a (actions s0).
Proof.
  intros ((_ & Hp & Hc & Ho) & Hv & Hvis & (r & Hr & Hn))
         ((r0 & Hr0 & Hgs) & _) Hn1 (r' & Hr' & Hne).
  assert (r' = r) by congruence. subst r'.
  assert (r0 = r) by congruence. subst r0.
  assert (Hret : exists res, best_child t 0 = Return res).
  { unfold best_child, deref. rewrite Hr. simpl.
    apply best_child_loop_total; [lia|].
    intros ch Hin.
    destruct (Hc _ _ _ Hr Hin) as (cn & a & Hcn & Hpar & _).
    pose proof (Hp _ _ Hcn) as Hpc. rewrite Hpar in Hpc. destruct Hpc as [Hlt _].
    exists cn. split; [exact Hcn|]. apply (Hvis _ _ Hcn); lia. }
  destruct Hret as [res Hres].
  pose proof (best_child_spec _ _ _ Hres) as Hspec.
  destruct res as [ch|].
  - destruct (uct_best_in _ _ _ Hspec) as (nd' & Hnd' & Hin).
    assert (nd' = r) by congruence. subst nd'.
    destruct (Hc _ _ _ Hr Hin) as (cn & a & Hcn & _ & Hact & Hina & _).
    exists ch, cn, a. unfold final_action, deref. rewrite Hres. simpl.
    rewrite Hcn. simpl. rewrite Hact, <- Hgs. auto.
  - destruct Hspec as (nd' & Hnd' & Hnil). congruence.
Qed.

Lemma final_action_root_tree (s : State) :
  final_action (root_tree s) = Raise AttributeError.
Proof. reflexivity. Qed.

(** What [monte_carlo_tree_search] does when the clock lets the loop
    body run [length pre] times. *)
Lemma mcts_run (fuel : nat) (rnd : Rand) (pre : list Q) late rest
  (s : State) (T : Z) :
  valid s -> terminal_test s = false -> (rank s <= fuel)%nat ->
  Forall (fun e => Qle_bool e (inject_Z (with_safety T)) = true) pre ->
  Qle_bool late (inject_Z (with_safety T)) = false ->
  exists t c,
    mcts_loop fuel rnd (pre ++ late :: rest) (with_safety T) (root_tree s, O) O =
      Return (t, c, length pre) /\
    monte_carlo_tree_search fuel rnd (pre ++ late :: rest) s T = final_action t /\
    tree_ok t (length pre) /\ states_ok s t /\
    (pre = [] -> t = root_tree s) /\
    (pre <> [] -> exists r, nth_error t 0 = Some r /\ childNodes r <> []).
Proof.
  intros Hv Hterm Hfuel Hpre Hlate.
  destruct (mcts_iterations_total fuel rnd s Hfuel (length pre) (root_tree s) O O
              (root_tree_ok s) (root_tree_states s Hv)) as (t & c & Hit).
  exists t, c.
  assert (Hloop : mcts_loop fuel rnd (pre ++ late :: rest) (with_safety T)
                            (root_tree s, O) O = Return (t, c, length pre)).
  { rewrite (mcts_loop_run fuel rnd (with_safety T) late rest Hlate pre _ O Hpre).
    rewrite Hit. reflexivity. }
  split; [exact Hloop|]. split.
  { unfold monte_carlo_tree_search. rewrite Hloop. reflexivity. }
  pose proof (mcts_iterations_ok _ _ _ _ _ _ _ O (root_tree_ok s) Hit) as Hok.
  pose proof (mcts_iterations_states _ _ _ _ _ _ _ _ O (root_tree_ok s)
                (root_tree_states s Hv) Hit) as Hst.
  simpl in Hok.
  split; [exact Hok|]. split; [exact Hst|]. split.
  - intros ->. simpl in Hit. congruence.
  - intros Hne. destruct pre as [|e pre']; [congruence|].
    simpl length in *.
    destruct (mcts_iterations_last _ _ _ _ _ Hit) as ([t0 c0] & H0 & Hlast).
    pose proof (mcts_iterations_ok _ _ _ _ _ _ _ O (root_tree_ok s) H0) as Hok0.
    pose proof (mcts_iterations_states _ _ _ _ _ _ _ _ O (root_tree_ok s)
                  (root_tree_states s Hv) H0) as Hst0.
    eapply iteration_root_children; eassumption.
Qed.

(** C7, as amended. On a state that is not terminal, whenever the
    clock lets the loop body run at least once, the root has a child
    when the loop ends and [monte_carlo_tree_search] returns an action of
    the state.  (Nothing makes the loop body run once: with a budget
    of 0 ms the first test of the loop can already fail.) *)
Theorem mcts_returns_action_after_one_pass (fuel : nat) (rnd : Rand)
  (pre : list Q) (late : Q) (rest : list Q) (game_state : State)
  (search_time : Z) :
  valid game_state -> terminal_test game_state = false ->
  (rank game_state <= fuel)%nat ->
  Forall (fun e => Qle_bool e (inject_Z (with_safety search_time)) = true) pre ->
  Qle_bool late (inject_Z (with_safety search_time)) = false ->
  pre <> [] ->
  exists t c root a,
    mcts_loop fuel rnd (pre ++ late :: rest) (with_safety search_time)
              (root_tree game_state, O) O = Return (t, c, length pre) /\
    nth_error t 0 = Some root /\ childNodes root <> [] /\
    monte_carlo_tree_search fuel rnd (pre ++ late :: rest)
      game_state search_time = Return (Some a) /\
    In a (actions game_state).
Proof.
  intros Hv Hterm Hfuel Hpre Hlate Hne.
  destruct (mcts_run fuel rnd pre late rest game_state search_time
              Hv Hterm Hfuel Hpre Hlate)
    as (t & c & Hloop & Hm & Hok & Hst & _ & Hcons).
  destruct (Hcons Hne) as (root & Hroot & Hch).
  destruct (final_action_ok t (length pre) game_state Hok Hst)
    as (ch & cn & a & Hf & _ & _ & _ & Hin).
  - destruct pre; [congruence | simpl; lia].
  - eauto.
  - exists t, c, root, a. rewrite Hm. auto.
Qed.


End FinalChoice.

(** ** The toy board satisfies the game contract *)

Section ToyLaws.
Open Scope Z_scope.

Lemma toy_ray_sound (b : list (list Z)) (dx dy : Z) : forall fuel cx cy x y,
  In (x, y) (Toy.ray fuel b cx cy dx dy) ->
  Toy.in_bounds x y = true /\ Toy.cell b x y = 0.
Proof.
  induction fuel as [|fuel IH]; intros cx cy x y H; simpl in H; [contradiction|].
  destruct (Toy.in_bounds (cx + dx) (cy + dy)) eqn:Hb; [|contradiction].
  destruct (Z.eqb_spec (Toy.cell b (cx + dx) (cy + dy)) 0) as [Hc|Hc];
    simpl in H; [|contradiction].
  destruct H as [H|H].
  - injection H as <- <-. auto.
  - apply (IH _ _ _ _ H).
Qed.

Lemma toy_liberties_sound (g : Toy.GameState) loc x y :
  In (x, y) (Toy.liberties g loc) ->
  Toy.in_bounds x y = true /\ Toy.cell (Toy.board g) x y = 0.
Proof.
  unfold Toy.liberties. destruct loc as [[x0 y0]|].
  - intros H. apply in_flat_map in H. destruct H as (d & _ & H).
    apply (toy_ray_sound _ _ _ _ _ _ _ _ H).
  - intros H. apply in_flat_map in H. destruct H as (x1 & Hx1 & H).
    apply in_flat_map in H. destruct H as (y1 & Hy1 & H).
    destruct (Z.eqb_spec (Toy.cell (Toy.board g) x1 y1) 0) as [Hc|Hc];
      [|contradiction].
    destruct H as [H|[]]. injection H as <- <-.
    split; [|exact Hc].
    unfold Toy.range, Toy.X_DIM, Toy.Y_DIM in *. simpl in Hx1, Hy1.
    unfold Toy.in_bounds, Toy.X_DIM, Toy.Y_DIM.
    destruct Hx1 as [<-|[<-|[<-|[]]]]; destruct Hy1 as [<-|[<-|[]]];
      reflexivity.
Qed.

Lemma toy_result_legal (s : IsoState) (a : Z * Z) :
  In a (Toy.actions (gs s)) ->
  toy_result s a = mkIsoState (Toy.result_value (gs s) a) (plies s + 1).
Proof.
  intros H. unfold toy_result, Toy.result, Toy.legal.
  destruct (in_dec Toy.cell_eq_dec a (Toy.actions (gs s))); [reflexivity|].
  contradiction.
Qed.

Lemma Forall_update {A : Type} (P : A -> Prop) (l : list A) : forall i x,
  Forall P l -> ((i < length l)%nat -> P x) -> Forall P (update l i x).
Proof.
  induction l as [|y l IH]; intros [|i] x Hl Hx; simpl; auto;
    inversion Hl; subst; constructor; auto.
  - apply Hx. simpl. lia.
  - apply IH; [assumption|]. intros H. apply Hx. simpl. lia.
Qed.

Lemma toy_well_formed_result (g : Toy.GameState) (a : Z * Z) :
  Toy.well_formed g -> Toy.well_formed (Toy.result_value g a).
Proof.
  intros (Hb & Hrows & Hl & Ha). unfold Toy.well_formed, Toy.result_value.
  simpl. unfold Toy.set_cell. rewrite !length_update.
  split; [exact Hb|]. split; [|split; [exact Hl|]].
  - apply Forall_update; [exact Hrows|]. intros Hlt. rewrite length_update.
    rewrite Forall_forall in Hrows. apply Hrows. apply nth_In. exact Hlt.
  - destruct (Z.eqb_spec (Toy.active_players_index g) 0); auto.
Qed.

Lemma toy_nonterminal_has_actions (g : Toy.GameState) :
  Toy.well_formed g -> Toy.terminal_test g = false -> Toy.actions g <> [].
Proof.
  intros (_ & _ & _ & Ha) Ht. unfold Toy.terminal_test in Ht.
  apply orb_false_iff in Ht. destruct Ht as [H0 H1].
  unfold Toy.actions. destruct Ha as [-> | ->].
  - destruct (Toy.liberties g (Toy.location g 0)); [discriminate | discriminate].
  - destruct (Toy.liberties g (Toy.location g 1)); [discriminate | discriminate].
Qed.

Lemma toy_rank_decreases (g : Toy.GameState) (a : Z * Z) :
  Toy.well_formed g -> In a (Toy.actions g) ->
  (length (Toy.liberties (Toy.result_value g a) None) <
   length (Toy.liberties g None))%nat.
Proof.
  intros (Hb & Hrows & _ & _) Hin. destruct a as [x y].
  apply toy_liberties_sound in Hin. destruct Hin as [Hbd Hc].
  unfold Toy.liberties, Toy.result_value. simpl Toy.board.
  destruct (Toy.board g) as [|r0 [|r1 [|r2 [|]]]]; simpl in Hb; try discriminate.
  inversion Hrows as [|? ? H0 Hr1]; subst.
  inversion Hr1 as [|? ? H1 Hr2]; subst.
  inversion Hr2 as [|? ? H2 _]; subst.
  destruct r0 as [|a0 [|b0 [|]]]; simpl in H0; try discriminate.
  destruct r1 as [|a1 [|b1 [|]]]; simpl in H1; try discriminate.
  destruct r2 as [|a2 [|b2 [|]]]; simpl in H2; try discriminate.
  unfold Toy.in_bounds, Toy.X_DIM, Toy.Y_DIM in Hbd.
  assert (Hx : x = 0 \/ x = 1 \/ x = 2) by lia.
  assert (Hy : y = 0 \/ y = 1) by lia.
  destruct Hx as [-> | [-> | ->]]; destruct Hy as [-> | ->];
    unfold Toy.cell in Hc; simpl in Hc; subst;
    unfold Toy.range, Toy.X_DIM, Toy.Y_DIM, Toy.set_cell, Toy.cell; simpl;
    repeat match goal with
           | |- context [(?v =? 0)] => is_var v; destruct (v =? 0)
           end; simpl; lia.
Qed.

#[export] Instance ToyLaws : GameLaws ToyGame.
Proof.
  refine {| valid := fun s : @State ToyGame => Toy.well_formed (gs s);
            rank := toy_rank : @State ToyGame -> nat |}.
  - intros s a Hv _ Hin. simpl in *. rewrite (toy_result_legal s a Hin). simpl.
    apply toy_well_formed_result. exact Hv.
  - intros s Hv Ht. simpl in *. apply toy_nonterminal_has_actions; assumption.
  - intros s a Hv _ Hin. simpl in *. rewrite (toy_result_legal s a Hin). simpl.
    unfold Toy.player. simpl.
    destruct Hv as (_ & _ & _ & [-> | ->]); reflexivity.
  - intros s a Hv _ Hin. simpl in *. rewrite (toy_result_legal s a Hin).
    unfold toy_rank. simpl. apply toy_rank_decreases; assumption.
Defined.

Lemma toy_start_valid : Toy.well_formed Toy.init.
Proof. unfold Toy.well_formed. simpl. repeat constructor. Qed.

Lemma toy_play_valid : forall moves (s : IsoState),
  Toy.well_formed (gs s) -> Toy.well_formed (gs (fold_left toy_result moves s)).
Proof.
  induction moves as [|a moves IH]; intros s Hs; simpl; [exact Hs|].
  apply IH. unfold toy_result, Toy.result.
  destruct (Toy.legal (gs s) a); simpl; [|exact Hs].
  apply toy_well_formed_result. exact Hs.
Qed.

End ToyLaws.

(** ** [GameState.result] on the heap *)

Section ToyHeapFacts.
Import ToyHeap.







End ToyHeapFacts.

Section ToyHeapResult.
Import ToyHeap.






End ToyHeapResult.

(** ** The Monte-Carlo tree search on the toy board *)

Section ToyMCTS.

Lemma traverse_logs_node {G : Game} (rnd : Rand) (t : Tree) fuel c node nd :
  nth_error t node = Some nd ->
  terminal_test (gameState nd) = false ->
  is_fully_expanded nd = true ->
  In node (fst (traverse fuel rnd c t node)).
Proof.
  intros Hnd Ht Hf.
  destruct fuel as [|fuel]; simpl; rewrite Hnd; unfold non_terminal;
    rewrite Ht, Hf; simpl;
    destruct (best_child t node) as [[ch|]|e|]; simpl; auto.
  destruct (traverse fuel rnd c t ch). simpl. auto.
Qed.



Lemma toy_valid (moves : list (Z * Z)) : valid (toy_play moves).
Proof. apply (toy_play_valid moves toy_start toy_start_valid). Qed.




Lemma toy_two_passes :
  mcts_iterations 5 rnd0 2 (root_tree toy_three_plies, O) = Return (toy_tree2, 3%nat).
Proof. reflexivity. Qed.






(** C7, as stated, fails: with a budget of 0 ms and a clock that has
    advanced by a microsecond at the first test, the loop body is never
    run and the search of a position that is not terminal raises
    [AttributeError]. *)
Lemma mcts_fails_without_a_pass :
  terminal_test toy_two_plies = false /\
  with_safety 0 = 0%Z /\
  monte_carlo_tree_search 5 rnd0 [1 # 1000] toy_two_plies 0 = Raise AttributeError.
Proof. repeat split; reflexivity. Qed.

(** C1, as stated, fails: the simulation from [toy_three_plies], where
    player 1 is to move, plays (2,0) and (1,1) and ends with player 1
    unable to move.  Player 1, the leaf's mover, has lost, and the
    outcome is +1. *)
Lemma rollout_scores_lost_leaf_as_win :
  player toy_three_plies = 1%Z /\
  rollout_loop 5 rnd0 0 toy_three_plies =
    Return (toy_play [(0, 0); (1, 0); (0, 1); (2, 0); (1, 1)]%Z, 2%nat) /\
  utility (toy_play [(0, 0); (1, 0); (0, 1); (2, 0); (1, 1)]%Z)
          (player toy_three_plies) = NegInf /\
  rollout 5 rnd0 0 (root_tree toy_three_plies) 0 = Return (1%Z, 2%nat).
Proof. repeat split; reflexivity. Qed.

Lemma rollout_outcome_is_relative_to_terminal_state_witness :
  exists final,
    rollout_loop 5 rnd0 0 toy_three_plies = Return (final, 2%nat) /\
    terminal_test final = true /\
    (1%Z = 1%Z <-> utility final (1 - player final) = PosInf) /\
    (1%Z = (-1)%Z <-> utility final (1 - player final) = NegInf) /\
    (1%Z = 0%Z <-> utility final (1 - player final) <> PosInf /\
                   utility final (1 - player final) <> NegInf) /\
    (1 - player final)%Z =
    (if Nat.even (2 - 0) then (1 - player toy_three_plies)%Z
     else player toy_three_plies).
Proof.
  apply (@rollout_outcome_is_relative_to_terminal_state ToyGame ToyLaws
           5 rnd0 0 (@root_tree ToyGame toy_three_plies) 0
           (@Node_init ToyGame toy_three_plies None None) 1%Z 2%nat).
  - reflexivity.
  - apply toy_valid.
  - reflexivity.
Defined.

Lemma visit_count_invariant_witness :
  (forall i nd, nth_error toy_tree2 i = Some nd -> i <> O ->
     exists p pn, parentNode nd = Some p /\ nth_error toy_tree2 p = Some pn /\
                  (numberOfVisits nd <= numberOfVisits pn)%nat) /\
  (exists root, nth_error toy_tree2 0 = Some root /\ parentNode root = None /\
                numberOfVisits root = 2%nat).
Proof.
  apply (@visit_count_invariant ToyGame 5 rnd0 toy_three_plies 2 toy_tree2 3).
  reflexivity.
Defined.

Lemma best_child_sees_visited_nodes_witness :
  exists nd,
    nth_error toy_tree2 0 = Some nd /\
    (1 <= numberOfVisits nd)%nat /\
    (forall ch, In ch (childNodes nd) ->
       exists cn, nth_error toy_tree2 ch = Some cn /\ (1 <= numberOfVisits cn)%nat) /\
    (exists ch, best_child toy_tree2 0 = Return (Some ch) /\ In ch (childNodes nd)).
Proof.
  apply (@best_child_sees_visited_nodes ToyGame ToyLaws
           5 rnd0 toy_three_plies 2 toy_tree2 3 3 rnd0 3 0).
  - apply toy_valid.
  - reflexivity.
  - eapply traverse_logs_node; reflexivity.
Defined.

Lemma mcts_returns_action_after_one_pass_witness :
  exists t c root a,
    mcts_loop 5 rnd0 ([0%Q] ++ 80%Q :: []) (with_safety 150)
              (root_tree toy_two_plies, O) O = Return (t, c, length [0%Q]) /\
    nth_error t 0 = Some root /\ childNodes root <> [] /\
    monte_carlo_tree_search 5 rnd0 ([0%Q] ++ 80%Q :: [])
      toy_two_plies 150 = Return (Some a) /\
    In a (actions toy_two_plies).
Proof.
  apply (@mcts_returns_action_after_one_pass ToyGame ToyLaws
           5 rnd0 [0%Q] 80%Q [] toy_two_plies 150).
  - apply toy_valid.
  - reflexivity.
  - simpl. unfold toy_rank. simpl. lia.
  - repeat constructor.
  - reflexivity.
  - discriminate.
Defined.



End ToyMCTS.

(* ================================================================== *)
(** * Part III: further properties of the code                         *)
(* ================================================================== *)

(** ** The evaluation heuristics *)

Section HeuristicFacts.
Open Scope Z_scope.

(** X1. [xy_distance] is a metric on coordinates: it is never
    negative, symmetric, zero exactly between equal positions, and
    satisfies the triangle inequality. *)
Theorem xy_distance_is_a_metric (p q r : Z * Z) :
  0 <= xy_distance p q /\
  xy_distance p q = xy_distance q p /\
  (xy_distance p q = 0 <-> p = q) /\
  xy_distance p r <= xy_distance p q + xy_distance q r.
Proof.
  destruct p as [px py], q as [qx qy], r as [rx ry].
  unfold xy_distance. simpl. repeat split; try lia.
  - intros H. f_equal; lia.
  - intros H. injection H as -> ->. lia.
Qed.

Lemma land_bit (b p : Z) :
  0 <= p ->
  (Z.land b (Z.shiftl 1 p) =? 0) = negb (Z.testbit b p).
Proof.
  intros Hp. rewrite Z.shiftl_1_l.
  destruct (Z.testbit b p) eqn:Hb; simpl.
  - apply Z.eqb_neq. intros H.
    assert (Hbit : Z.testbit (Z.land b (2 ^ p)) p = true).
    { rewrite Z.land_spec, Hb, Z.pow2_bits_true by lia. reflexivity. }
    rewrite H, Z.bits_0 in Hbit. discriminate.
  - apply Z.eqb_eq. apply Z.bits_inj'. intros n Hn.
    rewrite Z.land_spec, Z.bits_0, Z.pow2_bits_eqb by lia.
    destruct (Z.eqb_spec p n) as [->|Hne].
    + rewrite Hb. reflexivity.
    + apply andb_false_r.
Qed.

(** X2. [check_if_field_is_empty] answers 1 exactly when the bit of the
    position is set in the board and 0 otherwise; for a negative
    position the shift raises [ValueError], which the handler for
    [IndexError] lets through. *)
Theorem check_if_field_is_empty_reads_the_bit (position board : Z) :
  (position < 0 -> check_if_field_is_empty position board = Raise ValueError) /\
  (0 <= position ->
   check_if_field_is_empty position board =
   Return (if Z.testbit board position then 1 else 0)).
Proof.
  unfold check_if_field_is_empty. split; intros H.
  - destruct (Z.ltb_spec position 0); [reflexivity | lia].
  - destruct (Z.ltb_spec position 0); [lia|].
    rewrite land_bit by assumption.
    destruct (Z.testbit board position); reflexivity.
Qed.

Lemma check_if_field_is_empty_bit (position board : Z) :
  0 <= position ->
  check_if_field_is_empty position board =
  Return (if Z.testbit board position then 1 else 0).
Proof.
  intros H. unfold check_if_field_is_empty.
  destruct (Z.ltb_spec position 0); [lia|].
  rewrite land_bit by assumption.
  destruct (Z.testbit board position); reflexivity.
Qed.

Lemma count_true_cons b l :
  count_true (b :: l) = (if b then 1 else 0) + count_true l.
Proof.
  unfold count_true. destruct b; cbn [filter length]; lia.
Qed.

Lemma count_true_bounds l : 0 <= count_true l <= Z.of_nat (length l).
Proof.
  unfold count_true. pose proof (filter_length_le (fun b : bool => b) l). lia.
Qed.

Lemma count_true_app l1 l2 : count_true (l1 ++ l2) = count_true l1 + count_true l2.
Proof.
  unfold count_true. rewrite filter_app, length_app. lia.
Qed.

Lemma count_column_spec (guard : bool) (position board x : Z) : forall ys acc,
  (guard = false -> forall y, In y ys -> 0 <= position + (x + (_WIDTH + 2) * y)) ->
  count_column guard position board x ys acc =
  Return (acc + count_true (map (field_set position board x) ys)).
Proof.
  induction ys as [|y ys IH]; intros acc Hpos; cbn [count_column map].
  - unfold count_true. cbn [filter length]. f_equal. lia.
  - rewrite count_true_cons. unfold field_set at 1.
    destruct (Z.leb_spec 0 (position + (x + (_WIDTH + 2) * y))) as [Hge|Hlt].
    + cbn [negb]. rewrite andb_false_r.
      rewrite check_if_field_is_empty_bit by exact Hge.
      cbn [bind andb].
      rewrite IH by (intros Hg y' Hy'; apply Hpos; [exact Hg | right; exact Hy']).
      f_equal. lia.
    + destruct guard; cbn [negb andb bind].
      * rewrite IH by (intros Hg; discriminate). f_equal.
      * exfalso. specialize (Hpos eq_refl y (or_introl eq_refl)). lia.
Qed.

Lemma count_fields_spec (guard : bool) (position board : Z) ys : forall xs acc,
  (guard = false -> forall x y, In x xs -> In y ys ->
                    0 <= position + (x + (_WIDTH + 2) * y)) ->
  count_fields guard position board xs ys acc =
  Return (acc + count_true
                  (flat_map (fun x => map (field_set position board x) ys) xs)).
Proof.
  induction xs as [|x xs IH]; intros acc Hpos; cbn [count_fields flat_map].
  - unfold count_true. cbn [filter length]. f_equal. lia.
  - rewrite count_column_spec
      by (intros Hg y Hy; apply Hpos; [exact Hg | left; reflexivity | exact Hy]).
    cbn [bind]. rewrite IH
      by (intros Hg x' y Hx' Hy; apply Hpos; [exact Hg | right; exact Hx' | exact Hy]).
    rewrite count_true_app. f_equal. lia.
Qed.

Lemma py_range_in a b x : In x (py_range a b) <-> a <= x < b.
Proof.
  unfold py_range. rewrite in_map_iff. split.
  - intros (k & <- & Hk). apply in_seq in Hk. lia.
  - intros H. exists (Z.to_nat (x - a)). split; [lia|].
    apply in_seq. lia.
Qed.

Lemma py_range_length a b : Z.of_nat (length (py_range a b)) = Z.max 0 (b - a).
Proof. unfold py_range. rewrite length_map, length_seq. lia. Qed.

Lemma length_flat_map_const {A B : Type} (f : A -> list B) n : forall l,
  (forall x, length (f x) = n) -> length (flat_map f l) = (length l * n)%nat.
Proof.
  induction l as [|x l IH]; intros H; simpl; [reflexivity|].
  rewrite length_app, H, IH by assumption. reflexivity.
Qed.

(** X3. [empty_surrounding_fields_heuristic] never raises: the test
    [field_pos >= 0] keeps negative indices away from the shift.  It
    returns, and prints with the position, the number of set bits among
    the 25 fields [position + x + 13 y] with [x] and [y] from -2 to 2
    that have a non-negative index; so a number from 0 to 25. *)
Theorem empty_surrounding_fields_counts_set_bits (position board : Z) :
  exists n,
    empty_surrounding_fields_heuristic position board =
      Return ((n, position), n) /\
    n = count_true (flat_map (fun x => map (field_set position board x)
                                           (py_range (-2) 3)) (py_range (-2) 3)) /\
    0 <= n <= 25.
Proof.
  unfold empty_surrounding_fields_heuristic.
  rewrite count_fields_spec by (intros Hg; discriminate).
  cbn [bind]. eexists. split; [reflexivity|]. split; [reflexivity|].
  pose proof (count_true_bounds
    (flat_map (fun x => map (field_set position board x) (py_range (-2) 3))
              (py_range (-2) 3))) as Hb.
  rewrite (length_flat_map_const _ 5%nat) in Hb by (intros x; reflexivity).
  simpl length in Hb. lia.
Qed.

Lemma count_empty_fields_spec (position board mx my : Z) :
  0 <= position ->
  exists n,
    count_empty_fields position board (mx, my) = Return n /\
    n = count_true (flat_map (fun x => map (field_set position board x)
                                           (py_range 0 my)) (py_range 0 mx)) /\
    0 <= n <= Z.max 0 mx * Z.max 0 my.
Proof.
  intros Hpos. unfold count_empty_fields. cbn [fst snd].
  rewrite count_fields_spec.
  - eexists. split; [reflexivity|]. split; [reflexivity|].
    pose proof (count_true_bounds
      (flat_map (fun x => map (field_set position board x) (py_range 0 my))
                (py_range 0 mx))) as Hb.
    rewrite (length_flat_map_const _ (length (py_range 0 my))) in Hb
      by (intros x; apply length_map).
    rewrite Nat2Z.inj_mul, !py_range_length in Hb.
    rewrite !Z.sub_0_r in Hb. lia.
  - intros _ x y Hx Hy. apply py_range_in in Hx. apply py_range_in in Hy.
    unfold _WIDTH. lia.
Qed.

(** X4. From a position that is not negative [count_empty_fields]
    returns the number of set bits in the rectangle of [mx] by [my]
    fields that starts at the position and extends towards greater
    indices, whatever the quadrant: a number between 0 and the area. *)
Theorem count_empty_fields_counts_rectangle (position board mx my : Z) :
  0 <= position ->
  exists n,
    count_empty_fields position board (mx, my) = Return n /\
    n = count_true (flat_map (fun x => map (field_set position board x)
                                           (py_range 0 my)) (py_range 0 mx)) /\
    0 <= n <= Z.max 0 mx * Z.max 0 my.
Proof. apply count_empty_fields_spec. Qed.

(** X5. With a negative position and a rectangle that is not empty
    [count_empty_fields] raises [ValueError]: nothing guards the shift by
    the first field index. *)
Theorem count_empty_fields_negative_position (position board mx my : Z) :
  position < 0 -> 0 < mx -> 0 < my ->
  count_empty_fields position board (mx, my) = Raise ValueError.
Proof.
  intros Hpos Hx Hy. unfold count_empty_fields, py_range. cbn [fst snd].
  rewrite !Z.sub_0_r.
  destruct (Z.to_nat mx) as [|kx] eqn:Ex; [lia|].
  destruct (Z.to_nat my) as [|ky] eqn:Ey; [lia|].
  cbn [seq map count_fields count_column andb].
  unfold check_if_field_is_empty.
  destruct (Z.ltb_spec (position + (0 + Z.of_nat 0 + (_WIDTH + 2) * (0 + Z.of_nat 0))) 0)
    as [_|Hge]; [reflexivity | unfold _WIDTH in Hge; lia].
Qed.

End HeuristicFacts.

Lemma count_empty_fields_counts_rectangle_witness :
  exists n : Z,
    count_empty_fields 14 7 (2, 3)%Z = Return n /\
    n = count_true (flat_map (fun x => map (field_set 14 7 x) (py_range 0 3))
                             (py_range 0 2)) /\
    (0 <= n <= Z.max 0 2 * Z.max 0 3)%Z.
Proof. apply (count_empty_fields_counts_rectangle 14 7 2 3). lia. Defined.

Lemma count_empty_fields_negative_position_witness :
  count_empty_fields (-1) 7 (2, 3)%Z = Raise ValueError.
Proof. apply (count_empty_fields_negative_position (-1) 7 2 3); lia. Defined.

Section HeuristicBounds.
Context {G : Game}.
Variable player_id : Z.
Variable index_of : Loc -> Z.
Variable ind2xy : State -> Z -> Z * Z.
Variable board_of : State -> Z.
Open Scope Z_scope.

(** X6. The two distance heuristics are opposite to each other,
    [minimize_distance_to_opponent_heuristic] is at most 9 and
    [maximize_distance_to_opponent_heuristic] at least -9; when both
    players stand on the board of 11 by 9 fields, the distance is at
    most 18 and both heuristics lie between -9 and 9. *)
Theorem distance_heuristics_are_opposite_and_bounded (game_state : State) :
  on_board (ind2xy game_state (index_of (locs game_state player_id))) ->
  on_board (ind2xy game_state (index_of (locs game_state (1 - player_id)))) ->
  minimize_distance_to_opponent_heuristic player_id index_of ind2xy game_state =
  - maximize_distance_to_opponent_heuristic player_id index_of ind2xy game_state /\
  -9 <= minimize_distance_to_opponent_heuristic player_id index_of ind2xy game_state <= 9 /\
  -9 <= maximize_distance_to_opponent_heuristic player_id index_of ind2xy game_state <= 9.
Proof.
  unfold minimize_distance_to_opponent_heuristic,
    maximize_distance_to_opponent_heuristic, opponent_distance, on_board,
    xy_distance, _WIDTH, _HEIGHT.
  cbv zeta.
  destruct (ind2xy game_state (index_of (locs game_state player_id))) as [x1 y1].
  destruct (ind2xy game_state (index_of (locs game_state (1 - player_id)))) as [x2 y2].
  cbn [fst snd]. lia.
Qed.

(** X7. On the board [center_field_heuristic] lies between 0 and 9,
    and it is 0 exactly on the center field (5, 4). *)
Theorem center_field_heuristic_bounds (position : Z) (game_state : State) :
  on_board (ind2xy game_state position) ->
  0 <= center_field_heuristic ind2xy position game_state <= 9 /\
  (center_field_heuristic ind2xy position game_state = 0 <->
   ind2xy game_state position = _CENTER).
Proof.
  unfold center_field_heuristic, on_board, xy_distance, _CENTER, _WIDTH, _HEIGHT.
  cbv zeta.
  destruct (ind2xy game_state position) as [x y]. cbn [fst snd].
  intros H. split; [lia|]. split.
  - intros E. f_equal; lia.
  - intros E. injection E as -> ->. lia.
Qed.

(** X8. For a position that is not negative and whose coordinates are
    on the board, [biggest_quadrant_heuristic] returns a score between
    -40 and 68: each quadrant count lies between 0 and the area of its
    rectangle, the largest rectangle having 12 by 9 fields. *)
Theorem biggest_quadrant_heuristic_bounds (position : Z) (game_state : State) :
  0 <= position ->
  on_board (ind2xy game_state position) ->
  exists v,
    biggest_quadrant_heuristic ind2xy board_of position game_state = Return v /\
    -40 <= v <= 68.
Proof.
  intros Hpos Hb. unfold biggest_quadrant_heuristic. cbv zeta.
  unfold count_modifiers_for_q1, count_modifiers_for_q2,
    count_modifiers_for_q3, count_modifiers_for_q4.
  unfold on_board in Hb.
  destruct (ind2xy game_state position) as [x y]. cbn [fst snd] in *.
  unfold _WIDTH, _HEIGHT in *.
  destruct (count_empty_fields_spec position (board_of game_state)
              (11 - x) (9 - y) Hpos) as (q1 & E1 & _ & B1).
  destruct (count_empty_fields_spec position (board_of game_state)
              (x + 1) (9 - y) Hpos) as (q2 & E2 & _ & B2).
  destruct (count_empty_fields_spec position (board_of game_state)
              (x + 1) (y + 1) Hpos) as (q3 & E3 & _ & B3).
  destruct (count_empty_fields_spec position (board_of game_state)
              (11 - x + 1) (y + 1) Hpos) as (q4 & E4 & _ & B4).
  rewrite E1. cbn [bind]. rewrite E2. cbn [bind]. rewrite E3. cbn [bind].
  rewrite E4. cbn [bind].
  eexists. split; [reflexivity|].
  assert (Z.max 0 (11 - x) * Z.max 0 (9 - y) <= 99) by nia.
  assert (Z.max 0 (x + 1) * Z.max 0 (9 - y) <= 99) by nia.
  assert (Z.max 0 (x + 1) * Z.max 0 (y + 1) <= 99) by nia.
  assert (Z.max 0 (11 - x + 1) * Z.max 0 (y + 1) <= 108) by nia.
  lia.
Qed.

End HeuristicBounds.

(** ** The alpha-beta searcher *)

Section AlphaBetaFurther.
Context {G : Game}.
Variable player_id : Z.

Lemma ab_step_value s depth f mv a :
  ab_inv f mv ->
  (EZ_ltb (ab_best_score f)
          (min_value player_id (result s a) (ab_alpha f) PosInf (depth - 1)) = true ->
   min_value player_id (result s a) (ab_alpha f) PosInf (depth - 1) =
   root_value player_id s depth a /\
   EZ_lt mv (root_value player_id s depth a)) /\
  (EZ_ltb (ab_best_score f)
          (min_value player_id (result s a) (ab_alpha f) PosInf (depth - 1)) = false ->
   EZ_le (root_value player_id s depth a) mv).
Proof.
  intros (Ha & Hb & Hn).
  unfold root_value, min_value, minimax_min_value.
  destruct (alpha_beta_window_sound player_id (Z.to_nat (depth - 1))
              (result s a) (ab_alpha f) PosInf) as [[HU HL] _].
  set (v := min_value_n player_id (Z.to_nat (depth - 1)) (result s a)
                        (ab_alpha f) PosInf) in *.
  set (m := minimax_min_n player_id (Z.to_nat (depth - 1)) (result s a)) in *.
  pose proof (EZ_le_PosInf m) as Hm. pose proof (EZ_le_PosInf v) as Hv.
  rewrite Ha in *. rewrite Hb in *.
  split; intros E1.
  - assert (EZ_le v m) by (apply HL; exact E1).
    assert (v = m).
    { destruct (EZ_ltb v PosInf) eqn:E2.
      - specialize (HU E2). ez.
      - apply EZ_not_lt_PosInf in E2. ez. }
    split; [assumption | ez].
  - destruct (EZ_ltb v PosInf) eqn:E2.
    + specialize (HU E2). ez.
    + apply EZ_not_lt_PosInf in E2. ez.
Qed.

Lemma ab_fold_first s depth : forall todo done f mv,
  ab_inv f mv ->
  (forall b, In b done -> EZ_le (root_value player_id s depth b) mv) ->
  (ab_best_move f = None -> done = []) ->
  (forall a, ab_best_move f = Some a ->
     exists pre post, done = pre ++ a :: post /\
       root_value player_id s depth a = mv /\
       forall b, In b pre -> EZ_lt (root_value player_id s depth b) mv) ->
  (forall b, In b (done ++ todo) ->
     EZ_le (root_value player_id s depth b)
           (minimax_max_loop (fun s' => minimax_min_value player_id s' (depth - 1))
                             s todo mv)) /\
  (forall a, ab_best_move (fold_left (ab_step player_id s depth) todo f) = Some a ->
     exists pre post, done ++ todo = pre ++ a :: post /\
       root_value player_id s depth a =
       minimax_max_loop (fun s' => minimax_min_value player_id s' (depth - 1))
                        s todo mv /\
       forall b, In b pre ->
         EZ_lt (root_value player_id s depth b)
               (minimax_max_loop (fun s' => minimax_min_value player_id s' (depth - 1))
                                 s todo mv)).
Proof.
  induction todo as [|x rest IH]; intros done f mv Hinv Hle Hnone Hsome;
    cbn [fold_left minimax_max_loop].
  - rewrite app_nil_r. split; assumption.
  - replace (done ++ x :: rest) with ((done ++ [x]) ++ rest)
      by (rewrite <- app_assoc; reflexivity).
    pose proof (ab_step_value s depth f mv x Hinv) as [Hup Hkeep].
    fold (root_value player_id s depth x).
    apply IH.
    + apply (ab_step_inv player_id s depth f mv x Hinv).
    + intros b Hb. apply in_app_or in Hb. destruct Hb as [Hb|[<-|[]]].
      * specialize (Hle b Hb). ez.
      * ez.
    + unfold ab_step.
      destruct (EZ_ltb _ _); cbn [ab_best_move]; [discriminate|].
      destruct (ab_best_move f); cbn [ab_best_move]; discriminate.
    + intros a. unfold ab_step.
      destruct (EZ_ltb (ab_best_score f) _) eqn:E; cbn [ab_best_move].
      * intros Ea. injection Ea as Ea. subst a.
        destruct (Hup eq_refl) as [_ Hlt].
        exists done, []. split; [reflexivity|]. split; [ez|].
        intros b Hb. specialize (Hle b Hb). ez.
      * specialize (Hkeep eq_refl).
        destruct (ab_best_move f) as [a0|] eqn:E0; cbn [ab_best_move].
        -- intros Ea. injection Ea as Ea. subst a.
           destruct (Hsome a0 eq_refl) as (pre & post & Hd & Hv & Hpre).
           exists pre, (post ++ [x]). split.
           { rewrite Hd, <- app_assoc. reflexivity. }
           split; [ez|].
           intros b Hb. specialize (Hpre b Hb). ez.
        -- intros Ea. injection Ea as Ea. subst a.
           rewrite (Hnone eq_refl).
           destruct Hinv as (_ & Hb & Hn). specialize (Hn E0).
           exists [], []. split; [reflexivity|].
           assert (mv = NegInf) by congruence. subst mv.
           pose proof (EZ_NegInf_le (root_value player_id s depth x)).
           split; [ez | intros b []].
Qed.

(** X9. The move [alpha_beta_search] returns is the first of the
    state's actions, in the order of [actions()], whose plain minimax
    value is the greatest: pruning never changes which move is chosen,
    and among equally good moves the earliest wins. *)
Theorem alpha_beta_search_returns_first_best_move (s : State) (depth : Z) (a : Action) :
  alpha_beta_search player_id s depth = Some a ->
  first_maximal (root_value player_id s depth) (actions s) a /\
  root_value player_id s depth a = minimax_search_value player_id s depth.
Proof.
  intros H. unfold alpha_beta_search, ab_run in H.
  destruct (ab_fold_first s depth (actions s) [] ab_init NegInf) as [Hle Hsome].
  - unfold ab_inv, ab_init; cbn. auto.
  - intros b [].
  - reflexivity.
  - cbn. discriminate.
  - cbn [app] in Hle, Hsome.
    destruct (Hsome a H) as (pre & post & Hacts & Hv & Hpre).
    fold (minimax_search_value player_id s depth) in Hv, Hpre, Hle.
    split; [|exact Hv].
    exists pre, post. split; [exact Hacts|]. rewrite Hv. split; [exact Hpre|].
    intros b Hb. apply Hle. rewrite Hacts. apply in_or_app. right. right. exact Hb.
Qed.

(** X10. [max_value] and [min_value] are fail-soft: with any window the
    value returned is the plain minimax value whenever it lies strictly
    inside the window, an upper bound of it when it is at most [alpha]
    and a lower bound when it is at least [beta]; with the full window
    they return the plain minimax value. *)
Theorem alpha_beta_values_are_fail_soft (s : State) (alpha beta : EZ) (depth : Z) :
  ab_ok (max_value player_id s alpha beta depth)
        (minimax_max_value player_id s depth) alpha beta /\
  ab_ok (min_value player_id s alpha beta depth)
        (minimax_min_value player_id s depth) alpha beta /\
  max_value player_id s NegInf PosInf depth = minimax_max_value player_id s depth /\
  min_value player_id s NegInf PosInf depth = minimax_min_value player_id s depth.
Proof.
  unfold max_value, min_value, minimax_max_value, minimax_min_value.
  pose proof (alpha_beta_window_sound player_id (Z.to_nat depth) s alpha beta)
    as [Hmin Hmax].
  pose proof (alpha_beta_window_sound player_id (Z.to_nat depth) s NegInf PosInf)
    as [[Hmin1 Hmin2] [Hmax1 Hmax2]].
  split; [exact Hmax|]. split; [exact Hmin|].
  set (rmax := max_value_n player_id (Z.to_nat depth) s NegInf PosInf) in *.
  set (mmax := minimax_max_n player_id (Z.to_nat depth) s) in *.
  set (rmin := min_value_n player_id (Z.to_nat depth) s NegInf PosInf) in *.
  set (mmin := minimax_min_n player_id (Z.to_nat depth) s) in *.
  pose proof (EZ_le_PosInf mmax). pose proof (EZ_NegInf_le mmax).
  pose proof (EZ_le_PosInf mmin). pose proof (EZ_NegInf_le mmin).
  split.
  - destruct (EZ_ltb rmax PosInf) eqn:E1; destruct (EZ_ltb NegInf rmax) eqn:E2.
    + specialize (Hmax1 E1). specialize (Hmax2 E2). ez.
    + specialize (Hmax1 E1). ez.
    + specialize (Hmax2 E2). ez.
    + apply EZ_not_lt_PosInf in E1. rewrite E1 in E2. discriminate.
  - destruct (EZ_ltb rmin PosInf) eqn:E1; destruct (EZ_ltb NegInf rmin) eqn:E2.
    + specialize (Hmin1 E1). specialize (Hmin2 E2). ez.
    + specialize (Hmin1 E1). ez.
    + specialize (Hmin2 E2). ez.
    + apply EZ_not_lt_PosInf in E1. rewrite E1 in E2. discriminate.
Qed.

(** X11. What [get_action] leaves on the queue.  From the third ply on
    it returns normally after putting exactly one item: the move
    [alpha_beta_search] chose, one of the state's actions, or [None]
    when the state has no action.  Before that it puts one action drawn
    from the state's actions, and raises [IndexError] with nothing put
    when there is none. *)
Theorem get_action_puts_one_item (rnd : Rand) (state : State) :
  ((2 <= ply_count state)%Z ->
   snd (get_action player_id rnd state) = Return tt /\
   exists r, queue_puts (fst (get_action player_id rnd state)) = [r] /\
             (r = None <-> actions state = []) /\
             (forall a, r = Some a -> In a (actions state))) /\
  ((ply_count state < 2)%Z ->
   (actions state = [] -> get_action player_id rnd state = ([], Raise IndexError)) /\
   (actions state <> [] ->
    exists a, get_action player_id rnd state = ([QueuePut (Some a)], Return tt) /\
              In a (actions state))).
Proof.
  unfold get_action. split; intros Hply.
  - destruct (Z.ltb_spec (ply_count state) 2) as [H|_]; [lia|].
    cbn [fst snd queue_puts]. split; [reflexivity|].
    exists (alpha_beta_search player_id state _SEARCH_DEPTH).
    split; [reflexivity|].
    unfold alpha_beta_search, ab_run.
    destruct (ab_fold_best_move player_id state _SEARCH_DEPTH (actions state) ab_init)
      as [(b & Hb & Hin)|[Heq Hor]].
    + rewrite Hb. split.
      * split; [discriminate | intros E; rewrite E in Hin; destruct Hin].
      * intros a [= <-]. exact Hin.
    + rewrite Heq. cbn [ab_best_move ab_init]. split.
      * split; [intros _ | reflexivity].
        destruct Hor as [E|E]; [exact E | cbn in E; congruence].
      * discriminate.
  - destruct (Z.ltb_spec (ply_count state) 2) as [_|H]; [|lia].
    split.
    + intros E. rewrite E. unfold random_choice. cbn [length].
      destruct (rnd O mod 0)%nat; reflexivity.
    + intros Hne.
      destruct (random_choice_total rnd 0 (actions state) Hne) as (x & Hx).
      rewrite Hx. exists x. split; [reflexivity|].
      apply (random_choice_spec rnd 0 (actions state) x _ Hx).
Qed.

(** X12. The evaluation of a position is zero-sum and finite: what
    [score] gives one player is the negation of what it gives the
    other, and it is never an infinity, so that it cannot be mistaken
    for the utility of a decided game. *)
Theorem score_is_zero_sum (p : Z) (s : State) :
  exists x : Z, score p s = Fin x /\ score (1 - p) s = Fin (- x).
Proof.
  unfold score, diff_liberties. cbv zeta.
  replace (1 - (1 - p))%Z with p by lia.
  eexists. split; [reflexivity|]. f_equal. lia.
Qed.

End AlphaBetaFurther.

(** ** The Monte-Carlo tree search *)

Section MCTSFurther.
Context {G : Game}.

Lemma traverse_cases (rnd : Rand) (t : Tree) : forall fuel c node t1 leaf c1,
  snd (traverse fuel rnd c t node) = Return (t1, leaf, c1) ->
  (t1 = t /\ c1 = c /\
   exists nd, nth_error t leaf = Some nd /\ terminal_test (gameState nd) = true) \/
  (exists self nd, nth_error t self = Some nd /\
     terminal_test (gameState nd) = false /\ is_fully_expanded nd = false /\
     expand rnd c t self = Return (t1, leaf, c1)).
Proof.
  induction fuel as [|fuel IH]; intros c node t1 leaf c1 H; simpl in H;
    (destruct (nth_error t node) as [nd|] eqn:Hnd; [|discriminate]);
    unfold non_terminal in H;
    (destruct (terminal_test (gameState nd)) eqn:Ht; simpl in H;
     [injection H as <- <- <-; left; split; [reflexivity|];
      split; [reflexivity|]; exists nd; auto |]);
    (destruct (is_fully_expanded nd) eqn:Hf; simpl in H;
     [| right; exists node, nd; auto]);
    destruct (best_child t node) as [[ch|]|e|]; simpl in H; try discriminate.
  destruct (traverse fuel rnd c t ch) as [calls r] eqn:E. simpl in H.
  apply (IH c ch). rewrite E. exact H.
Qed.

(** X13. [traverse] either returns a node of the tree whose state is
    terminal, leaving the tree as it is and drawing no random number, or
    the child that one [expand] has just created below a node that is
    not terminal: a new last node, never visited, without children, whose
    action was open at its parent and whose state is the one the action
    leads to; one random number has been drawn. *)
Theorem traverse_returns_terminal_or_new_node (fuel : nat) (rnd : Rand) (c : nat)
  (t : Tree) (node : nat) (t1 : Tree) (leaf c1 : nat) :
  snd (traverse fuel rnd c t node) = Return (t1, leaf, c1) ->
  (t1 = t /\ c1 = c /\
   exists nd, nth_error t leaf = Some nd /\ terminal_test (gameState nd) = true) \/
  (length t1 = S (length t) /\ leaf = length t /\ c1 = S c /\
   exists p pn a,
     nth_error t p = Some pn /\ terminal_test (gameState pn) = false /\
     In a (openActions pn) /\
     nth_error t1 leaf = Some (Node_init (result (gameState pn) a) (Some a) (Some p))).
Proof.
  intros H. destruct (traverse_cases rnd t fuel c node t1 leaf c1 H)
    as [Hl|(self & nd & Hnd & Ht & _ & He)]; [left; exact Hl | right].
  apply expand_spec in He.
  destruct He as (nd0 & move & open' & Hnd0 & Hin & _ & _ & -> & -> & ->).
  assert (nd0 = nd) by congruence. subst nd0.
  rewrite length_app, length_update. cbn [length].
  split; [lia|]. split; [reflexivity|]. split; [reflexivity|].
  exists self, nd, move. split; [exact Hnd|]. split; [exact Ht|].
  split; [exact Hin|].
  rewrite nth_error_expand by (apply nth_error_lt with nd; exact Hnd).
  rewrite Nat.eqb_refl. reflexivity.
Qed.

Lemma expand_q_bounded (rnd : Rand) c (t : Tree) self t1 leaf c1 :
  q_bounded t ->
  expand rnd c t self = Return (t1, leaf, c1) ->
  q_bounded t1.
Proof.
  intros Hq He. apply expand_spec in He.
  destruct He as (nd & move & open' & Hnd & _ & _ & _ & _ & _ & ->).
  intros j ndj Hj.
  apply expand_lookup in Hj; [|apply nth_error_lt with nd; exact Hnd].
  destruct Hj as [[_ ->]|[(-> & -> & _)|(_ & _ & Hj)]].
  - cbn. lia.
  - cbn [expanded qValue numberOfVisits]. apply (Hq _ _ Hnd).
  - apply (Hq _ _ Hj).
Qed.

Lemma traverse_q_bounded (rnd : Rand) (t : Tree) fuel c node t1 leaf c1 :
  q_bounded t ->
  snd (traverse fuel rnd c t node) = Return (t1, leaf, c1) ->
  q_bounded t1.
Proof.
  intros Hq H. destruct (traverse_cases rnd t fuel c node t1 leaf c1 H)
    as [(-> & _)|(self & nd & _ & _ & _ & He)]; [exact Hq|].
  eapply expand_q_bounded; eassumption.
Qed.

Lemma backpropagate_q_bounded : forall fuel (t : Tree) i r t',
  q_bounded t -> (-1 <= r <= 1)%Z ->
  backpropagate fuel t i r = Return t' -> q_bounded t'.
Proof.
  induction fuel as [|fuel IH]; intros t i r t' Hq Hr H; simpl in H; [discriminate|].
  unfold deref in H. destruct (nth_error t i) as [nd|] eqn:Hi; simpl in H;
    [|discriminate].
  fold (visit nd r) in H.
  assert (Hq1 : q_bounded (update t i (visit nd r))).
  { intros j ndj Hj. destruct (Nat.eq_dec i j) as [<-|Hne].
    - rewrite nth_error_update_eq in Hj by (apply nth_error_lt with nd; exact Hi).
      injection Hj as <-. cbn [visit qValue numberOfVisits].
      pose proof (Hq _ _ Hi). lia.
    - rewrite nth_error_update_ne in Hj by exact Hne. apply (Hq _ _ Hj). }
  destruct (parentNode nd) as [p|].
  - apply (IH _ p (- r)%Z t' Hq1); [lia | exact H].
  - injection H as <-. exact Hq1.
Qed.

Lemma Node_result_range (s : State) : (-1 <= Node_result s <= 1)%Z.
Proof.
  unfold Node_result. destruct (is_a_win s); [lia|].
  destruct (is_a_loss s); lia.
Qed.

Lemma mcts_iteration_q_bounded (fuel : nat) (rnd : Rand) (t : Tree) c t' c' :
  q_bounded t ->
  mcts_iteration fuel rnd (t, c) = Return (t', c') ->
  q_bounded t'.
Proof.
  intros Hq H. unfold mcts_iteration in H.
  destruct (snd (traverse (length t) rnd c t 0)) as [[[t1 leaf] c1]| |] eqn:Htr;
    simpl in H; try discriminate.
  unfold rollout, deref in H.
  destruct (nth_error t1 leaf) as [nd|]; simpl in H; [|discriminate].
  destruct (rollout_loop fuel rnd c1 (gameState nd)) as [[final c2]| |];
    simpl in H; try discriminate.
  destruct (backpropagate (length t1) t1 leaf (Node_result final)) as [t2| |] eqn:Hb;
    simpl in H; try discriminate.
  injection H as <- <-.
  eapply backpropagate_q_bounded; [|apply Node_result_range|exact Hb].
  eapply traverse_q_bounded; eassumption.
Qed.

Lemma mcts_iterations_q_bounded (fuel : nat) (rnd : Rand) : forall n (t : Tree) c t' c',
  q_bounded t ->
  mcts_iterations fuel rnd n (t, c) = Return (t', c') ->
  q_bounded t'.
Proof.
  induction n as [|n IH]; intros t c t' c' Hq H; cbn [mcts_iterations] in H.
  - injection H as <- <-. exact Hq.
  - destruct (mcts_iteration fuel rnd (t, c)) as [[t1 c1]| |] eqn:E;
      cbn [bind] in H; try discriminate.
    apply (IH t1 c1 t' c'); [|exact H].
    eapply mcts_iteration_q_bounded; eassumption.
Qed.

(** X14. After any number of passes of the loop of
    [monte_carlo_tree_search] the cumulative value of every node is at
    most its number of visits in absolute value: the average the UCT
    score starts from lies between -1 and 1. *)
Theorem q_value_bounded_by_visits (fuel : nat) (rnd : Rand) (game_state : State)
  (n : nat) (t : Tree) (c : nat) :
  mcts_iterations fuel rnd n (root_tree game_state, O) = Return (t, c) ->
  forall i nd, nth_error t i = Some nd ->
    (- Z.of_nat (numberOfVisits nd) <= qValue nd <= Z.of_nat (numberOfVisits nd))%Z.
Proof.
  intros H i nd Hi.
  assert (Hq : q_bounded t).
  { apply (mcts_iterations_q_bounded fuel rnd n _ _ _ _) with (2 := H).
    intros j ndj Hj. destruct j as [|j]; cbn in Hj.
    - injection Hj as <-. cbn. lia.
    - destruct j; discriminate. }
  specialize (Hq i nd Hi). lia.
Qed.

Lemma mcts_iteration_size (fuel : nat) (rnd : Rand) (t : Tree) c t' c' :
  mcts_iteration fuel rnd (t, c) = Return (t', c') ->
  (length t <= length t' <= S (length t))%nat.
Proof.
  intros H. unfold mcts_iteration in H.
  destruct (snd (traverse (length t) rnd c t 0)) as [[[t1 leaf] c1]| |] eqn:Htr;
    simpl in H; try discriminate.
  destruct (rollout fuel rnd c1 t1 leaf) as [[r c2]| |]; simpl in H; try discriminate.
  destruct (backpropagate (length t1) t1 leaf r) as [t2| |] eqn:Hb;
    simpl in H; try discriminate.
  injection H as <- <-.
  apply backpropagate_le in Hb. destruct Hb as [Hlen _]. rewrite Hlen.
  destruct (traverse_cases rnd t _ c 0%nat t1 leaf c1 Htr)
    as [(-> & _)|(self & nd & Hnd & _ & _ & He)]; [lia|].
  apply expand_spec in He.
  destruct He as (nd0 & move & open' & _ & _ & _ & _ & _ & _ & ->).
  rewrite length_app, length_update. cbn [length]. lia.
Qed.

(** X15. Every pass of the loop of [monte_carlo_tree_search] adds at
    most one node to the tree and removes none: after [n] passes the
    tree has between 1 and [n + 1] nodes. *)
Theorem tree_grows_by_at_most_one_node_per_pass (fuel : nat) (rnd : Rand)
  (game_state : State) (n : nat) (t : Tree) (c : nat) :
  mcts_iterations fuel rnd n (root_tree game_state, O) = Return (t, c) ->
  (1 <= length t <= S n)%nat.
Proof.
  assert (Hgen : forall n t0 c0 t c,
             mcts_iterations fuel rnd n (t0, c0) = Return (t, c) ->
             (length t0 <= length t <= length t0 + n)%nat).
  { clear. induction n as [|n IH]; intros t0 c0 t c H; cbn [mcts_iterations] in H.
    - injection H as <- <-. lia.
    - destruct (mcts_iteration fuel rnd (t0, c0)) as [[t1 c1]| |] eqn:E;
        cbn [bind] in H; try discriminate.
      apply mcts_iteration_size in E. apply IH in H. lia. }
  intros H. apply Hgen in H. cbn [root_tree length] in H. lia.
Qed.

Lemma chain_update (t : Tree) i nd r :
  nth_error t i = Some nd ->
  forall fuel p, chain fuel (update t i (visit nd r)) p = chain fuel t p.
Proof.
  intros Hi. induction fuel as [|fuel IH]; intros p; cbn [chain]; [reflexivity|].
  destruct (Nat.eq_dec i p) as [<-|Hne].
  - rewrite nth_error_update_eq by (apply nth_error_lt with nd; exact Hi).
    rewrite Hi. cbn [visit parentNode].
    destruct (parentNode nd); [rewrite IH|]; reflexivity.
  - rewrite nth_error_update_ne by exact Hne.
    destruct (nth_error t p) as [ndp|]; [|reflexivity].
    destruct (parentNode ndp); [rewrite IH|]; reflexivity.
Qed.

Lemma chain_bound (t : Tree) :
  parents_ok t ->
  forall fuel p j, In j (chain fuel t p) -> (j <= p)%nat.
Proof.
  intros Hpar. induction fuel as [|fuel IH]; intros p j Hj; cbn [chain] in Hj;
    [destruct Hj|].
  destruct (nth_error t p) as [nd|] eqn:Hp; [|destruct Hj].
  destruct Hj as [<-|Hj]; [lia|].
  pose proof (Hpar p nd Hp) as Hq.
  destruct (parentNode nd) as [q|]; [|destruct Hj].
  destruct Hq as [Hlt _]. apply IH in Hj. lia.
Qed.

Lemma position_of_notin i : forall l, ~ In i l -> position_of i l = None.
Proof.
  induction l as [|j l IH]; intros H; cbn [position_of]; [reflexivity|].
  destruct (Nat.eqb_spec i j) as [->|Hne].
  - exfalso. apply H. left. reflexivity.
  - rewrite IH; [reflexivity|]. intros Hin. apply H. right. exact Hin.
Qed.

Lemma backpropagate_chain : forall fuel (t : Tree) i r,
  parents_ok t -> (i < length t)%nat -> (i < fuel)%nat ->
  exists t',
    backpropagate fuel t i r = Return t' /\ length t' = length t /\
    forall j nd, nth_error t j = Some nd ->
      nth_error t' j =
      Some (match position_of j (chain fuel t i) with
            | Some k => visit nd (flipped k r)
            | None => nd
            end).
Proof.
  induction fuel as [|fuel IH]; intros t i r Hpar Hlen Hfuel; [lia|].
  cbn [backpropagate chain]. unfold deref.
  destruct (nth_error t i) as [nd|] eqn:Hi;
    [|apply nth_error_None in Hi; lia].
  cbn [bind]. fold (visit nd r).
  pose proof (Hpar i nd Hi) as Hpi.
  destruct (parentNode nd) as [p|] eqn:Hp.
  - destruct Hpi as [Hlt _].
    assert (Hpar1 : parents_ok (update t i (visit nd r))).
    { apply parents_ok_le with t; [apply tree_le_update; exact Hi | exact Hpar]. }
    destruct (IH (update t i (visit nd r)) p (- r)%Z Hpar1) as (t' & Hb & Hl & Hall).
    { rewrite length_update. lia. }
    { lia. }
    exists t'. split; [exact Hb|]. split; [rewrite Hl; apply length_update|].
    intros j ndj Hj. cbn [position_of].
    rewrite (chain_update t i nd r Hi) in Hall.
    destruct (Nat.eqb_spec j i) as [->|Hne].
    + assert (ndj = nd) by congruence. subst ndj.
      rewrite (Hall i (visit nd r))
        by (apply nth_error_update_eq; exact Hlen).
      rewrite position_of_notin; [reflexivity|].
      intros Hin. apply (chain_bound t Hpar) in Hin. lia.
    + rewrite (Hall j ndj)
        by (rewrite nth_error_update_ne by congruence; exact Hj).
      destruct (position_of j (chain fuel t p)); reflexivity.
  - exists (update t i (visit nd r)). split; [reflexivity|].
    split; [apply length_update|].
    intros j ndj Hj. cbn [position_of].
    destruct (Nat.eqb_spec j i) as [->|Hne].
    + assert (ndj = nd) by congruence. subst ndj.
      apply nth_error_update_eq. exact Hlen.
    + cbn [option_map]. rewrite nth_error_update_ne by congruence. exact Hj.
Qed.

(** X16. [backpropagate] returns on every tree in which parents were
    created before their children.  It visits exactly the nodes on the
    chain of parents from the leaf to the root, each once; the node [k]
    links above the leaf receives the result with its sign flipped [k]
    times; no node is added and every other node is left as it was. *)
Theorem backpropagate_alternates_along_the_chain (t : Tree) (leaf : nat) (r : Z) :
  parents_ok t -> (leaf < length t)%nat ->
  exists t',
    backpropagate (length t) t leaf r = Return t' /\ length t' = length t /\
    forall j nd, nth_error t j = Some nd ->
      nth_error t' j =
      Some (match position_of j (chain (length t) t leaf) with
            | Some k => visit nd (flipped k r)
            | None => nd
            end).
Proof.
  intros Hpar Hlen. apply backpropagate_chain; assumption.
Qed.

Lemma best_child_loop_unvisited (t : Tree) (N : nat) ch cn post :
  nth_error t ch = Some cn -> numberOfVisits cn = O ->
  forall pre max_uct best,
    (pre <> [] -> (1 <= N)%nat) ->
    (forall c', In c' pre ->
       exists cn', nth_error t c' = Some cn' /\ (1 <= numberOfVisits cn')%nat) ->
    best_child_loop t N (pre ++ ch :: post) max_uct best = Raise ZeroDivisionError.
Proof.
  intros Hch Hz. induction pre as [|c0 pre IH]; intros max_uct best HN Hpre;
    cbn [app best_child_loop].
  - unfold deref. rewrite Hch. cbn [bind]. rewrite Hz. reflexivity.
  - destruct (Hpre c0 (or_introl eq_refl)) as (cn0 & Hc0 & Hv0).
    unfold deref at 1. rewrite Hc0. cbn [bind].
    rewrite uct_total by (auto; apply HN; discriminate). cbn [bind].
    assert (Hpre' : forall c', In c' pre ->
              exists cn', nth_error t c' = Some cn' /\ (1 <= numberOfVisits cn')%nat).
    { intros c' Hc'. apply Hpre. right. exact Hc'. }
    assert (HN' : pre <> [] -> (1 <= N)%nat) by (intros _; apply HN; discriminate).
    destruct (uct_gt _ max_uct); apply IH; assumption.
Qed.

(** X17. The three ways [best_child] can end other than by returning a
    child.  Without children it returns [None].  At the first child that
    was never visited it raises [ZeroDivisionError], whatever the
    children before it scored.  On a node that was never visited itself
    and whose first child was visited, the logarithm raises
    [ValueError]. *)
Theorem best_child_edge_cases (t : Tree) (self : nat) (nd : Node) :
  nth_error t self = Some nd ->
  (childNodes nd = [] -> best_child t self = Return None) /\
  (forall pre ch cn post,
     childNodes nd = pre ++ ch :: post ->
     (pre <> [] -> (1 <= numberOfVisits nd)%nat) ->
     (forall c', In c' pre ->
        exists cn', nth_error t c' = Some cn' /\ (1 <= numberOfVisits cn')%nat) ->
     nth_error t ch = Some cn -> numberOfVisits cn = O ->
     best_child t self = Raise ZeroDivisionError) /\
  (forall ch cn post,
     childNodes nd = ch :: post -> numberOfVisits nd = O ->
     nth_error t ch = Some cn -> (1 <= numberOfVisits cn)%nat ->
     best_child t self = Raise ValueError).
Proof.
  intros Hnd. unfold best_child, deref. rewrite Hnd. cbn [bind].
  split; [|split].
  - intros ->. reflexivity.
  - intros pre ch cn post -> HN Hpre Hch Hz.
    apply best_child_loop_unvisited with cn; assumption.
  - intros ch cn post -> HN Hch Hv. cbn [best_child_loop].
    unfold deref. rewrite Hch. cbn [bind]. rewrite HN.
    unfold uct. destruct (numberOfVisits cn); [lia | reflexivity].
Qed.

(** X18. For a requested time that a float holds exactly (at most
    2^53 in absolute value, where the product with 0.5 and its ceiling
    are exact) the time budget of the search is half the requested time,
    rounded up; 75 milliseconds for the default of 150. *)
Theorem with_safety_is_half_rounded_up (search_time : Z) :
  (Z.abs search_time <= 2 ^ 53)%Z ->
  with_safety search_time = ((search_time + 1) / 2)%Z /\
  with_safety _SEARCH_TIME = 75%Z.
Proof.
  intros _. split; [|reflexivity].
  unfold with_safety, _SEARCH_TIME_WITH_SAFETY, Qceiling, Qfloor, Qopp, Qmult, inject_Z.
  cbn [Qnum Qden Pos.mul].
  Z.div_mod_to_equations. lia.
Qed.

Lemma list_remove_first (x : Action) : forall l l',
  list_remove x l = Return l' ->
  exists pre post, l = pre ++ x :: post /\ l' = pre ++ post /\ ~ In x pre.
Proof.
  induction l as [|y l IH]; intros l' H; simpl in H; [discriminate|].
  destruct (Action_eq_dec x y) as [<-|Hne].
  - injection H as <-. exists [], l. auto.
  - destruct (list_remove x l) as [r| |] eqn:E; simpl in H; try discriminate.
    injection H as <-. destruct (IH r eq_refl) as (pre & post & -> & -> & Hn).
    exists (y :: pre), post. split; [reflexivity|]. split; [reflexivity|].
    intros [E'|E']; [congruence | contradiction].
Qed.

(** X19. [expand] on a node with an open action draws one random
    number, takes the open action at that index, removes its first
    occurrence from [openActions] keeping the order of the others,
    appends a fresh node for the state the action leads to at the end of
    the tree and of the node's [childNodes], and changes nothing else;
    on a node without open actions it raises [IndexError]. *)
Theorem expand_moves_one_open_action (rnd : Rand) (c : nat) (t : Tree)
  (self : nat) (nd : Node) :
  nth_error t self = Some nd ->
  (openActions nd = [] -> expand rnd c t self = Raise IndexError) /\
  (openActions nd <> [] ->
   exists move pre post,
     nth_error (openActions nd) (rnd c mod length (openActions nd)) = Some move /\
     openActions nd = pre ++ move :: post /\ ~ In move pre /\
     expand rnd c t self =
     Return (update t self (expanded nd (pre ++ post) (length t)) ++
             [Node_init (result (gameState nd) move) (Some move) (Some self)],
             length t, S c)).
Proof.
  intros Hnd. unfold expand, deref. rewrite Hnd. cbn [bind]. split.
  - intros ->. unfold random_choice. cbn [length].
    destruct (rnd c mod 0)%nat; reflexivity.
  - intros Hne. unfold random_choice.
    destruct (nth_error (openActions nd) (rnd c mod length (openActions nd)))
      as [move|] eqn:E.
    + cbn [bind].
      destruct (list_remove_total move (openActions nd)) as [open' Hr].
      { apply nth_error_In with (1 := E). }
      rewrite Hr. cbn [bind].
      destruct (list_remove_first move _ _ Hr) as (pre & post & Ho & -> & Hn).
      exists move, pre, post. repeat split; auto.
    + exfalso. apply nth_error_None in E.
      assert (length (openActions nd) <> 0)%nat
        by (destruct (openActions nd); simpl; congruence).
      pose proof (Nat.mod_upper_bound (rnd c) (length (openActions nd)) H). lia.
Qed.

End MCTSFurther.

Section RolloutFurther.
Context {G : Game} {L : GameLaws G}.

Lemma rollout_loop_draws (rnd : Rand) : forall fuel c s final c',
  valid s ->
  rollout_loop fuel rnd c s = Return (final, c') ->
  (c' <= c + rank s)%nat.
Proof.
  induction fuel as [|fuel IH]; intros c s final c' Hv H; simpl in H;
    unfold non_terminal in H;
    destruct (terminal_test s) eqn:Ht; simpl in H;
    try discriminate; try (injection H as <- <-; lia).
  destruct (random_choice rnd c (actions s)) as [[a c0]| |] eqn:E;
    simpl in H; try discriminate.
  apply random_choice_spec in E. destruct E as [Hin ->].
  apply IH in H; [|apply valid_result; assumption].
  pose proof (rank_decreases s a Hv Ht Hin). lia.
Qed.

(** X20. On a node whose state belongs to a play, [rollout] returns
    once the fuel covers the plays that are left: it returns -1, 0 or 1
    after at most as many random draws as the state has plays left, and
    it does not touch the tree. *)
Theorem rollout_ends_within_the_plays_left (fuel : nat) (rnd : Rand) (c : nat)
  (t : Tree) (self : nat) (nd : Node) :
  nth_error t self = Some nd ->
  valid (gameState nd) -> (rank (gameState nd) <= fuel)%nat ->
  exists r c',
    rollout fuel rnd c t self = Return (r, c') /\
    (-1 <= r <= 1)%Z /\ (c <= c' <= c + rank (gameState nd))%nat.
Proof.
  intros Hnd Hv Hf. unfold rollout, deref. rewrite Hnd. cbn [bind].
  destruct (rollout_loop_total rnd fuel c (gameState nd) Hv Hf) as (final & c' & Hr).
  rewrite Hr. cbn [bind]. exists (Node_result final), c'.
  split; [reflexivity|]. split; [apply Node_result_range|].
  split.
  - apply (rollout_loop_spec rnd fuel c (gameState nd) final c' Hv Hr).
  - apply (rollout_loop_draws rnd fuel c (gameState nd) final c' Hv Hr).
Qed.

End RolloutFurther.

(** ** The toy board *)

Section ToyFurther.
Open Scope Z_scope.

Lemma toy_range_in n x : In x (Toy.range n) <-> 0 <= x < n.
Proof.
  unfold Toy.range. rewrite in_map_iff. split.
  - intros (k & <- & Hk). apply in_seq in Hk. lia.
  - intros H. exists (Z.to_nat x). split; [lia|]. apply in_seq. lia.
Qed.

Lemma in_bounds_spec x y :
  Toy.in_bounds x y = true <-> 0 <= x < 3 /\ 0 <= y < 2.
Proof.
  unfold Toy.in_bounds, Toy.X_DIM, Toy.Y_DIM.
  rewrite !andb_true_iff, !Z.leb_le, !Z.ltb_lt. lia.
Qed.

(** X21. [liberties(None)] lists exactly the open cells of the board,
    each once. *)
Theorem liberties_of_none_are_the_open_cells (g : Toy.GameState) :
  Toy.well_formed g ->
  NoDup (Toy.liberties g None) /\
  forall x y, In (x, y) (Toy.liberties g None) <->
              Toy.in_bounds x y = true /\ Toy.cell (Toy.board g) x y = 0.
Proof.
  intros _. split.
  - unfold Toy.liberties, Toy.range, Toy.X_DIM, Toy.Y_DIM. simpl.
    repeat match goal with
           | |- context [if ?c then _ else _] => destruct c
           end; simpl; repeat constructor; simpl; intuition congruence.
  - intros x y. split; [apply toy_liberties_sound|].
    intros [Hb Hc]. apply in_bounds_spec in Hb.
    unfold Toy.liberties. apply in_flat_map. exists x.
    split; [apply toy_range_in; unfold Toy.X_DIM; lia|].
    apply in_flat_map. exists y.
    split; [apply toy_range_in; unfold Toy.Y_DIM; lia|].
    rewrite Hc. left. reflexivity.
Qed.

Lemma step_shift (c d : Z) (j : nat) :
  c + d + Z.of_nat j * d = c + Z.of_nat (S j) * d.
Proof. rewrite Nat2Z.inj_succ. ring. Qed.

Lemma toy_ray_spec (b : list (list Z)) (dx dy : Z) : forall fuel cx cy x y,
  In (x, y) (Toy.ray fuel b cx cy dx dy) <->
  exists k, (1 <= k <= fuel)%nat /\
    x = cx + Z.of_nat k * dx /\ y = cy + Z.of_nat k * dy /\
    forall j, (1 <= j <= k)%nat ->
      Toy.in_bounds (cx + Z.of_nat j * dx) (cy + Z.of_nat j * dy) = true /\
      Toy.cell b (cx + Z.of_nat j * dx) (cy + Z.of_nat j * dy) = 0.
Proof.
  induction fuel as [|fuel IH]; intros cx cy x y; cbn [Toy.ray].
  - split; [intros [] | intros (k & Hk & _); lia].
  - assert (Hone : forall P : Z -> Z -> Prop,
               P (cx + Z.of_nat 1 * dx) (cy + Z.of_nat 1 * dy) <->
               P (cx + dx) (cy + dy)).
    { intros P. replace (cx + Z.of_nat 1 * dx) with (cx + dx) by lia.
      replace (cy + Z.of_nat 1 * dy) with (cy + dy) by lia. reflexivity. }
    destruct (Toy.in_bounds (cx + dx) (cy + dy)) eqn:Hb.
    + destruct (Z.eqb_spec (Toy.cell b (cx + dx) (cy + dy)) 0) as [Hc|Hc];
        cbn [negb].
      * split.
        -- intros [H|H].
           ++ injection H as <- <-. exists 1%nat.
              split; [lia|]. split; [lia|]. split; [lia|].
              intros j Hj. assert (j = 1%nat) by lia. subst j.
              apply (Hone (fun u v => Toy.in_bounds u v = true /\ Toy.cell b u v = 0)).
              auto.
           ++ apply IH in H. destruct H as (k & Hk & -> & -> & Hall).
              exists (S k). split; [lia|].
              rewrite !step_shift. split; [reflexivity|]. split; [reflexivity|].
              intros [|j] Hj; [lia|]. destruct j as [|j].
              ** apply (Hone (fun u v => Toy.in_bounds u v = true /\ Toy.cell b u v = 0)).
                 auto.
              ** rewrite <- !(step_shift _ _ (S j)). apply Hall. lia.
        -- intros (k & Hk & -> & -> & Hall).
           destruct k as [|k]; [lia|]. destruct k as [|k].
           ++ left. f_equal; lia.
           ++ right. apply IH. exists (S k). split; [lia|].
              rewrite !step_shift. split; [reflexivity|]. split; [reflexivity|].
              intros j Hj. rewrite !step_shift. apply Hall. lia.
      * split; [intros []|]. intros (k & Hk & _ & _ & Hall).
        destruct (Hall 1%nat ltac:(lia)) as [_ Hc'].
        apply (Hone (fun u v => Toy.cell b u v = 0)) in Hc'. contradiction.
    + split; [intros []|]. intros (k & Hk & _ & _ & Hall).
      destruct (Hall 1%nat ltac:(lia)) as [Hb' _].
      apply (Hone (fun u v => Toy.in_bounds u v = true)) in Hb'. congruence.
Qed.

(** X22. On a well-formed state and from a cell of the board,
    [liberties] returns exactly the
    cells a queen can move to: those reached by some steps in one of the
    eight directions over open cells of the board only.  In particular
    the bound on the [while] loop of the model is never reached. *)
Theorem liberties_are_the_queen_moves (g : Toy.GameState) (x0 y0 x y : Z) :
  Toy.well_formed g -> Toy.in_bounds x0 y0 = true ->
  (In (x, y) (Toy.liberties g (Some (x0, y0))) <->
   queen_move (Toy.board g) x0 y0 x y).
Proof.
  intros _ Hb0. apply in_bounds_spec in Hb0.
  unfold Toy.liberties, queen_move. rewrite in_flat_map. split.
  - intros (d & Hd & H). apply toy_ray_spec in H.
    destruct H as (k & Hk & Hx & Hy & Hall).
    exists d, k. split; [exact Hd|]. split; [lia|]. auto.
  - intros (d & k & Hd & Hk & Hx & Hy & Hall).
    exists d. split; [exact Hd|]. apply toy_ray_spec.
    exists k. split; [|auto].
    change (Z.to_nat (Toy.X_DIM + Toy.Y_DIM)) with 5%nat.
    destruct (Hall k ltac:(lia)) as [Hbk _]. apply in_bounds_spec in Hbk.
    unfold Toy.DIRECTIONS in Hd. cbn [In] in Hd.
    repeat (destruct Hd as [<-|Hd]; [cbn [fst snd] in Hbk; lia|]).
    destruct Hd.
Qed.

Lemma toy_board_cases (g : Toy.GameState) :
  Toy.well_formed g ->
  exists a0 b0 a1 b1 a2 b2, Toy.board g = [[a0; b0]; [a1; b1]; [a2; b2]].
Proof.
  intros (Hb & Hrows & _ & _).
  destruct (Toy.board g) as [|r0 [|r1 [|r2 [|]]]]; simpl in Hb; try discriminate.
  inversion Hrows as [|? ? H0 Hr1]; subst.
  inversion Hr1 as [|? ? H1 Hr2]; subst.
  inversion Hr2 as [|? ? H2 _]; subst.
  destruct r0 as [|a0 [|b0 [|]]]; simpl in H0; try discriminate.
  destruct r1 as [|a1 [|b1 [|]]]; simpl in H1; try discriminate.
  destruct r2 as [|a2 [|b2 [|]]]; simpl in H2; try discriminate.
  eauto 10.
Qed.

(** X23. On a well-formed state [result] with one of the state's
    actions returns a well-formed state in which the other player is to
    move, the mover stands on the action's cell, the opponent stands
    where it stood, the action's cell is blocked and every other cell of
    the board is as before; with any other action it raises
    [AssertionError]. *)
Theorem result_blocks_the_cell_moved_to (g : Toy.GameState) (a : Z * Z) :
  Toy.well_formed g ->
  (~ In a (Toy.actions g) -> Toy.result g a = Raise AssertionError) /\
  (In a (Toy.actions g) ->
   exists g',
     Toy.result g a = Return g' /\ Toy.well_formed g' /\
     Toy.player g' = 1 - Toy.player g /\
     Toy.location g' (Toy.player g) = Some a /\
     Toy.location g' (1 - Toy.player g) = Toy.location g (1 - Toy.player g) /\
     Toy.cell (Toy.board g') (fst a) (snd a) = 1 /\
     forall x y, Toy.in_bounds x y = true -> (x, y) <> a ->
                 Toy.cell (Toy.board g') x y = Toy.cell (Toy.board g) x y).
Proof.
  intros Hwf. unfold Toy.result, Toy.legal.
  destruct (in_dec Toy.cell_eq_dec a (Toy.actions g)) as [Hin|Hnin];
    (split; [intros H | intros H]); try contradiction; try reflexivity.
  exists (Toy.result_value g a). split; [reflexivity|].
  split; [apply toy_well_formed_result; exact Hwf|].
  destruct a as [ax ay].
  pose proof (toy_liberties_sound _ _ _ _ Hin) as [Hba _].
  apply in_bounds_spec in Hba.
  destruct (toy_board_cases g Hwf) as (a0 & b0 & a1 & b1 & a2 & b2 & Hboard).
  destruct Hwf as (_ & _ & Hl & Ha).
  unfold Toy.result_value, Toy.player, Toy.location.
  cbn [Toy.board Toy.active_players_index Toy.player_locations fst snd].
  destruct (Toy.player_locations g) as [|l0 [|l1 [|]]]; simpl in Hl; try discriminate.
  rewrite Hboard.
  assert (Hx : ax = 0 \/ ax = 1 \/ ax = 2) by lia.
  assert (Hy : ay = 0 \/ ay = 1) by lia.
  split; [destruct Ha as [-> | ->]; reflexivity|].
  split; [destruct Ha as [-> | ->]; reflexivity|].
  split; [destruct Ha as [-> | ->]; reflexivity|].
  split.
  - destruct Hx as [-> | [-> | ->]]; destruct Hy as [-> | ->]; reflexivity.
  - intros x y Hb Hne. apply in_bounds_spec in Hb.
    assert (Hx' : x = 0 \/ x = 1 \/ x = 2) by lia.
    assert (Hy' : y = 0 \/ y = 1) by lia.
    destruct Hx as [-> | [-> | ->]]; destruct Hy as [-> | ->];
      destruct Hx' as [-> | [-> | ->]]; destruct Hy' as [-> | ->];
      try reflexivity; exfalso; apply Hne; reflexivity.
Qed.

Lemma results_rank : forall moves g g',
  Toy.well_formed g ->
  results g moves = Return g' ->
  Toy.well_formed g' /\
  (length moves + length (Toy.liberties g' None) <=
   length (Toy.liberties g None))%nat.
Proof.
  induction moves as [|a moves IH]; intros g g' Hwf H; cbn [results] in H.
  - injection H as <-. split; [exact Hwf | simpl; lia].
  - unfold Toy.result, Toy.legal in H.
    destruct (in_dec Toy.cell_eq_dec a (Toy.actions g)) as [Hin|_];
      cbn [bind] in H; [|discriminate].
    apply IH in H; [|apply toy_well_formed_result; exact Hwf].
    destruct H as [Hwf' Hlen]. split; [exact Hwf'|].
    pose proof (toy_rank_decreases g a Hwf Hin).
    change (length (a :: moves)) with (S (length moves)). lia.
Qed.

(** X24. A play on the toy board is short: every chain of [result]
    calls that succeeds from a well-formed state is at most as long as
    the state has open cells, so at most five moves from the initial
    board; a longer chain raises. *)
Theorem plays_are_bounded_by_the_open_cells (g : Toy.GameState)
  (moves : list (Z * Z)) (g' : Toy.GameState) :
  Toy.well_formed g ->
  results g moves = Return g' ->
  (length moves <= length (Toy.liberties g None))%nat /\
  (g = Toy.init -> (length moves <= 5)%nat).
Proof.
  intros Hwf H. destruct (results_rank moves g g' Hwf H) as [_ Hlen].
  split; [lia|]. intros ->. simpl in Hlen. lia.
Qed.

End ToyFurther.

(** ** The search of a decided position *)

Section MCTSTerminal.
Context {G : Game}.

Lemma terminal_iteration (fuel : nat) (rnd : Rand) (s : State) q n c :
  terminal_test s = true ->
  mcts_iteration fuel rnd ([mkNode None None s [] q n (actions s)], c) =
  Return ([mkNode None None s [] (q + Node_result s) (n + 1) (actions s)], c).
Proof.
  intros Ht. unfold mcts_iteration.
  cbn [length traverse nth_error gameState]. unfold non_terminal. rewrite Ht.
  cbn [negb snd bind]. unfold rollout, deref. cbn [nth_error bind gameState].
  assert (Hr : rollout_loop fuel rnd c s = Return (s, c)).
  { destruct fuel; cbn [rollout_loop]; unfold non_terminal; rewrite Ht;
      reflexivity. }
  rewrite Hr. cbn [bind length backpropagate]. unfold deref.
  cbn [nth_error bind parentNode update]. reflexivity.
Qed.

Lemma terminal_iterations (fuel : nat) (rnd : Rand) (s : State) :
  terminal_test s = true ->
  forall n q k c, exists q',
    mcts_iterations fuel rnd n ([mkNode None None s [] q k (actions s)], c) =
    Return ([mkNode None None s [] q' (k + n) (actions s)], c).
Proof.
  intros Ht. induction n as [|n IH]; intros q k c; cbn [mcts_iterations].
  - exists q. rewrite Nat.add_0_r. reflexivity.
  - rewrite terminal_iteration by exact Ht. cbn [bind].
    destruct (IH (q + Node_result s)%Z (k + 1)%nat c) as [q' Hq'].
    exists q'. replace (k + S n)%nat with (k + 1 + n)%nat by lia. exact Hq'.
Qed.

(** X26. On a terminal state [monte_carlo_tree_search] raises
    [AttributeError] however many passes the clock allows: every pass
    returns the root itself, the tree stays a single node that is
    visited once more, and [best_child] of a root without children is
    [None]. *)
Theorem mcts_fails_on_a_terminal_state (fuel : nat) (rnd : Rand)
  (pre : list Q) (late : Q) (rest : list Q) (game_state : State)
  (search_time : Z) :
  terminal_test game_state = true ->
  Forall (fun e => Qle_bool e (inject_Z (with_safety search_time)) = true) pre ->
  Qle_bool late (inject_Z (with_safety search_time)) = false ->
  (exists q c,
     mcts_loop fuel rnd (pre ++ late :: rest) (with_safety search_time)
               (root_tree game_state, O) O =
     Return ([mkNode None None game_state [] q (length pre) (actions game_state)],
             c, length pre)) /\
  monte_carlo_tree_search fuel rnd (pre ++ late :: rest) game_state search_time =
  Raise AttributeError.
Proof.
  intros Ht Hpre Hlate.
  unfold monte_carlo_tree_search. cbv zeta.
  rewrite (mcts_loop_run fuel rnd (with_safety search_time) late rest Hlate pre _ O Hpre).
  destruct (terminal_iterations fuel rnd game_state Ht (length pre) 0%Z O O)
    as [q' Hq'].
  assert (Hit : mcts_iterations fuel rnd (length pre) (root_tree game_state, O) =
                Return ([mkNode None None game_state [] q' (length pre)
                                (actions game_state)], O))
    by exact Hq'.
  rewrite Hit. cbn [bind fst snd Nat.add]. split.
  - exists q', O. reflexivity.
  - reflexivity.
Qed.

End MCTSTerminal.

(** ** Instances on the toy board *)

Lemma alpha_beta_search_returns_first_best_move_witness :
  first_maximal (root_value 0 toy_two_plies 5) (actions toy_two_plies) (1, 1)%Z /\
  root_value 0 toy_two_plies 5 (1, 1)%Z = minimax_search_value 0 toy_two_plies 5.
Proof.
  apply (@alpha_beta_search_returns_first_best_move ToyGame 0 toy_two_plies 5 (1, 1)%Z).
  reflexivity.
Defined.

Lemma distance_heuristics_are_opposite_and_bounded_witness :
  minimize_distance_to_opponent_heuristic 0 (fun _ : @Loc ToyGame => 57%Z)
    (fun _ => iso_ind2xy) toy_start =
  (- maximize_distance_to_opponent_heuristic 0 (fun _ : @Loc ToyGame => 57%Z)
       (fun _ => iso_ind2xy) toy_start)%Z /\
  (-9 <= minimize_distance_to_opponent_heuristic 0 (fun _ : @Loc ToyGame => 57%Z)
           (fun _ => iso_ind2xy) toy_start <= 9)%Z /\
  (-9 <= maximize_distance_to_opponent_heuristic 0 (fun _ : @Loc ToyGame => 57%Z)
           (fun _ => iso_ind2xy) toy_start <= 9)%Z.
Proof.
  apply (@distance_heuristics_are_opposite_and_bounded ToyGame 0
           (fun _ => 57%Z) (fun _ => iso_ind2xy) toy_start);
    unfold on_board, iso_ind2xy, _WIDTH, _HEIGHT; cbn [fst snd];
    change (57 mod (11 + 2))%Z with 5%Z; change (57 / (11 + 2))%Z with 4%Z; lia.
Defined.

Lemma center_field_heuristic_bounds_witness :
  (0 <= center_field_heuristic (fun _ : @State ToyGame => iso_ind2xy) 57 toy_start <= 9)%Z /\
  (center_field_heuristic (fun _ : @State ToyGame => iso_ind2xy) 57 toy_start = 0%Z <->
   iso_ind2xy 57 = _CENTER).
Proof.
  apply (@center_field_heuristic_bounds ToyGame (fun _ => iso_ind2xy) 57 toy_start).
  unfold on_board, iso_ind2xy, _WIDTH, _HEIGHT; cbn [fst snd];
    change (57 mod (11 + 2))%Z with 5%Z; change (57 / (11 + 2))%Z with 4%Z; lia.
Defined.

Lemma biggest_quadrant_heuristic_bounds_witness :
  exists v : Z,
    biggest_quadrant_heuristic (fun _ : @State ToyGame => iso_ind2xy)
      (fun _ => 7%Z) 57 toy_start = Return v /\
    (-40 <= v <= 68)%Z.
Proof.
  apply (@biggest_quadrant_heuristic_bounds ToyGame (fun _ => iso_ind2xy)
           (fun _ => 7%Z) 57 toy_start).
  - lia.
  - unfold on_board, iso_ind2xy, _WIDTH, _HEIGHT; cbn [fst snd];
    change (57 mod (11 + 2))%Z with 5%Z; change (57 / (11 + 2))%Z with 4%Z; lia.
Defined.

Lemma traverse_returns_terminal_or_new_node_witness :
  (toy_tree_expanded = root_tree toy_three_plies /\ 1%nat = 0%nat /\
   exists nd, nth_error (root_tree toy_three_plies) 1 = Some nd /\
              terminal_test (gameState nd) = true) \/
  (length toy_tree_expanded = S (length (root_tree toy_three_plies)) /\
   1%nat = length (root_tree toy_three_plies) /\ 1%nat = 1%nat /\
   exists p pn a,
     nth_error (root_tree toy_three_plies) p = Some pn /\
     terminal_test (gameState pn) = false /\
     In a (openActions pn) /\
     nth_error toy_tree_expanded 1 =
     Some (Node_init (result (gameState pn) a) (Some a) (Some p))).
Proof.
  apply (@traverse_returns_terminal_or_new_node ToyGame 1 rnd0 0
           (@root_tree ToyGame toy_three_plies) 0 toy_tree_expanded 1 1).
  reflexivity.
Defined.

Lemma q_value_bounded_by_visits_witness :
  (- Z.of_nat (numberOfVisits (@mkNode ToyGame (Some (1, 1)%Z) (Some O) toy_lost [] 1 1 []))
   <= qValue (@mkNode ToyGame (Some (1, 1)%Z) (Some O) toy_lost [] 1 1 [])
   <= Z.of_nat (numberOfVisits (@mkNode ToyGame (Some (1, 1)%Z) (Some O) toy_lost [] 1 1 [])))%Z.
Proof.
  apply (@q_value_bounded_by_visits ToyGame 5 rnd0 toy_three_plies 2 toy_tree2 3
           eq_refl 2%nat).
  reflexivity.
Defined.

Lemma tree_grows_by_at_most_one_node_per_pass_witness :
  (1 <= length toy_tree2 <= 3)%nat.
Proof.
  apply (@tree_grows_by_at_most_one_node_per_pass ToyGame 5 rnd0 toy_three_plies
           2 toy_tree2 3).
  reflexivity.
Defined.

Lemma toy_tree2_parents : parents_ok toy_tree2.
Proof.
  pose proof (mcts_iterations_ok 5 rnd0 2 _ _ _ _ 0
                (root_tree_ok toy_three_plies) toy_two_passes) as H.
  destruct H as ((_ & Hp & _) & _). exact Hp.
Qed.

Lemma backpropagate_alternates_along_the_chain_witness :
  exists t',
    backpropagate (length toy_tree2) toy_tree2 1 1 = Return t' /\
    length t' = length toy_tree2 /\
    forall j nd, nth_error toy_tree2 j = Some nd ->
      nth_error t' j =
      Some (match position_of j (chain (length toy_tree2) toy_tree2 1) with
            | Some k => visit nd (flipped k 1)
            | None => nd
            end).
Proof.
  apply (@backpropagate_alternates_along_the_chain ToyGame toy_tree2 1 1).
  - exact toy_tree2_parents.
  - unfold toy_tree2. cbn [length]. lia.
Defined.

Lemma best_child_edge_cases_witness :
  (childNodes (mkNode None None toy_three_plies [1%nat] 0 0 [(1, 1)%Z]) = [] ->
   best_child toy_tree_expanded 0 = Return None) /\
  (forall pre ch cn post,
     childNodes (mkNode None None toy_three_plies [1%nat] 0 0 [(1, 1)%Z]) =
       pre ++ ch :: post ->
     (pre <> [] ->
      (1 <= numberOfVisits
              (mkNode None None toy_three_plies [1%nat] 0 0 [(1, 1)%Z]))%nat) ->
     (forall c', In c' pre ->
        exists cn', nth_error toy_tree_expanded c' = Some cn' /\
                    (1 <= numberOfVisits cn')%nat) ->
     nth_error toy_tree_expanded ch = Some cn -> numberOfVisits cn = O ->
     best_child toy_tree_expanded 0 = Raise ZeroDivisionError) /\
  (forall ch cn post,
     childNodes (mkNode None None toy_three_plies [1%nat] 0 0 [(1, 1)%Z]) =
       ch :: post ->
     numberOfVisits (mkNode None None toy_three_plies [1%nat] 0 0 [(1, 1)%Z]) = O ->
     nth_error toy_tree_expanded ch = Some cn -> (1 <= numberOfVisits cn)%nat ->
     best_child toy_tree_expanded 0 = Raise ValueError).
Proof.
  apply (@best_child_edge_cases ToyGame toy_tree_expanded 0
           (@mkNode ToyGame None None toy_three_plies [1%nat] 0 0 [(1, 1)%Z])).
  reflexivity.
Defined.

Lemma expand_moves_one_open_action_witness :
  (openActions (@Node_init ToyGame toy_three_plies None None) = [] ->
   expand rnd0 0 (root_tree toy_three_plies) 0 = Raise IndexError) /\
  (openActions (@Node_init ToyGame toy_three_plies None None) <> [] ->
   exists move pre post,
     nth_error (openActions (@Node_init ToyGame toy_three_plies None None))
               (rnd0 0%nat mod
                length (openActions (@Node_init ToyGame toy_three_plies None None))) =
       Some move /\
     openActions (@Node_init ToyGame toy_three_plies None None) =
       pre ++ move :: post /\
     ~ In move pre /\
     expand rnd0 0 (root_tree toy_three_plies) 0 =
     Return (update (root_tree toy_three_plies) 0
               (expanded (@Node_init ToyGame toy_three_plies None None)
                         (pre ++ post) (length (root_tree toy_three_plies))) ++
             [Node_init
                (result (gameState (@Node_init ToyGame toy_three_plies None None)) move)
                (Some move) (Some 0%nat)],
             length (root_tree toy_three_plies), 1%nat)).
Proof.
  apply (@expand_moves_one_open_action ToyGame rnd0 0
           (@root_tree ToyGame toy_three_plies) 0
           (@Node_init ToyGame toy_three_plies None None)).
  reflexivity.
Defined.

Lemma rollout_ends_within_the_plays_left_witness :
  exists r c',
    rollout 5 rnd0 0 (root_tree toy_three_plies) 0 = Return (r, c') /\
    (-1 <= r <= 1)%Z /\
    (0 <= c' <= 0 + rank (gameState (@Node_init ToyGame toy_three_plies None None)))%nat.
Proof.
  apply (@rollout_ends_within_the_plays_left ToyGame ToyLaws 5 rnd0 0
           (@root_tree ToyGame toy_three_plies) 0
           (@Node_init ToyGame toy_three_plies None None)).
  - reflexivity.
  - apply toy_valid.
  - simpl. unfold toy_rank. simpl. lia.
Defined.

Lemma liberties_of_none_are_the_open_cells_witness :
  NoDup (Toy.liberties Toy.init None) /\
  forall x y, In (x, y) (Toy.liberties Toy.init None) <->
              Toy.in_bounds x y = true /\ Toy.cell (Toy.board Toy.init) x y = 0%Z.
Proof.
  apply (liberties_of_none_are_the_open_cells Toy.init). exact toy_start_valid.
Defined.

Lemma liberties_are_the_queen_moves_witness :
  In (1, 1)%Z (Toy.liberties Toy.init (Some (0, 0)%Z)) <->
  queen_move (Toy.board Toy.init) 0 0 1 1.
Proof.
  apply (liberties_are_the_queen_moves Toy.init 0 0 1 1);
    [exact toy_start_valid | reflexivity].
Defined.

Lemma result_blocks_the_cell_moved_to_witness :
  (~ In (0, 0)%Z (Toy.actions Toy.init) ->
   Toy.result Toy.init (0, 0)%Z = Raise AssertionError) /\
  (In (0, 0)%Z (Toy.actions Toy.init) ->
   exists g',
     Toy.result Toy.init (0, 0)%Z = Return g' /\ Toy.well_formed g' /\
     Toy.player g' = (1 - Toy.player Toy.init)%Z /\
     Toy.location g' (Toy.player Toy.init) = Some (0, 0)%Z /\
     Toy.location g' (1 - Toy.player Toy.init) =
       Toy.location Toy.init (1 - Toy.player Toy.init) /\
     Toy.cell (Toy.board g') (fst (0, 0)%Z) (snd (0, 0)%Z) = 1%Z /\
     forall x y, Toy.in_bounds x y = true -> (x, y) <> (0, 0)%Z ->
                 Toy.cell (Toy.board g') x y = Toy.cell (Toy.board Toy.init) x y).
Proof.
  apply (result_blocks_the_cell_moved_to Toy.init (0, 0)%Z). exact toy_start_valid.
Defined.

Lemma plays_are_bounded_by_the_open_cells_witness :
  (length [(0, 0); (1, 0)]%Z <= length (Toy.liberties Toy.init None))%nat /\
  (Toy.init = Toy.init -> (length [(0, 0); (1, 0)]%Z <= 5)%nat).
Proof.
  apply (plays_are_bounded_by_the_open_cells Toy.init [(0, 0); (1, 0)]%Z
           (gs toy_two_plies)).
  - exact toy_start_valid.
  - reflexivity.
Defined.

Lemma mcts_fails_on_a_terminal_state_witness :
  (exists q c,
     mcts_loop 5 rnd0 ([0%Q; 10%Q] ++ 80%Q :: []) (with_safety 150)
               (root_tree toy_lost, O) O =
     Return ([mkNode None None toy_lost [] q (length [0%Q; 10%Q]) (actions toy_lost)],
             c, length [0%Q; 10%Q])) /\
  monte_carlo_tree_search 5 rnd0 ([0%Q; 10%Q] ++ 80%Q :: []) toy_lost 150 =
  Raise AttributeError.
Proof.
  apply (@mcts_fails_on_a_terminal_state ToyGame 5 rnd0 [0%Q; 10%Q] 80%Q []
           toy_lost 150).
  - reflexivity.
  - repeat constructor.
  - reflexivity.
Defined.

Lemma with_safety_is_half_rounded_up_witness :
  with_safety 151 = ((151 + 1) / 2)%Z /\ with_safety _SEARCH_TIME = 75%Z.
Proof.
  apply (with_safety_is_half_rounded_up 151). cbn. lia.
Defined.
